(** * algostructs: persistent heaps, sorting and searching

    A shallow embedding of the heap family ([dist/data-structures/heap.js]:
    [Heap], [MinHeap], [MaxHeap], [CustomHeap], [BinaryHeap]), of the sorting
    suite ([dist/algorithms/sort.js]) and of the searching suite
    ([dist/algorithms/search.js]), with the properties the specification
    states about them.

    Conventions of the embedding.
    - A JavaScript array is a [list T]; [arr[i]] is stdpp's lookup
      [arr !! i], which is [None] where JavaScript reads [undefined].
    - Array objects that cross the API (the backing array of a heap, the
      argument and the result of a sorting function) live in a store, a
      [gmap] from locations to arrays, so that aliasing is visible; arrays
      that stay local to one call are plain values.
    - The comparator returns a JavaScript number, here a [Z]; only its sign
      is ever inspected.
    - Numbers stored in arrays are integers ([Z]); where the library
      multiplies and divides them, the rounding of binary64 arithmetic is
      modelled ([Number]). *)

From Stdlib Require Import ZArith QArith Qround Qabs Qpower Lqa Lia String.
From stdpp Require Import base list sorting gmap.
From Equations Require Import Equations.

(** Two reads of the same slot give the same value. *)
Ltac same_lookup :=
  repeat match goal with
    | H1 : ?l !! ?i = Some ?x, H2 : ?l !! ?i = Some ?y |- _ =>
        let E := fresh in
        assert (x = y) as E by congruence; clear H2;
        first [subst y | subst x | clear E | idtac]
    | H : Some ?x = Some ?y |- _ =>
        let E := fresh in
        assert (x = y) as E by congruence; clear H;
        first [subst y | subst x | clear E | idtac]
    | H1 : ?l !! ?i = Some _, H2 : ?l !! ?i = None |- _ =>
        rewrite H1 in H2; discriminate
    end.

(** The errors the library throws, [new TypeError(message)] and
    [new Error(message)], and the one the language throws for it,
    the [RangeError] of [new Array(length)]. *)
Inductive thrown :=
  | TypeError (message : string)
  | Error (message : string)
  | RangeError (message : string).

(** ** Comparators *)

Module Cmp.
Section Comparator.
Context {T : Type}.

(** The comparator contract of the library: the sign of [compare b a] is
    the opposite of the sign of [compare a b], and [compare _ _ <= 0] is
    transitive. *)
Record valid (compare : T → T → Z) : Prop := {
  antisym : ∀ a b, Z.sgn (compare b a) = (- Z.sgn (compare a b))%Z;
  trans : ∀ a b c, (compare a b ≤ 0)%Z → (compare b c ≤ 0)%Z → (compare a c ≤ 0)%Z
}.

(** [le compare a b] reads "a comes no later than b". *)
Definition le (compare : T → T → Z) (a b : T) : Prop := (compare a b ≤ 0)%Z.

(** The comparator with the opposite order. *)
Definition neg (compare : T → T → Z) : T → T → Z := λ a b, (- compare a b)%Z.

Lemma refl compare a : valid compare → (compare a a ≤ 0)%Z.
Proof. intros [Ha _]. specialize (Ha a a). lia. Qed.

Lemma eq_refl compare a : valid compare → compare a a = 0%Z.
Proof. intros [Ha _]. specialize (Ha a a). lia. Qed.

Lemma total compare a b : valid compare → (compare a b ≤ 0)%Z ∨ (compare b a ≤ 0)%Z.
Proof. intros [Ha _]. specialize (Ha a b). lia. Qed.

Lemma not_lt compare a b : valid compare → ¬ (compare a b < 0)%Z → (compare b a ≤ 0)%Z.
Proof. intros [Ha _] ?. specialize (Ha a b). lia. Qed.

Lemma not_le compare a b : valid compare → ¬ (compare a b ≤ 0)%Z → (compare b a ≤ 0)%Z.
Proof. intros [Ha _] ?. specialize (Ha a b). lia. Qed.

Lemma lt_le compare a b : valid compare → (compare a b < 0)%Z → (compare a b ≤ 0)%Z.
Proof. lia. Qed.

Lemma gt_le compare a b : valid compare → (0 < compare a b)%Z → (compare b a ≤ 0)%Z.
Proof. intros [Ha _] ?. specialize (Ha a b). lia. Qed.

Lemma eq_le compare a b : valid compare → compare a b = 0%Z → (compare b a ≤ 0)%Z.
Proof. intros [Ha _] ?. specialize (Ha a b). lia. Qed.

Lemma eq_sym compare a b : valid compare → compare a b = 0%Z → compare b a = 0%Z.
Proof. intros [Ha _] ?. specialize (Ha a b). lia. Qed.

Lemma le_lt_trans compare a b c :
  valid compare → (compare a b ≤ 0)%Z → (compare b c < 0)%Z → (compare a c < 0)%Z.
Proof.
  intros [Ha Ht] Hab Hbc.
  destruct (Z_lt_le_dec (compare a c) 0) as [|Hac]; [done|].
  assert (compare c a ≤ 0)%Z by (specialize (Ha a c); lia).
  assert (compare c b ≤ 0)%Z by eauto.
  specialize (Ha b c). lia.
Qed.

Lemma lt_le_trans compare a b c :
  valid compare → (compare a b < 0)%Z → (compare b c ≤ 0)%Z → (compare a c < 0)%Z.
Proof.
  intros [Ha Ht] Hab Hbc.
  destruct (Z_lt_le_dec (compare a c) 0) as [|Hac]; [done|].
  assert (compare c a ≤ 0)%Z by (specialize (Ha a c); lia).
  assert (compare b a ≤ 0)%Z by eauto.
  specialize (Ha a b). lia.
Qed.

Lemma neg_valid compare : valid compare → valid (neg compare).
Proof.
  intros [Ha Ht]. split; unfold neg.
  - intros a b. specialize (Ha a b). lia.
  - intros a b c H1 H2.
    assert (compare c b ≤ 0)%Z by (specialize (Ha b c); lia).
    assert (compare b a ≤ 0)%Z by (specialize (Ha a b); lia).
    assert (compare c a ≤ 0)%Z by eauto.
    specialize (Ha a c). lia.
Qed.

Lemma neg_le compare a b : valid compare → (neg compare a b ≤ 0)%Z ↔ (compare b a ≤ 0)%Z.
Proof. intros [Ha _]. unfold neg. specialize (Ha a b). lia. Qed.
End Comparator.

(** The default comparator [(a, b) => a - b] on integers. *)
Definition numeric : Z → Z → Z := λ a b, (a - b)%Z.

Lemma numeric_valid : valid numeric.
Proof. split; unfold numeric; intros; lia. Qed.

(** Subtraction after a coercion to numbers is a valid comparator too. *)
Lemma by_number_valid {T} (toNumber : T → Z) :
  valid (λ a b, (toNumber a - toNumber b)%Z).
Proof. split; intros; lia. Qed.
End Cmp.

(** ** Arrays *)

Module Arr.
Section Array.
Context {T : Type}.
Implicit Types arr : list T.

(** [[arr[i], arr[j]] = [arr[j], arr[i]]]: both reads happen before the
    writes.  The library only swaps positions that are in range. *)
Definition swap arr (i j : nat) : list T :=
  match arr !! i, arr !! j with
  | Some x, Some y => <[j := x]> (<[i := y]> arr)
  | _, _ => arr
  end.

(** [arr.pop()], the array afterwards. *)
Definition pop arr : list T := take (length arr - 1) arr.

Lemma length_swap arr i j : length (swap arr i j) = length arr.
Proof. unfold swap. repeat case_match; by rewrite ?length_insert. Qed.

Lemma swap_same arr i : swap arr i i = arr.
Proof.
  unfold swap. destruct (arr !! i) eqn:E; [|done].
  rewrite list_insert_insert_eq. by apply list_insert_id.
Qed.

Lemma lookup_swap_l arr i j :
  i < length arr → j < length arr → swap arr i j !! i = arr !! j.
Proof.
  intros Hi Hj. unfold swap.
  destruct (lookup_lt_is_Some_2 arr i Hi) as [x Hx].
  destruct (lookup_lt_is_Some_2 arr j Hj) as [y Hy].
  rewrite Hx, Hy. destruct (decide (i = j)) as [->|Hne].
  - rewrite list_lookup_insert_eq by (by rewrite length_insert). congruence.
  - rewrite list_lookup_insert_ne by done.
    by rewrite list_lookup_insert_eq.
Qed.

Lemma lookup_swap_r arr i j :
  i < length arr → j < length arr → swap arr i j !! j = arr !! i.
Proof.
  intros Hi Hj. unfold swap.
  destruct (lookup_lt_is_Some_2 arr i Hi) as [x Hx].
  destruct (lookup_lt_is_Some_2 arr j Hj) as [y Hy].
  rewrite Hx, Hy.
  by rewrite list_lookup_insert_eq by (by rewrite length_insert).
Qed.

Lemma lookup_swap_ne arr i j k : k ≠ i → k ≠ j → swap arr i j !! k = arr !! k.
Proof.
  intros Hi Hj. unfold swap. repeat case_match; try done.
  by rewrite !list_lookup_insert_ne by done.
Qed.

Lemma swap_perm arr i j : swap arr i j ≡ₚ arr.
Proof.
  unfold swap. destruct (arr !! i) as [x|] eqn:Hx; [|done].
  destruct (arr !! j) as [y|] eqn:Hy; [|done].
  by apply Permutation_insert_swap.
Qed.

Lemma swap_app_l (p s : list T) i j :
  i < length p → j < length p → swap (p ++ s) i j = swap p i j ++ s.
Proof.
  intros Hi Hj. unfold swap. rewrite !lookup_app_l by done.
  destruct (p !! i), (p !! j); try done.
  rewrite (insert_app_l p s i) by done.
  by rewrite insert_app_l by (by rewrite length_insert).
Qed.

Lemma length_pop arr : length (pop arr) = length arr - 1.
Proof. unfold pop. rewrite length_take. lia. Qed.
End Array.

Section Order.
Context {T : Type} (compare : T → T → Z).
Implicit Types arr : list T.

(** The array has no descent: each element precedes (or ties with) its
    successor.  This is what [isSorted] and the validation scans check. *)
Definition ascending arr : Prop :=
  ∀ i a b, arr !! i = Some a → arr !! (i + 1) = Some b → (compare a b ≤ 0)%Z.

(** Every element precedes (or ties with) every later one. *)
Definition sorted arr : Prop := StronglySorted (λ a b, (compare a b ≤ 0)%Z) arr.

Lemma sorted_lookup arr i j a b :
  sorted arr → i < j → arr !! i = Some a → arr !! j = Some b → (compare a b ≤ 0)%Z.
Proof.
  intros Hs Hij Ha Hb. rewrite <-(take_drop j arr) in Hs.
  eapply (StronglySorted_app_1_elem_of _ _ _ _ _ Hs).
  - apply elem_of_take. eauto.
  - apply list_elem_of_lookup. exists 0. by rewrite lookup_drop, Nat.add_0_r.
Qed.

Lemma sorted_ascending arr : sorted arr → ascending arr.
Proof. intros Hs i a b Ha Hb. eapply (sorted_lookup arr i (i + 1)); eauto with lia. Qed.

Lemma ascending_sorted arr : Cmp.valid compare → ascending arr → sorted arr.
Proof.
  intros Hv Hasc. apply Sorted_StronglySorted.
  { intros a b c. apply (Cmp.trans compare Hv). }
  induction arr as [|a arr IH]; [constructor|]. constructor.
  - apply IH. intros i x y Hx Hy. by apply (Hasc (S i) x y).
  - destruct arr as [|b arr]; constructor. by apply (Hasc 0 a b).
Qed.

Lemma sorted_snoc arr x :
  sorted (arr ++ [x]) ↔ sorted arr ∧ Forall (λ y, (compare y x ≤ 0)%Z) arr.
Proof.
  unfold sorted. rewrite StronglySorted_app, Forall_forall. split.
  - intros (H1 & H2 & _). split; [done|]. intros y Hy. apply H1; [done|]. by left.
  - intros [H1 H2]. split; [|split; [done|repeat constructor]].
    intros y z Hy ->%list_elem_of_singleton. by apply H2.
Qed.

Lemma sorted_reverse_neg arr :
  Cmp.valid compare →
  StronglySorted (λ a b, (Cmp.neg compare a b ≤ 0)%Z) arr → sorted (reverse arr).
Proof.
  intros Hv. induction 1 as [|a arr Hs IH Hall]; [constructor|].
  rewrite reverse_cons. apply sorted_snoc. split; [done|].
  rewrite Forall_reverse. eapply Forall_impl; [done|].
  intros y Hy. by apply (Cmp.neg_le compare a y Hv).
Qed.
End Order.
End Arr.

(** ** The store of array objects *)

(** Locations of array objects. *)
Abbreviation loc := nat (only parsing).

(** A computation on a store of arrays that returns or throws. *)
Definition M (T A : Type) : Type := gmap loc (list T) → (thrown + A) * gmap loc (list T).

Global Instance M_ret {T} : MRet (M T) := λ A a σ, (inr a, σ).
Global Instance M_bind {T} : MBind (M T) := λ A B f m σ,
  match m σ with
  | (inr a, σ') => f a σ'
  | (inl e, σ') => (inl e, σ')
  end.

Section Store.
Context {T : Type}.
Local Abbreviation store := (gmap loc (list T)).

(** [arr] read through a reference; the library holds no dangling
    reference. *)
Definition getArr (l : loc) : M T (list T) := λ σ, (inr (default [] (σ !! l)), σ).
Definition setArr (l : loc) (arr : list T) : M T unit := λ σ, (inr (), <[l := arr]> σ).
(** A new array object, as [[...arr]] makes one. *)
Definition alloc (arr : list T) : M T loc :=
  λ σ, let l := fresh (dom σ) in (inr l, <[l := arr]> σ).
Definition throw {A} (e : thrown) : M T A := λ σ, (inl e, σ).

Lemma fresh_None (σ : store) : σ !! fresh (dom σ) = None.
Proof. apply not_elem_of_dom, is_fresh. Qed.

Lemma fresh_ne (σ : store) l arr : σ !! l = Some arr → fresh (dom σ) ≠ l.
Proof. intros Hl <-. by rewrite fresh_None in Hl. Qed.

Lemma read_after_alloc (σ : store) l arr :
  default [] (<[fresh (dom σ) := arr]> σ !! l) =
    if decide (l = fresh (dom σ)) then arr else default [] (σ !! l).
Proof.
  case_decide as Hl; [subst; by rewrite lookup_insert_eq|].
  by rewrite lookup_insert_ne.
Qed.
End Store.

Ltac run_M :=
  unfold mbind, M_bind, mret, M_ret, getArr, setArr, alloc, throw; cbn [fst snd];
  rewrite ?lookup_insert_eq, ?insert_insert_eq; cbn [from_option fst snd]; unfold id.

(** ** Loops *)

(** A [for] loop over the indices [indices] with a loop state: the body
    either goes on with a new state ([inl]) or leaves the function
    ([inr]). *)
Fixpoint forLoop {S R : Type} (body : nat → S → S + R) (indices : list nat) (s : S) : S + R :=
  match indices with
  | [] => inl s
  | i :: indices =>
      match body i s with
      | inl s' => forLoop body indices s'
      | inr r => inr r
      end
  end.

(** [arr[i]] for an index that may be negative. *)
Definition get {T} (arr : list T) (i : Z) : option T :=
  if bool_decide (0 ≤ i)%Z then arr !! Z.to_nat i else None.

Lemma get_Some {T} (arr : list T) i x :
  get arr i = Some x ↔ (0 ≤ i)%Z ∧ arr !! Z.to_nat i = Some x.
Proof.
  unfold get. case_bool_decide; split; try done; [|intros [? ?]; lia].
  by intros [_ ?].
Qed.

Lemma get_of_nat {T} (arr : list T) (i : nat) : get arr (Z.of_nat i) = arr !! i.
Proof. unfold get. rewrite bool_decide_eq_true_2 by lia. by rewrite Nat2Z.id. Qed.

(** Keeps the value scrutinised by a [with] available as an equation. *)
Definition inspect {A} (a : A) : {b | a = b} := exist _ a eq_refl.

(** ** Numbers

    A JavaScript number is an IEEE 754 binary64 value.  Where the library
    only compares integers, or subtracts them to take a sign, the integers
    themselves ([Z]) stand for the numbers that hold them.  Where it
    multiplies and divides ([interpolationSearch], [isUniformlyDistributed])
    the results are rounded, and the arithmetic is modelled here: a
    number is [NaN], an infinity or a finite rational, and every operation
    rounds the exact result to the nearest double, ties to the even
    significand, as the language prescribes.  The sign of a zero is not
    kept: the library divides by a zero only in [0 / 0]. *)

Module Number.
Local Open Scope Q_scope.

Inductive number :=
  | NaN
  | Inf (negative : bool)
  | Fin (value : Q).

(** The number that holds the integer [z]. *)
Definition ofZ (z : Z) : number := Fin (inject_Z z).

(** The exponent [e] of the binade of a positive rational:
    [2 ^ e <= q < 2 ^ (e + 1)]. *)
Definition binade (q : Q) : Z :=
  let l := (Z.log2 (Qnum q) - Z.log2 (Z.pos (Qden q)))%Z in
  if Qle_bool (2 ^ l) q then l else (l - 1)%Z.

(** The distance of the doubles around [q]: 52 bits below the binade,
    and [2 ^ -1074] in the subnormal range. *)
Definition quantum (q : Q) : Q := 2 ^ (Z.max (binade (Qabs q)) (-1022) - 52).

(** The nearest integer, the even one of two at the same distance. *)
Definition nearestEven (t : Q) : Z :=
  let f := Qfloor t in
  match Qcompare (t - inject_Z f) (1 # 2) with
  | Lt => f
  | Eq => if Z.even f then f else (f + 1)%Z
  | Gt => (f + 1)%Z
  end.

(** The nearest multiple of the quantum. *)
Definition rounded (q : Q) : Q := inject_Z (nearestEven (q / quantum q)) * quantum q.

Definition negative (q : Q) : bool := negb (Qle_bool 0 q).

(** The double nearest to [q]; past the greatest one, an infinity. *)
Definition round (q : Q) : number :=
  if Qle_bool (2 ^ 1024) (Qabs (rounded q)) then Inf (negative q)
  else Fin (Qred (rounded q)).

(** [- x], [x + y], [x - y], [x * y], [x / y], [Math.floor(x)], [x < y]. *)
Definition opp (x : number) : number :=
  match x with
  | NaN => NaN
  | Inf s => Inf (negb s)
  | Fin q => Fin (- q)
  end.

Definition add (x y : number) : number :=
  match x, y with
  | NaN, _ | _, NaN => NaN
  | Inf s, Inf s' => if Bool.eqb s s' then Inf s else NaN
  | Inf s, Fin _ | Fin _, Inf s => Inf s
  | Fin p, Fin q => round (p + q)
  end.

Definition sub (x y : number) : number := add x (opp y).

Definition mul (x y : number) : number :=
  match x, y with
  | NaN, _ | _, NaN => NaN
  | Inf s, Inf s' => Inf (xorb s s')
  | Inf s, Fin q | Fin q, Inf s => if Qeq_bool q 0 then NaN else Inf (xorb s (negative q))
  | Fin p, Fin q => round (p * q)
  end.

Definition div (x y : number) : number :=
  match x, y with
  | NaN, _ | _, NaN => NaN
  | Inf _, Inf _ => NaN
  | Inf s, Fin q => Inf (xorb s (negative q))
  | Fin _, Inf _ => Fin 0
  | Fin p, Fin q =>
      if Qeq_bool q 0 then (if Qeq_bool p 0 then NaN else Inf (negative p))
      else round (p / q)
  end.

Definition floor (x : number) : number :=
  match x with
  | Fin q => Fin (inject_Z (Qfloor q))
  | _ => x
  end.

Definition lt (x y : number) : bool :=
  match x, y with
  | NaN, _ | _, NaN => false
  | Inf s, Inf s' => s && negb s'
  | Inf s, Fin _ => s
  | Fin _, Inf s => negb s
  | Fin p, Fin q => negb (Qle_bool q p)
  end.


(** *** Powers of two *)

Lemma pow2_pos (e : Z) : 0 < 2 ^ e.
Proof. by apply Qpower_0_lt. Qed.

Lemma pow2_add (a b : Z) : 2 ^ (a + b) == 2 ^ a * 2 ^ b.
Proof. by apply Qpower_plus. Qed.

Lemma pow2_le (a b : Z) : (a ≤ b)%Z → 2 ^ a <= 2 ^ b.
Proof. intros. by apply Qpower_le_compat_l. Qed.

Lemma pow2_lt (a b : Z) : (a < b)%Z → 2 ^ a < 2 ^ b.
Proof. intros. by apply Qpower_lt_compat_l. Qed.

Lemma pow2_lt_inv (a b : Z) : 2 ^ a < 2 ^ b → (a < b)%Z.
Proof. intros. by apply (Qpower_lt_compat_l_inv 2). Qed.

Lemma pow2_Z (e : Z) : (0 ≤ e)%Z → 2 ^ e == inject_Z (2 ^ e).
Proof. intros. by rewrite Zpower_Qpower. Qed.

Lemma pow2_succ (e : Z) : 2 ^ (e + 1) == 2 * 2 ^ e.
Proof. rewrite pow2_add. change (2 ^ 1) with 2. ring. Qed.

(** *** The binade of a positive rational *)

Lemma binade_spec (q : Q) : 0 < q → 2 ^ binade q <= q ∧ q < 2 ^ (binade q + 1).
Proof.
  intros Hq. destruct q as [n d]. unfold binade. cbn [Qnum Qden].
  assert (0 < n)%Z as Hn by (unfold Qlt in Hq; simpl in Hq; lia).
  set (a := Z.log2 n). set (b := Z.log2 (Z.pos d)). set (l := (a - b)%Z).
  destruct (Z.log2_spec n Hn) as [Ha1 Ha2]. fold a in Ha1, Ha2.
  destruct (Z.log2_spec (Z.pos d) ltac:(lia)) as [Hb1 Hb2]. fold b in Hb1, Hb2.
  assert (0 ≤ a)%Z as Ha0 by apply Z.log2_nonneg.
  assert (0 ≤ b)%Z as Hb0 by apply Z.log2_nonneg.
  assert (n # d == inject_Z n / inject_Z (Z.pos d)) as Hdiv by apply Qmake_Qdiv.
  assert (0 < inject_Z (Z.pos d)) as Hd by (unfold Qlt; simpl; lia).
  assert (2 ^ a <= inject_Z n) as Qa1 by (rewrite pow2_Z by done; by rewrite <-Zle_Qle).
  assert (inject_Z n < 2 ^ (a + 1)) as Qa2
    by (rewrite pow2_Z by lia; rewrite <-Zlt_Qlt; by rewrite <-Z.add_1_r in Ha2).
  assert (2 ^ b <= inject_Z (Z.pos d)) as Qb1 by (rewrite pow2_Z by done; by rewrite <-Zle_Qle).
  assert (inject_Z (Z.pos d) < 2 ^ (b + 1)) as Qb2
    by (rewrite pow2_Z by lia; rewrite <-Zlt_Qlt; by rewrite <-Z.add_1_r in Hb2).
  assert (2 ^ (l - 1) < n # d) as Hlow.
  { rewrite Hdiv. apply Qlt_shift_div_l; [done|].
    apply Qlt_le_trans with (2 ^ (l - 1) * 2 ^ (b + 1)).
    - apply Qmult_lt_l; [apply pow2_pos|done].
    - rewrite <-pow2_add. by replace (l - 1 + (b + 1))%Z with a by lia. }
  assert (n # d < 2 ^ (l + 1)) as Hhigh.
  { rewrite Hdiv. apply Qlt_shift_div_r; [done|].
    apply Qlt_le_trans with (2 ^ (a + 1)); [done|].
    replace (a + 1)%Z with (l + 1 + b)%Z by lia. rewrite pow2_add.
    apply Qmult_le_l; [apply pow2_pos|done]. }
  destruct (Qle_bool (2 ^ l) (n # d)) eqn:Hle.
  - apply Qle_bool_iff in Hle. by split.
  - split; [by apply Qlt_le_weak|]. replace (l - 1 + 1)%Z with l by lia.
    apply Qnot_le_lt. intros Hc. apply Qle_bool_iff in Hc. congruence.
Qed.

Lemma binade_unique (q : Q) (e : Z) : 2 ^ e <= q → q < 2 ^ (e + 1) → binade q = e.
Proof.
  intros H1 H2.
  assert (0 < q) as Hq by (eapply Qlt_le_trans; [apply (pow2_pos e)|done]).
  destruct (binade_spec q Hq) as [H3 H4].
  assert (e < binade q + 1)%Z by (apply pow2_lt_inv; by eapply Qle_lt_trans).
  assert (binade q < e + 1)%Z by (apply pow2_lt_inv; by eapply Qle_lt_trans).
  lia.
Qed.

Lemma binade_mono (p q : Q) : 0 < p → p <= q → (binade p ≤ binade q)%Z.
Proof.
  intros Hp Hpq. assert (0 < q) as Hq by (by eapply Qlt_le_trans).
  destruct (binade_spec p Hp) as [H1 _]. destruct (binade_spec q Hq) as [_ H2].
  assert (binade p < binade q + 1)%Z; [|lia].
  apply pow2_lt_inv. eapply Qle_lt_trans; [exact H1|]. by eapply Qle_lt_trans.
Qed.

Lemma binade_comp (p q : Q) : 0 < p → p == q → binade p = binade q.
Proof.
  intros Hp Hpq. destruct (binade_spec p Hp) as [H1 H2].
  symmetry. apply binade_unique; by rewrite <-Hpq.
Qed.

Lemma binade_below (q : Q) (e : Z) : 2 ^ e <= q → (e ≤ binade q)%Z.
Proof.
  intros He. assert (0 < q) as Hq by (eapply Qlt_le_trans; [apply (pow2_pos e)|done]).
  destruct (binade_spec q Hq) as [_ H2].
  assert (e < binade q + 1)%Z; [|lia]. apply pow2_lt_inv. by eapply Qle_lt_trans.
Qed.

Lemma binade_above (q : Q) (e : Z) : 0 < q → q < 2 ^ e → (binade q < e)%Z.
Proof.
  intros Hq He. destruct (binade_spec q Hq) as [H1 _].
  apply pow2_lt_inv. by eapply Qle_lt_trans.
Qed.

(** *** Rounding to the nearest integer, ties to even *)

Lemma nearestEven_comp (s t : Q) : s == t → nearestEven s = nearestEven t.
Proof.
  intros Hst. unfold nearestEven. rewrite (Qfloor_comp s t Hst).
  assert (Qcompare (s - inject_Z (Qfloor t)) (1 # 2) =
          Qcompare (t - inject_Z (Qfloor t)) (1 # 2)) as ->; [|done].
  apply Qcompare_comp; [by rewrite Hst|reflexivity].
Qed.

Lemma nearestEven_near (t : Q) :
  inject_Z (nearestEven t) - (1 # 2) <= t ∧ t <= inject_Z (nearestEven t) + (1 # 2).
Proof.
  unfold nearestEven. pose proof (Qfloor_le t) as Hf. pose proof (Qlt_floor t) as Hc.
  rewrite inject_Z_plus in Hc. change (inject_Z 1) with 1 in Hc.
  destruct (Qcompare_spec (t - inject_Z (Qfloor t)) (1 # 2)) as [He|Hl|Hg].
  - destruct (Z.even (Qfloor t)); rewrite ?inject_Z_plus; change (inject_Z 1) with 1; lra.
  - lra.
  - rewrite inject_Z_plus. change (inject_Z 1) with 1. lra.
Qed.

Lemma nearestEven_floor (t : Q) :
  (Qfloor t ≤ nearestEven t ≤ Qfloor t + 1)%Z.
Proof.
  unfold nearestEven. destruct (Qcompare _ _); [destruct (Z.even _)|..]; lia.
Qed.

Lemma nearestEven_Z (z : Z) : nearestEven (inject_Z z) = z.
Proof.
  unfold nearestEven. rewrite Qfloor_Z.
  destruct (Qcompare_spec (inject_Z z - inject_Z z) (1 # 2)) as [He|Hl|Hg]; [lra|done|lra].
Qed.

Lemma nearestEven_mono (s t : Q) : s <= t → (nearestEven s ≤ nearestEven t)%Z.
Proof.
  intros Hst. pose proof (Qfloor_resp_le s t Hst) as Hf.
  pose proof (nearestEven_floor s). pose proof (nearestEven_floor t).
  destruct (decide (Qfloor s = Qfloor t)) as [Heq|]; [|lia].
  unfold nearestEven. rewrite Heq.
  destruct (Qcompare_spec (s - inject_Z (Qfloor t)) (1 # 2)) as [He|Hl|Hg];
    destruct (Qcompare_spec (t - inject_Z (Qfloor t)) (1 # 2)) as [He'|Hl'|Hg'];
    try destruct (Z.even _); try lia; lra.
Qed.

(** *** Rounding to a double *)

Lemma quantum_pos (q : Q) : 0 < quantum q.
Proof. apply pow2_pos. Qed.

Lemma quantum_eq (q : Q) : 0 < q → quantum q = 2 ^ (Z.max (binade q) (-1022) - 52).
Proof.
  intros Hq. unfold quantum. rewrite (binade_comp (Qabs q) q); [done| |].
  - rewrite Qabs_pos; [done|by apply Qlt_le_weak].
  - apply Qabs_pos. by apply Qlt_le_weak.
Qed.

Lemma rounded_zero (q : Q) : q == 0 → rounded q == 0.
Proof.
  intros Hq. unfold rounded. set (u := quantum q).
  rewrite (nearestEven_comp (q / u) (inject_Z 0)).
  - rewrite nearestEven_Z. ring.
  - rewrite Hq. unfold Qdiv. ring.
Qed.

Lemma rounded_comp (p q : Q) : p == q → rounded p == rounded q.
Proof.
  intros Hpq. destruct (Qeq_dec p 0) as [Hp|Hp].
  { rewrite (rounded_zero p Hp), (rounded_zero q); [done|by rewrite <-Hpq]. }
  assert (quantum p = quantum q) as Hu.
  { unfold quantum. rewrite (binade_comp (Qabs p) (Qabs q)); [done| |by rewrite Hpq].
    destruct (Qlt_le_dec 0 (Qabs p)) as [|Hz]; [done|].
    apply Qabs_Qle_condition in Hz. exfalso. apply Hp. lra. }
  unfold rounded. rewrite Hu.
  rewrite (nearestEven_comp (p / quantum q) (q / quantum q)); [done|by rewrite Hpq].
Qed.

Lemma rounded_nonneg (q : Q) : 0 <= q → 0 <= rounded q.
Proof.
  intros Hq. unfold rounded. pose proof (quantum_pos q) as Hu.
  assert (0 ≤ nearestEven (q / quantum q))%Z as Hn.
  { rewrite <-(nearestEven_Z 0). apply nearestEven_mono.
    apply Qle_shift_div_l; [done|]. change (inject_Z 0) with 0. lra. }
  apply Qmult_le_0_compat; [|by apply Qlt_le_weak].
  change 0 with (inject_Z 0). by rewrite <-Zle_Qle.
Qed.

(** Rounding keeps the order. *)
Lemma rounded_mono (p q : Q) : 0 < p → p <= q → rounded p <= rounded q.
Proof.
  intros Hp Hpq. assert (0 < q) as Hq by (by eapply Qlt_le_trans).
  unfold rounded. rewrite (quantum_eq p Hp), (quantum_eq q Hq).
  pose proof (binade_mono p q Hp Hpq) as Hb.
  set (e := Z.max (binade p) (-1022)). set (f := Z.max (binade q) (-1022)).
  assert (e ≤ f)%Z as Hef by lia.
  destruct (decide (e = f)) as [<-|Hne].
  { apply Qmult_le_compat_r; [|apply Qlt_le_weak, pow2_pos].
    rewrite <-Zle_Qle. apply nearestEven_mono.
    apply Qle_shift_div_l; [apply pow2_pos|].
    unfold Qdiv. rewrite <-Qmult_assoc, (Qmult_comm (/ _)), Qmult_inv_r, Qmult_1_r; [done|].
    pose proof (pow2_pos (e - 52)). lra. }
  assert (f = binade q) as Hf by lia.
  apply Qle_trans with (2 ^ f).
  - (* the lower binade ends at or below [2 ^ f] *)
    destruct (binade_spec p Hp) as [_ Hup].
    assert (p < 2 ^ (e + 1)) as Hup'
      by (eapply Qlt_le_trans; [exact Hup|apply pow2_le; lia]).
    assert (nearestEven (p / 2 ^ (e - 52)) ≤ 2 ^ 53)%Z as Hn.
    { rewrite <-(nearestEven_Z (2 ^ 53)). apply nearestEven_mono.
      apply Qle_shift_div_r; [apply pow2_pos|].
      change (inject_Z (2 ^ 53)) with (2 ^ 53). rewrite <-pow2_add.
      replace (53 + (e - 52))%Z with (e + 1)%Z by lia. by apply Qlt_le_weak. }
    apply Qle_trans with (2 ^ 53 * 2 ^ (e - 52)).
    + apply Qmult_le_compat_r; [|apply Qlt_le_weak, pow2_pos].
      change (2 ^ 53) with (inject_Z (2 ^ 53)). by rewrite <-Zle_Qle.
    + rewrite <-pow2_add. apply pow2_le. lia.
  - (* the upper binade starts at [2 ^ f] *)
    destruct (binade_spec q Hq) as [Hlow _]. rewrite <-Hf in Hlow.
    assert (2 ^ 52 ≤ nearestEven (q / 2 ^ (f - 52)))%Z as Hn.
    { rewrite <-(nearestEven_Z (2 ^ 52)). apply nearestEven_mono.
      apply Qle_shift_div_l; [apply pow2_pos|].
      change (inject_Z (2 ^ 52)) with (2 ^ 52). rewrite <-pow2_add.
      by replace (52 + (f - 52))%Z with f by lia. }
    apply Qle_trans with (2 ^ 52 * 2 ^ (f - 52)).
    + rewrite <-pow2_add. apply pow2_le. lia.
    + apply Qmult_le_compat_r; [|apply Qlt_le_weak, pow2_pos].
      change (2 ^ 52) with (inject_Z (2 ^ 52)). by rewrite <-Zle_Qle.
Qed.

(** In the normal range the error is at most half a unit in the last
    place, a relative error of [2 ^ -53]. *)
Lemma rounded_upper (q : Q) : 2 ^ (-1022) <= q → rounded q <= q * (1 + 2 ^ (-53)).
Proof.
  intros Hnormal.
  assert (0 < q) as Hq by (eapply Qlt_le_trans; [apply (pow2_pos (-1022))|done]).
  unfold rounded. rewrite (quantum_eq q Hq).
  pose proof (binade_below q (-1022) Hnormal) as Hb.
  replace (Z.max (binade q) (-1022)) with (binade q) by lia.
  destruct (binade_spec q Hq) as [Hlow _].
  set (u := 2 ^ (binade q - 52)). assert (0 < u) as Hu by apply pow2_pos.
  destruct (nearestEven_near (q / u)) as [Hn _].
  assert (inject_Z (nearestEven (q / u)) * u <= q + (1 # 2) * u) as Hr.
  { assert (q / u * u == q) as Hqu by (unfold Qdiv; field; lra).
    assert ((inject_Z (nearestEven (q / u)) - (1 # 2)) * u <= q / u * u)
      by (apply Qmult_le_compat_r; [done|lra]).
    lra. }
  assert ((1 # 2) * u == 2 ^ binade q * 2 ^ (-53)) as Hhalf.
  { unfold u. rewrite <-pow2_add. replace (binade q + -53)%Z with (-1 + (binade q - 52))%Z by lia.
    rewrite pow2_add. reflexivity. }
  assert (2 ^ binade q * 2 ^ (-53) <= q * 2 ^ (-53))
    by (apply Qmult_le_compat_r; [done|apply Qlt_le_weak, pow2_pos]).
  lra.
Qed.

(** A non-negative integer below [2 ^ 53] is a double. *)
Lemma rounded_Z (z : Z) : (0 ≤ z < 2 ^ 53)%Z → rounded (inject_Z z) == inject_Z z.
Proof.
  intros [Hz0 Hz]. destruct (decide (z = 0%Z)) as [->|Hne]; [by apply rounded_zero|].
  assert (0 < inject_Z z) as Hq by (change 0 with (inject_Z 0); rewrite <-Zlt_Qlt; lia).
  unfold rounded. rewrite (quantum_eq _ Hq).
  assert (0 ≤ binade (inject_Z z))%Z as Hb0.
  { apply binade_below. change (2 ^ 0) with (inject_Z 1). rewrite <-Zle_Qle. lia. }
  assert (binade (inject_Z z) < 53)%Z as Hb1.
  { apply binade_above; [done|]. change (2 ^ 53) with (inject_Z (2 ^ 53)).
    by rewrite <-Zlt_Qlt. }
  replace (Z.max (binade (inject_Z z)) (-1022)) with (binade (inject_Z z)) by lia.
  set (j := (52 - binade (inject_Z z))%Z).
  replace (binade (inject_Z z) - 52)%Z with (- j)%Z by lia.
  assert (2 ^ (- j) * 2 ^ j == 1) as Hinv.
  { rewrite <-pow2_add. by replace (- j + j)%Z with 0%Z by lia. }
  pose proof (pow2_pos j) as Hj. pose proof (pow2_pos (- j)) as Hj'.
  rewrite (nearestEven_comp _ (inject_Z (z * 2 ^ j))).
  - rewrite nearestEven_Z, inject_Z_mult, <-pow2_Z by lia.
    rewrite <-Qmult_assoc, (Qmult_comm (2 ^ j)), Hinv. ring.
  - rewrite inject_Z_mult, <-pow2_Z by lia. field_simplify_eq; [|lra].
    rewrite <-Qmult_assoc, Hinv. ring.
Qed.

(** The least positive double is [2 ^ -1074]. *)
Lemma rounded_least (q : Q) : 0 < rounded q → 2 ^ (-1074) <= rounded q.
Proof.
  unfold rounded. intros Hpos. pose proof (quantum_pos q) as Hu.
  assert (0 < nearestEven (q / quantum q))%Z as Hn.
  { destruct (Z_lt_le_dec 0 (nearestEven (q / quantum q))) as [|Hle]; [done|].
    exfalso. rewrite Zle_Qle in Hle. change (inject_Z 0) with 0 in Hle.
    assert (inject_Z (nearestEven (q / quantum q)) * quantum q <= 0 * quantum q)
      by (apply Qmult_le_compat_r; [done|lra]).
    lra. }
  assert (2 ^ (-1074) <= quantum q) as Hmin by (apply pow2_le; lia).
  assert (1 <= inject_Z (nearestEven (q / quantum q)))
    by (change 1 with (inject_Z 1); rewrite <-Zle_Qle; lia).
  assert (1 * quantum q <= inject_Z (nearestEven (q / quantum q)) * quantum q)
    by (apply Qmult_le_compat_r; [done|lra]).
  lra.
Qed.

(** *** The operations on exact arguments *)

Ltac injected :=
  unfold Z.sub;
  repeat first [rewrite inject_Z_plus | rewrite inject_Z_mult | rewrite inject_Z_opp];
  change (inject_Z 1) with 1; change (inject_Z 0) with 0.

Lemma Qred_inject_Z (z : Z) : Qred (inject_Z z) = inject_Z z.
Proof.
  unfold Qred, inject_Z.
  pose proof (Z.ggcd_gcd z 1) as Hg. pose proof (Z.ggcd_correct_divisors z 1) as Hd.
  destruct (Z.ggcd z 1) as [g [n d]]. simpl in *.
  rewrite Z.gcd_1_r in Hg. subst g. destruct Hd as [-> Hd].
  f_equal; [lia|]. assert (d = 1%Z) as -> by lia. done.
Qed.

Lemma round_comp (p q : Q) : p == q → round p = round q.
Proof.
  intros Hpq. unfold round, negative.
  pose proof (rounded_comp p q Hpq) as Hr.
  rewrite (Qred_complete _ _ Hr).
  assert (Qle_bool (2 ^ 1024) (Qabs (rounded p)) = Qle_bool (2 ^ 1024) (Qabs (rounded q))) as ->
    by (by rewrite Hr).
  by assert (Qle_bool 0 p = Qle_bool 0 q) as -> by (by rewrite Hpq).
Qed.

(** A non-negative real rounds to [Infinity] or to a non-negative double. *)
Lemma round_cases (q : Q) :
  0 <= q →
  (round q = Inf false ∧ 2 ^ 1024 <= rounded q) ∨
  (round q = Fin (Qred (rounded q)) ∧ rounded q < 2 ^ 1024).
Proof.
  intros Hq. unfold round, negative.
  pose proof (rounded_nonneg q Hq) as Hr.
  assert (Qle_bool 0 q = true) as -> by (by apply Qle_bool_iff).
  destruct (Qle_bool (2 ^ 1024) (Qabs (rounded q))) eqn:Hle.
  - left. split; [done|]. apply Qle_bool_iff in Hle. by rewrite Qabs_pos in Hle.
  - right. split; [done|]. apply Qnot_le_lt. intros Hc.
    assert (Qle_bool (2 ^ 1024) (Qabs (rounded q)) = true); [|congruence].
    apply Qle_bool_iff. by rewrite Qabs_pos.
Qed.

Lemma round_Z (z : Z) : (0 ≤ z < 2 ^ 53)%Z → round (inject_Z z) = Fin (inject_Z z).
Proof.
  intros Hz. pose proof (rounded_Z z Hz) as Hr.
  destruct (round_cases (inject_Z z)) as [[_ Hbig]|[-> _]].
  - change 0 with (inject_Z 0). rewrite <-Zle_Qle. lia.
  - exfalso. rewrite Hr in Hbig. change (2 ^ 1024) with (inject_Z (2 ^ 1024)) in Hbig.
    rewrite <-Zle_Qle in Hbig. assert (2 ^ 53 < 2 ^ 1024)%Z by (by apply Z.pow_lt_mono_r). lia.
  - by rewrite (Qred_complete _ _ Hr), Qred_inject_Z.
Qed.

Lemma round_zero (q : Q) : q == 0 → round q = Fin 0.
Proof. intros Hq. rewrite (round_comp q (inject_Z 0) Hq). by apply round_Z. Qed.

(** The difference of two integers that doubles hold, when a double
    holds it. *)
Lemma sub_Z (x y : Z) : (0 ≤ x - y < 2 ^ 53)%Z → sub (ofZ x) (ofZ y) = ofZ (x - y).
Proof.
  intros Hxy. unfold sub, ofZ. cbn [opp add].
  rewrite (round_comp _ (inject_Z (x - y))); [by apply round_Z|].
  unfold Z.sub. by rewrite inject_Z_plus, inject_Z_opp.
Qed.

Lemma add_Z (x y : Z) : (0 ≤ x + y < 2 ^ 53)%Z → add (ofZ x) (ofZ y) = ofZ (x + y).
Proof.
  intros Hxy. unfold ofZ. cbn [add].
  rewrite (round_comp _ (inject_Z (x + y))); [by apply round_Z|].
  by rewrite inject_Z_plus.
Qed.

Lemma mul_Z (x y : Z) : (0 ≤ x * y < 2 ^ 53)%Z → mul (ofZ x) (ofZ y) = ofZ (x * y).
Proof.
  intros Hxy. unfold ofZ. cbn [mul].
  rewrite (round_comp _ (inject_Z (x * y))); [by apply round_Z|].
  by rewrite inject_Z_mult.
Qed.

(** The quotient of two such integers has the floor of the exact
    quotient: the rounding does not reach the next integer. *)
Lemma floor_div_Z (x y : Z) :
  (0 ≤ x < 2 ^ 53)%Z → (0 < y < 2 ^ 53)%Z → floor (div (ofZ x) (ofZ y)) = ofZ (x / y).
Proof.
  intros Hx [Hy Hy']. unfold ofZ. cbn [div].
  assert (0 < inject_Z y) as Qy by (change 0 with (inject_Z 0); by rewrite <-Zlt_Qlt).
  assert (Qeq_bool (inject_Z y) 0 = false) as ->.
  { apply not_true_is_false. intros Hc%Qeq_bool_eq. lra. }
  set (n := (x / y)%Z).
  assert (0 ≤ n)%Z as Hn0 by (apply Z.div_pos; lia).
  assert (n * y ≤ x < (n + 1) * y)%Z as [Hn1 Hn2].
  { pose proof (Z.mul_div_le x y Hy). pose proof (Z.mul_succ_div_gt x y Hy). unfold n. lia. }
  assert (n ≤ x)%Z as Hnx by nia.
  set (q := inject_Z x / inject_Z y).
  assert (inject_Z n <= q) as Hq1.
  { apply Qle_shift_div_l; [done|]. rewrite <-inject_Z_mult, <-Zle_Qle. lia. }
  assert (q <= inject_Z (n + 1) - 1 / inject_Z y) as Hq2.
  { apply Qle_shift_div_r; [done|].
    assert ((inject_Z (n + 1) - 1 / inject_Z y) * inject_Z y == inject_Z ((n + 1) * y - 1)) as ->.
    { injected. field. lra. }
    rewrite <-Zle_Qle. lia. }
  assert (0 <= q) as Hq0.
  { eapply Qle_trans; [|exact Hq1]. change 0 with (inject_Z 0). by rewrite <-Zle_Qle. }
  assert (inject_Z n <= rounded q) as Hr1.
  { destruct (decide (n = 0%Z)) as [Hz|Hnz]; [rewrite Hz; by apply rounded_nonneg|].
    rewrite <-(rounded_Z n) by lia. apply rounded_mono; [|done].
    change 0 with (inject_Z 0). rewrite <-Zlt_Qlt. lia. }
  assert (rounded q < inject_Z (n + 1)) as Hr2.
  { destruct (decide (x = 0%Z)) as [Hz|Hnz].
    { rewrite (rounded_zero q); [change 0 with (inject_Z 0); rewrite <-Zlt_Qlt; lia|].
      unfold q. rewrite Hz. unfold Qdiv. ring. }
    assert (1 / inject_Z y <= q) as Hlow.
    { unfold q. apply Qle_shift_div_l; [done|].
      assert (1 / inject_Z y * inject_Z y == 1) as -> by (field; lra).
      change 1 with (inject_Z 1). rewrite <-Zle_Qle. lia. }
    assert (inject_Z y < 2 ^ 53) as Hy53.
    { change (2 ^ 53) with (inject_Z (2 ^ 53)). by rewrite <-Zlt_Qlt. }
    assert (2 ^ (-53) < 1 / inject_Z y) as Hinv.
    { apply Qlt_shift_div_l; [done|].
      apply Qlt_le_trans with (2 ^ (-53) * 2 ^ 53).
      - apply Qmult_lt_l; [apply pow2_pos|done].
      - rewrite <-pow2_add. apply Qle_refl. }
    assert (2 ^ (-1022) <= 2 ^ (-53)) as Hsmall by (apply pow2_le; lia).
    eapply Qle_lt_trans; [apply rounded_upper; lra|].
    assert (q * 2 ^ (-53) < 1 / inject_Z y) as Herr.
    { assert (q * inject_Z y == inject_Z x) as Hqy by (unfold q; field; lra).
      apply Qlt_shift_div_l; [done|].
      assert (q * 2 ^ (-53) * inject_Z y == inject_Z x * 2 ^ (-53)) as ->
        by (rewrite <-Hqy; ring).
      apply Qlt_le_trans with (2 ^ 53 * 2 ^ (-53)).
      - apply Qmult_lt_compat_r; [apply pow2_pos|].
        change (2 ^ 53) with (inject_Z (2 ^ 53)). rewrite <-Zlt_Qlt. lia.
      - rewrite <-pow2_add. apply Qle_refl. }
    lra. }
  destruct (round_cases q Hq0) as [[_ Hbig]|[-> _]].
  { exfalso. assert (inject_Z (n + 1) <= 2 ^ 1024); [|lra].
    change (2 ^ 1024) with (inject_Z (2 ^ 1024)). rewrite <-Zle_Qle.
    assert (2 ^ 53 < 2 ^ 1024)%Z by (by apply Z.pow_lt_mono_r). lia. }
  cbn [floor]. do 2 f_equal. rewrite (Qfloor_comp _ _ (Qred_correct _)).
  pose proof (Qfloor_le (rounded q)) as Hf1. pose proof (Qlt_floor (rounded q)) as Hf2.
  assert (Qfloor (rounded q) < n + 1)%Z by (rewrite Zlt_Qlt; lra).
  assert (n < Qfloor (rounded q) + 1)%Z by (rewrite Zlt_Qlt; lra).
  lia.
Qed.

Lemma rounded_mono0 (p q : Q) : 0 <= p → p <= q → rounded p <= rounded q.
Proof.
  intros Hp Hpq. destruct (Qlt_le_dec 0 p) as [|Hz]; [by apply rounded_mono|].
  rewrite (rounded_zero p) by lra. apply rounded_nonneg. lra.
Qed.

(** A non-negative real rounds to [Infinity] or to a non-negative double
    that is its rounding. *)
Lemma round_nonneg (q : Q) :
  0 <= q →
  (round q = Inf false ∧ 2 ^ 1024 <= rounded q) ∨
  (∃ r, round q = Fin r ∧ r == rounded q ∧ 0 <= r ∧ r < 2 ^ 1024).
Proof.
  intros Hq. destruct (round_cases q Hq) as [?|[Hr Hlt]]; [by left|right].
  exists (Qred (rounded q)). pose proof (Qred_correct (rounded q)) as Hc.
  pose proof (rounded_nonneg q Hq). split; [done|]. split; [done|]. rewrite Hc. by split.
Qed.

End Number.

(** ** The heap engine: [class Heap] on its backing array *)

Module Heap.
Section Engine.
Context {T : Type} (compare : T → T → Z).
Implicit Types arr heap : list T.

(** [compare(arr[a], arr[b]) < 0].  A read out of range gives [undefined]
    in JavaScript; the engine guards every read by the size, so the
    [false] of that case is never reached. *)
Definition lessAt arr (a b : nat) : bool :=
  match arr !! a, arr !! b with
  | Some x, Some y => bool_decide (compare x y < 0)%Z
  | _, _ => false
  end.

(** [compare(arr[a], arr[b]) <= 0]. *)
Definition leqAt arr (a b : nat) : bool :=
  match arr !! a, arr !! b with
  | Some x, Some y => bool_decide (compare x y ≤ 0)%Z
  | _, _ => false
  end.

(** The body of the loop of [heapify(arr, i, size)] up to its [break]
    test: the index of the smallest among [i] and its children. *)
Definition smallestOf arr (i size : nat) : nat :=
  let smallest := i in
  let left := 2 * i + 1 in
  let right := 2 * i + 2 in
  let smallest :=
    if bool_decide (left < size) && lessAt arr left smallest then left else smallest in
  let smallest :=
    if bool_decide (right < size) && lessAt arr right smallest then right else smallest in
  smallest.

Lemma smallestOf_range arr i size :
  smallestOf arr i size = i ∨ i < smallestOf arr i size < size.
Proof.
  unfold smallestOf. repeat case_match; try (by left); right;
    repeat match goal with
      | H : _ && _ = true |- _ => apply andb_true_iff in H as [?%bool_decide_eq_true _]
      end; lia.
Qed.

(** [heapify(arr, i, size)]: sift [arr[i]] down inside the first [size]
    slots. *)
Equations? heapify arr (i size : nat) : list T by wf (size - i) lt :=
  heapify arr i size with decide (smallestOf arr i size = i) => {
    | left _ := arr;
    | right Hne :=
        heapify (Arr.swap arr i (smallestOf arr i size)) (smallestOf arr i size) size }.
Proof. destruct (smallestOf_range arr i size); lia. Qed.

(** The same selection in [bubbleDown(heap, index)], whose bound is
    [heap.length]. *)
Definition minIndexOf heap (index : nat) : nat :=
  let length := length heap in
  let minIndex := index in
  let leftChild := 2 * index + 1 in
  let rightChild := 2 * index + 2 in
  let minIndex :=
    if bool_decide (leftChild < length) && lessAt heap leftChild minIndex
    then leftChild else minIndex in
  let minIndex :=
    if bool_decide (rightChild < length) && lessAt heap rightChild minIndex
    then rightChild else minIndex in
  minIndex.

Lemma minIndexOf_smallestOf heap index :
  minIndexOf heap index = smallestOf heap index (length heap).
Proof. reflexivity. Qed.

(** [bubbleDown(heap, index)]. *)
Equations? bubbleDown heap (index : nat) : list T by wf (length heap - index) lt :=
  bubbleDown heap index with decide (minIndexOf heap index = index) => {
    | left _ := heap;
    | right Hne :=
        bubbleDown (Arr.swap heap index (minIndexOf heap index)) (minIndexOf heap index) }.
Proof.
  rewrite Arr.length_swap. rewrite minIndexOf_smallestOf in *.
  destruct (smallestOf_range heap index (length heap)); lia.
Qed.

(** [bubbleUp(heap, index)]; [parentIndex] is [floor((index - 1) / 2)]. *)
Equations? bubbleUp heap (index : nat) : list T by wf index lt :=
  bubbleUp heap index with decide (0 < index) => {
    | right _ := heap;
    | left Hpos with leqAt heap ((index - 1) / 2) index => {
        | true := heap;
        | false := bubbleUp (Arr.swap heap ((index - 1) / 2) index) ((index - 1) / 2) } }.
Proof. change ((index - 1) / 2 < index). apply Nat.Div0.div_lt_upper_bound; lia. Qed.

(** The loop of [from]: [for (i = floor(n / 2) - 1; i >= 0; i--)
    bubbleDown(elements, i)], counted by [k = i + 1]. *)
Fixpoint fromLoop (elements : list T) (k : nat) : list T :=
  match k with
  | 0 => elements
  | S i => fromLoop (bubbleDown elements i) i
  end.

(** The array [from] leaves in the new heap. *)
Definition fromArray (elements : list T) : list T :=
  fromLoop elements (length elements / 2).

(** The loop of the iterator: [for (i = size - 1; i > 0; i--)
    { swap(0, i); heapify(elements, 0, i) }]. *)
Fixpoint iterLoop (elements : list T) (i : nat) : list T :=
  match i with
  | 0 => elements
  | S i' => iterLoop (heapify (Arr.swap elements 0 i) 0 i) i'
  end.

(** What the iterator yields from a private copy of the backing array:
    the copy after the loop, reversed. *)
Definition iterArray (elements : list T) : list T :=
  reverse (iterLoop elements (length elements - 1)).

(** *** Unfolding equations *)

Lemma heapify_eq arr i size :
  heapify arr i size =
    if decide (smallestOf arr i size = i) then arr
    else heapify (Arr.swap arr i (smallestOf arr i size)) (smallestOf arr i size) size.
Proof. rewrite heapify_equation_1. by destruct (decide (smallestOf arr i size = i)). Qed.

Lemma bubbleDown_eq heap index :
  bubbleDown heap index =
    if decide (minIndexOf heap index = index) then heap
    else bubbleDown (Arr.swap heap index (minIndexOf heap index)) (minIndexOf heap index).
Proof. rewrite bubbleDown_equation_1. by destruct (decide (minIndexOf heap index = index)). Qed.

Lemma bubbleUp_eq heap index :
  bubbleUp heap index =
    if decide (0 < index) then
      if leqAt heap ((index - 1) / 2) index then heap
      else bubbleUp (Arr.swap heap ((index - 1) / 2) index) ((index - 1) / 2)
    else heap.
Proof.
  rewrite bubbleUp_equation_1. destruct (decide (0 < index)); [|done].
  unfold bubbleUp_unfold_clause_1.
  by destruct (leqAt heap ((index - 1) / 2) index).
Qed.

(** *** The heap ordering *)

(** [c] is the left or the right child of [i]. *)
Definition child (i c : nat) : Prop := c = 2 * i + 1 ∨ c = 2 * i + 2.

(** The invariant of the specification: every parent precedes (or ties
    with) each of its children that is in range. *)
Definition heapOrdered arr : Prop :=
  ∀ i c x y, child i c → arr !! i = Some x → arr !! c = Some y → (compare x y ≤ 0)%Z.

(** The executable check, as the test-suite writes it
    ([isHeapPropertyMaintained]). *)
Definition isHeapOrdered arr : bool :=
  forallb (λ i,
    (if bool_decide (2 * i + 1 < length arr) then leqAt arr i (2 * i + 1) else true) &&
    (if bool_decide (2 * i + 2 < length arr) then leqAt arr i (2 * i + 2) else true))
    (seq 0 (length arr)).

(** The ordering restricted to parents from [k] on and children below [n]. *)
Definition orderedIn (k n : nat) arr : Prop :=
  ∀ j c x y, k ≤ j → child j c → c < n →
    arr !! j = Some x → arr !! c = Some y → (compare x y ≤ 0)%Z.

(** The ordering with a hole at [i]: every pair is in order except
    possibly [i] and its children, whose grandparent precedes them. *)
Definition downInv (k n : nat) arr (i : nat) : Prop :=
  (∀ j c x y, k ≤ j → j ≠ i → child j c → c < n →
     arr !! j = Some x → arr !! c = Some y → (compare x y ≤ 0)%Z) ∧
  (∀ g c x y, k ≤ g → child g i → child i c → c < n →
     arr !! g = Some x → arr !! c = Some y → (compare x y ≤ 0)%Z).

Lemma heapOrdered_orderedIn arr : heapOrdered arr ↔ orderedIn 0 (length arr) arr.
Proof.
  split.
  - intros H j c x y _ Hc _ Hx Hy. eauto.
  - intros H i c x y Hc Hx Hy.
    eapply (H i c x y); [lia|done|by eapply lookup_lt_Some|done|done].
Qed.

Lemma isHeapOrdered_spec arr : isHeapOrdered arr = true ↔ heapOrdered arr.
Proof.
  unfold isHeapOrdered, heapOrdered, leqAt. rewrite forallb_forall. split.
  - intros H i c x y Hc Hx Hy.
    pose proof (lookup_lt_Some _ _ _ Hx) as Hlx.
    pose proof (lookup_lt_Some _ _ _ Hy) as Hly.
    specialize (H i). rewrite in_seq in H.
    apply andb_true_iff in H as [H1 H2]; [|lia].
    destruct Hc as [-> | ->].
    + rewrite bool_decide_eq_true_2, Hx, Hy in H1 by done.
      by apply bool_decide_eq_true in H1.
    + rewrite bool_decide_eq_true_2, Hx, Hy in H2 by done.
      by apply bool_decide_eq_true in H2.
  - intros H i [_ Hi]%in_seq. simpl in Hi.
    destruct (lookup_lt_is_Some_2 arr i Hi) as [x Hx]. rewrite Hx.
    apply andb_true_iff; split; case_bool_decide as Hc; try done.
    + destruct (lookup_lt_is_Some_2 arr _ Hc) as [y Hy]. rewrite Hy.
      apply bool_decide_eq_true. eapply H; eauto. by left.
    + destruct (lookup_lt_is_Some_2 arr _ Hc) as [y Hy]. rewrite Hy.
      apply bool_decide_eq_true. eapply H; eauto. by right.
Qed.

Lemma lookup_swap arr i j k :
  i < length arr → j < length arr →
  Arr.swap arr i j !! k =
    if decide (k = i) then arr !! j else if decide (k = j) then arr !! i else arr !! k.
Proof.
  intros. repeat case_decide; subst.
  - by apply Arr.lookup_swap_l.
  - by apply Arr.lookup_swap_r.
  - by apply Arr.lookup_swap_ne.
Qed.

Section Valid.
Hypothesis Hvalid : Cmp.valid compare.

(** The element selected by [smallestOf] precedes [arr[i]] and every
    child of [i] below [size]. *)
Lemma smallestOf_min arr i size x :
  size ≤ length arr →
  arr !! smallestOf arr i size = Some x →
  (∀ z, arr !! i = Some z → (compare x z ≤ 0)%Z) ∧
  (∀ c y, child i c → c < size → arr !! c = Some y → (compare x y ≤ 0)%Z).
Proof.
  intros Hn. unfold smallestOf, lessAt.
  pose proof (Cmp.refl compare x Hvalid) as Hxx.
  destruct (decide (2 * i + 1 < size)) as [HL|HL].
  2:{ rewrite !bool_decide_eq_false_2 by lia. cbn [andb]. intros Hx. split.
      - intros z ?. by same_lookup.
      - intros c y [-> | ->] ?; lia. }
  destruct (lookup_lt_is_Some_2 arr (2 * i + 1)) as [l Hl]; [lia|].
  destruct (lookup_lt_is_Some_2 arr i) as [a Ha]; [lia|].
  rewrite (bool_decide_eq_true_2 _ HL), Hl, Ha. cbn [andb].
  pose proof (Cmp.not_lt compare l a Hvalid) as Hla.
  destruct (decide (2 * i + 2 < size)) as [HR|HR].
  - destruct (lookup_lt_is_Some_2 arr (2 * i + 2)) as [r Hr]; [lia|].
    pose proof (Cmp.not_lt compare r a Hvalid) as Hra.
    pose proof (Cmp.not_lt compare r l Hvalid) as Hrl.
    pose proof (Cmp.trans compare Hvalid r l a) as Hrla.
    pose proof (Cmp.trans compare Hvalid r a l) as Hral.
    rewrite (bool_decide_eq_true_2 _ HR), Hr. cbn [andb].
    destruct (bool_decide (compare l a < 0)%Z) eqn:H1;
      [apply bool_decide_eq_true in H1|apply bool_decide_eq_false in H1];
      rewrite ?Hl, ?Ha;
      (destruct (bool_decide (compare r _ < 0)%Z) eqn:H2;
        [apply bool_decide_eq_true in H2|apply bool_decide_eq_false in H2]);
      intros Hx; same_lookup; (split; [intros z ?|intros c y [-> | ->] _ ?]);
      same_lookup; auto with lia.
  - rewrite (bool_decide_eq_false_2 _ HR). cbn [andb].
    destruct (bool_decide (compare l a < 0)%Z) eqn:H1;
      [apply bool_decide_eq_true in H1|apply bool_decide_eq_false in H1];
      intros Hx; same_lookup;
      (split; [intros z ?|intros c y [-> | ->] ? ?]); same_lookup; auto with lia.
Qed.

Lemma smallestOf_child arr i size :
  smallestOf arr i size ≠ i →
  child i (smallestOf arr i size) ∧ smallestOf arr i size < size.
Proof.
  unfold smallestOf, child. intros Hne.
  repeat case_match; try done;
    repeat match goal with
      | H : _ && _ = true |- _ => apply andb_true_iff in H as [?%bool_decide_eq_true _]
      end; lia.
Qed.

Lemma downInv_done k n arr i :
  n ≤ length arr → smallestOf arr i n = i → downInv k n arr i → orderedIn k n arr.
Proof.
  intros Hn Hs [H1 _] j c x y Hk Hc Hcn Hx Hy.
  destruct (decide (j = i)) as [->|Hne]; [|by eauto].
  rewrite <-Hs in Hx. by eapply (smallestOf_min arr i n x Hn Hx).
Qed.

Lemma downInv_step k n arr i :
  n ≤ length arr → smallestOf arr i n ≠ i → downInv k n arr i →
  downInv k n (Arr.swap arr i (smallestOf arr i n)) (smallestOf arr i n).
Proof.
  intros Hn Hne [H1 H2].
  destruct (smallestOf_child arr i n Hne) as [Hc Hs].
  destruct (lookup_lt_is_Some_2 arr (smallestOf arr i n)) as [m Hm]; [lia|].
  destruct (smallestOf_min arr i n m Hn Hm) as [Hmi Hmc].
  remember (smallestOf arr i n) as s eqn:Hseq. clear Hseq.
  assert (i < s) by (destruct Hc; lia).
  split.
  - intros j c x y Hk Hjs Hjc Hcn. rewrite !lookup_swap by lia.
    repeat case_decide; subst; intros Hx Hy; same_lookup;
      try (destruct Hjc, Hc; lia); eauto.
  - intros g c x y Hk Hgs Hsc Hcn. rewrite !lookup_swap by lia.
    assert (g = i) as -> by (destruct Hgs, Hc; lia).
    rewrite decide_True by done.
    repeat case_decide; subst; intros Hx Hy; same_lookup; try (destruct Hsc; lia).
    eapply (H1 s c); eauto; lia.
Qed.

(** [heapify] repairs a hole: afterwards the whole range is in order. *)
Lemma heapify_ordered k n arr i :
  n ≤ length arr → downInv k n arr i → orderedIn k n (heapify arr i n).
Proof.
  remember (n - i) as m eqn:Hm. revert arr i Hm.
  induction m as [m IH] using lt_wf_ind. intros arr i -> Hn Hinv.
  rewrite heapify_eq. case_decide as Hs.
  - by eapply downInv_done.
  - destruct (smallestOf_child arr i n Hs) as [Hc Hlt].
    eapply (IH (n - smallestOf arr i n)); [destruct Hc; lia|done| |].
    + by rewrite Arr.length_swap.
    + by apply downInv_step.
Qed.
End Valid.

(** *** [bubbleDown] is [heapify] on the whole array *)

Lemma bubbleDown_heapify heap index :
  bubbleDown heap index = heapify heap index (length heap).
Proof.
  remember (length heap - index) as m eqn:Hm. revert heap index Hm.
  induction m as [m IH] using lt_wf_ind. intros heap index ->.
  rewrite bubbleDown_eq, heapify_eq, minIndexOf_smallestOf.
  case_decide as Hs; [done|].
  destruct (smallestOf_range heap index (length heap)) as [?|?]; [done|].
  rewrite (IH (length heap - smallestOf heap index (length heap)));
    rewrite ?Arr.length_swap; auto with lia.
Qed.

(** *** Sifting permutes, and touches only the slots below [size] *)

Lemma heapify_perm arr i size : heapify arr i size ≡ₚ arr.
Proof.
  remember (size - i) as m eqn:Hm. revert arr i Hm.
  induction m as [m IH] using lt_wf_ind. intros arr i ->.
  rewrite heapify_eq. case_decide as Hs; [done|].
  destruct (smallestOf_range arr i size) as [?|?]; [done|].
  rewrite (IH (size - smallestOf arr i size)); auto with lia.
  apply Arr.swap_perm.
Qed.

Lemma length_heapify arr i size : length (heapify arr i size) = length arr.
Proof. apply Permutation_length, heapify_perm. Qed.

Lemma bubbleDown_perm heap index : bubbleDown heap index ≡ₚ heap.
Proof. rewrite bubbleDown_heapify. apply heapify_perm. Qed.

Lemma length_bubbleDown heap index : length (bubbleDown heap index) = length heap.
Proof. apply Permutation_length, bubbleDown_perm. Qed.

Lemma lessAt_app_l (p s : list T) a b :
  a < length p → b < length p → lessAt (p ++ s) a b = lessAt p a b.
Proof. intros. unfold lessAt. by rewrite !lookup_app_l by done. Qed.

Lemma smallestOf_app_l (p s : list T) i size :
  i < length p → size ≤ length p → smallestOf (p ++ s) i size = smallestOf p i size.
Proof.
  intros Hi Hn. unfold smallestOf.
  destruct (decide (2 * i + 1 < size)) as [HL|HL].
  - rewrite (bool_decide_eq_true_2 _ HL). cbn [andb].
    rewrite (lessAt_app_l p s (2 * i + 1) i) by lia.
    destruct (decide (2 * i + 2 < size)) as [HR|HR].
    + rewrite (bool_decide_eq_true_2 _ HR). cbn [andb].
      by destruct (lessAt p (2 * i + 1) i); rewrite lessAt_app_l by lia.
    + by rewrite (bool_decide_eq_false_2 _ HR).
  - rewrite !bool_decide_eq_false_2 by lia. done.
Qed.

(** Sifting inside the first [size] slots leaves a suffix alone. *)
Lemma heapify_app_l (p s : list T) i size :
  i < length p → size ≤ length p → heapify (p ++ s) i size = heapify p i size ++ s.
Proof.
  remember (size - i) as m eqn:Hm. revert p i Hm.
  induction m as [m IH] using lt_wf_ind. intros p i -> Hi Hn.
  rewrite (heapify_eq (p ++ s)), (heapify_eq p), smallestOf_app_l by done.
  case_decide as Hs; [done|].
  destruct (smallestOf_range p i size) as [?|?]; [done|].
  rewrite Arr.swap_app_l by lia.
  apply (IH (size - smallestOf p i size)); rewrite ?Arr.length_swap; lia.
Qed.

(** *** Sifting up *)

Lemma child_parent i : 0 < i → child ((i - 1) / 2) i.
Proof.
  intros Hi. unfold child.
  pose proof (Nat.div_mod_eq (i - 1) 2) as Hd.
  pose proof (Nat.mod_upper_bound (i - 1) 2) as Hm. lia.
Qed.

Lemma bubbleUp_perm heap index : bubbleUp heap index ≡ₚ heap.
Proof.
  revert heap. induction index as [index IH] using lt_wf_ind. intros heap.
  rewrite bubbleUp_eq. case_decide as Hi; [|done].
  destruct (leqAt _ _ _); [done|].
  rewrite IH; [apply Arr.swap_perm|].
  destruct (child_parent index Hi); lia.
Qed.

Lemma length_bubbleUp heap index : length (bubbleUp heap index) = length heap.
Proof. apply Permutation_length, bubbleUp_perm. Qed.

(** The ordering with a hole above [i]: every pair is in order except
    possibly [i] and its parent, and the parent of [i] precedes the
    children of [i]. *)
Definition upInv arr (i : nat) : Prop :=
  (∀ j c x y, child j c → c ≠ i →
     arr !! j = Some x → arr !! c = Some y → (compare x y ≤ 0)%Z) ∧
  (∀ g c x y, child g i → child i c →
     arr !! g = Some x → arr !! c = Some y → (compare x y ≤ 0)%Z).

Section ValidUp.
Hypothesis Hvalid : Cmp.valid compare.

Lemma upInv_step arr i :
  0 < i → i < length arr → leqAt arr ((i - 1) / 2) i = false →
  upInv arr i → upInv (Arr.swap arr ((i - 1) / 2) i) ((i - 1) / 2).
Proof.
  intros Hi Hlen Hleq [H1 H2].
  pose proof (child_parent i Hi) as Hp.
  remember ((i - 1) / 2) as p eqn:Hpeq. clear Hpeq.
  assert (p < i) by (destruct Hp; lia).
  destruct (lookup_lt_is_Some_2 arr p) as [a Ha]; [lia|].
  destruct (lookup_lt_is_Some_2 arr i) as [b Hb]; [lia|].
  unfold leqAt in Hleq. rewrite Ha, Hb in Hleq. apply bool_decide_eq_false in Hleq.
  pose proof (Cmp.not_le compare a b Hvalid Hleq) as Hba.
  split.
  - intros j c x y Hjc Hcp. rewrite !lookup_swap by lia.
    repeat case_decide; subst; intros Hx Hy; same_lookup;
      try (destruct Hjc, Hp; lia); eauto.
    eapply (Cmp.trans compare Hvalid _ a); [done|]. eapply (H1 p c); eauto.
  - intros g c x y Hgp Hpc. rewrite !lookup_swap by lia.
    repeat case_decide; subst; intros Hx Hy; same_lookup;
      try (destruct Hgp, Hpc, Hp; lia).
    + eapply (H1 g p); eauto with lia.
    + eapply (Cmp.trans compare Hvalid _ a); [eapply (H1 g p); eauto with lia|].
      eapply (H1 p c); eauto with lia.
Qed.

Lemma upInv_done arr i :
  0 < i → leqAt arr ((i - 1) / 2) i = true → upInv arr i → heapOrdered arr.
Proof.
  intros Hi Hleq [H1 _] j c x y Hjc Hx Hy.
  destruct (decide (c = i)) as [->|Hne]; [|by eauto].
  pose proof (child_parent i Hi) as Hp.
  assert (j = (i - 1) / 2) as -> by (destruct Hjc, Hp; lia).
  unfold leqAt in Hleq. rewrite Hx, Hy in Hleq. by apply bool_decide_eq_true in Hleq.
Qed.

Lemma upInv_root arr : upInv arr 0 → heapOrdered arr.
Proof. intros [H1 _] j c x y Hjc Hx Hy. eapply (H1 j c); eauto. destruct Hjc; lia. Qed.

(** [bubbleUp] repairs a hole above [index]. *)
Lemma bubbleUp_ordered heap index :
  index < length heap → upInv heap index → heapOrdered (bubbleUp heap index).
Proof.
  revert heap. induction index as [index IH] using lt_wf_ind. intros heap Hlen Hinv.
  rewrite bubbleUp_eq. case_decide as Hi.
  - destruct (leqAt _ _ _) eqn:Hleq; [by eapply upInv_done|].
    pose proof (child_parent index Hi) as Hp.
    apply IH; [destruct Hp; lia|rewrite Arr.length_swap; destruct Hp; lia|].
    by apply upInv_step.
  - assert (index = 0) as -> by lia. by apply upInv_root.
Qed.

(** Appending an element to an ordered array leaves a hole above it. *)
Lemma upInv_push heap x : heapOrdered heap → upInv (heap ++ [x]) (length heap).
Proof.
  intros Hord. split.
  - intros j c a b Hjc Hc Ha Hb.
    assert (c < length heap).
    { apply lookup_lt_Some in Hb. rewrite length_app in Hb. simpl in Hb. lia. }
    rewrite lookup_app_l in Ha by (destruct Hjc; lia).
    rewrite lookup_app_l in Hb by done. eauto.
  - intros g c a b _ Hc _ Hb.
    apply lookup_lt_Some in Hb. rewrite length_app in Hb. simpl in Hb.
    destruct Hc; lia.
Qed.
End ValidUp.

(** *** [remove] and the drain, on the backing array *)

(** What [remove] does to the private copy of the backing array (the
    receiver is not empty): [elements[0] = elements[length - 1]], [pop()],
    then [bubbleDown(elements, 0)] if something is left. *)
Definition removeArray (elements : list T) : list T :=
  let elements :=
    match elements !! (length elements - 1) with
    | Some e => <[0 := e]> elements
    | None => elements
    end in
  let elements := Arr.pop elements in
  if bool_decide (0 < length elements) then bubbleDown elements 0 else elements.

Lemma length_removeArray elements : length (removeArray elements) = length elements - 1.
Proof.
  unfold removeArray. case_bool_decide; rewrite ?length_bubbleDown, Arr.length_pop;
    destruct (elements !! _); by rewrite ?length_insert.
Qed.

(** Removing until the heap is empty, collecting the removed roots. *)
Equations? drainArray (elements : list T) : list T by wf (length elements) lt :=
  drainArray [] := [];
  drainArray (x :: rest) := x :: drainArray (removeArray (x :: rest)).
Proof. rewrite length_removeArray. simpl. lia. Qed.

Lemma removeArray_singleton (x : T) : removeArray [x] = [].
Proof. reflexivity. Qed.

(** On [x :: mid ++ [y]] the swap of the iterator and the overwrite and
    [pop] of [remove] leave the same prefix [y :: mid]. *)
Lemma removeArray_cons_snoc (x : T) mid y :
  removeArray (x :: mid ++ [y]) = heapify (y :: mid) 0 (S (length mid)).
Proof.
  assert (length (x :: mid ++ [y]) - 1 = S (length mid)) as Hlen
    by (simpl; rewrite length_app; simpl; lia).
  assert ((x :: mid ++ [y]) !! S (length mid) = Some y) as Hlast.
  { simpl. rewrite lookup_app_r by lia. by rewrite Nat.sub_diag. }
  assert (Arr.pop (y :: mid ++ [y]) = y :: mid) as Hpop.
  { unfold Arr.pop. change (y :: mid ++ [y]) with ((y :: mid) ++ [y]).
    rewrite length_app. simpl length.
    replace (S (length mid) + 1 - 1) with (length (y :: mid)) by (simpl; lia).
    apply take_app_length. }
  unfold removeArray. cbv zeta. rewrite Hlen, Hlast.
  change (<[0:=y]> (x :: mid ++ [y])) with (y :: mid ++ [y]).
  rewrite Hpop, bool_decide_eq_true_2 by (simpl; lia).
  by rewrite bubbleDown_heapify.
Qed.

Lemma swap_cons_snoc (x : T) mid y :
  Arr.swap (x :: mid ++ [y]) 0 (S (length mid)) = y :: mid ++ [x].
Proof.
  unfold Arr.swap. simpl. rewrite lookup_app_r by lia. rewrite Nat.sub_diag. simpl.
  f_equal. rewrite insert_app_r_alt by lia. by rewrite Nat.sub_diag.
Qed.

Lemma list_cons_snoc (l : list T) :
  2 ≤ length l → ∃ x mid y, l = x :: mid ++ [y].
Proof.
  destruct l as [|x l]; simpl; [lia|]. intros Hl.
  destruct l as [|z l _] using rev_ind; simpl in *; [lia|]. eauto.
Qed.

(** The loop of the iterator works inside its prefix. *)
Lemma iterLoop_app (p s : list T) i :
  i < length p → iterLoop (p ++ s) i = iterLoop p i ++ s.
Proof.
  revert p. induction i as [|i IH]; intros p Hi; [done|]. simpl.
  rewrite Arr.swap_app_l by lia.
  rewrite heapify_app_l by (rewrite Arr.length_swap; lia).
  apply IH. rewrite length_heapify, Arr.length_swap. lia.
Qed.

(** One turn of the iterator's loop is one [remove]. *)
Lemma iterLoop_remove (x : T) rest :
  iterLoop (x :: rest) (length rest) =
    iterLoop (removeArray (x :: rest)) (length rest - 1) ++ [x].
Proof.
  destruct rest as [|y mid _] using rev_ind; [done|].
  rewrite removeArray_cons_snoc, length_app. simpl length.
  replace (length mid + 1) with (S (length mid)) by lia.
  cbn [iterLoop]. rewrite swap_cons_snoc.
  change (y :: mid ++ [x]) with ((y :: mid) ++ [x]).
  rewrite heapify_app_l by (simpl; lia).
  rewrite iterLoop_app by (rewrite length_heapify; simpl; lia).
  by replace (S (length mid) - 1) with (length mid) by lia.
Qed.

(** The iterator yields exactly what repeated removal yields. *)
Lemma iterArray_drainArray elements : iterArray elements = drainArray elements.
Proof.
  unfold iterArray.
  remember (length elements) as n eqn:Hn. revert elements Hn.
  induction n as [|n IH]; intros [|x rest] Hn; simplify_eq/=; simp drainArray; [done|].
  rewrite Nat.sub_0_r, iterLoop_remove, reverse_app. simpl. f_equal.
  by rewrite <-IH by (rewrite length_removeArray; simpl; lia).
Qed.

Lemma removeArray_perm (x : T) rest : x :: removeArray (x :: rest) ≡ₚ x :: rest.
Proof.
  destruct rest as [|y mid _] using rev_ind; [done|].
  rewrite removeArray_cons_snoc, heapify_perm.
  f_equiv. by rewrite Permutation_app_comm.
Qed.

Lemma drainArray_perm elements : drainArray elements ≡ₚ elements.
Proof.
  remember (length elements) as n eqn:Hn. revert elements Hn.
  induction n as [|n IH]; intros [|x rest] Hn; simplify_eq/=; simp drainArray; [done|].
  rewrite IH by (rewrite length_removeArray; simpl; lia).
  apply removeArray_perm.
Qed.

Lemma fromLoop_perm elements k : fromLoop elements k ≡ₚ elements.
Proof.
  revert elements. induction k as [|k IH]; intros elements; [done|]. simpl.
  by rewrite IH, bubbleDown_perm.
Qed.

Lemma fromArray_perm elements : fromArray elements ≡ₚ elements.
Proof. apply fromLoop_perm. Qed.

(** *** What the ordering gives *)

Section ValidHeap.
Hypothesis Hvalid : Cmp.valid compare.

(** The root of an ordered array precedes every element. *)
Lemma root_minimal arr p r x :
  heapOrdered arr → arr !! 0 = Some r → arr !! p = Some x → (compare r x ≤ 0)%Z.
Proof.
  intros Hord Hr. revert x. induction p as [p IH] using lt_wf_ind. intros x Hx.
  destruct (decide (p = 0)) as [->|Hp].
  { same_lookup. by apply Cmp.refl. }
  pose proof (child_parent p ltac:(lia)) as Hc.
  destruct (lookup_lt_is_Some_2 arr ((p - 1) / 2)) as [q Hq].
  { apply lookup_lt_Some in Hx. destruct Hc; lia. }
  eapply (Cmp.trans compare Hvalid _ q).
  - eapply (IH ((p - 1) / 2)); [destruct Hc; lia|done].
  - eapply Hord; eauto.
Qed.

Lemma root_minimal_all r rest :
  heapOrdered (r :: rest) → Forall (λ x, (compare r x ≤ 0)%Z) (r :: rest).
Proof.
  intros Hord. apply Forall_lookup. intros p x Hx. by eapply root_minimal.
Qed.

(** [from] builds an ordered array. *)
Lemma fromLoop_ordered n k elements :
  length elements = n → orderedIn k n elements → orderedIn 0 n (fromLoop elements k).
Proof.
  revert elements. induction k as [|k IH]; intros elements Hn Hord; [done|]. simpl.
  apply IH; [by rewrite length_bubbleDown|].
  rewrite bubbleDown_heapify, Hn. apply heapify_ordered; [done|lia|].
  split.
  - intros j c x y Hk Hjk. apply Hord. lia.
  - intros g c x y Hk Hgk. destruct Hgk; lia.
Qed.

Lemma fromArray_ordered elements : heapOrdered (fromArray elements).
Proof.
  apply heapOrdered_orderedIn. unfold fromArray.
  rewrite (Permutation_length (fromLoop_perm _ _)).
  apply fromLoop_ordered; [done|].
  intros j c x y Hk Hjc Hc.
  pose proof (Nat.div_mod_eq (length elements) 2) as Hd.
  pose proof (Nat.mod_upper_bound (length elements) 2) as Hm.
  destruct Hjc; lia.
Qed.

(** [add] keeps the array ordered. *)
Lemma push_bubbleUp_ordered heap x :
  heapOrdered heap → heapOrdered (bubbleUp (heap ++ [x]) (length heap)).
Proof.
  intros Hord. apply bubbleUp_ordered; [done| |by apply upInv_push].
  rewrite length_app. simpl. lia.
Qed.

(** [remove] keeps the array ordered. *)
Lemma removeArray_ordered elements : heapOrdered elements → heapOrdered (removeArray elements).
Proof.
  intros Hord.
  destruct (decide (length elements < 2)) as [Hlen|Hlen].
  { assert (removeArray elements = []) as ->.
    { apply length_zero_iff_nil. rewrite length_removeArray. lia. }
    by intros i c x y _ ?. }
  destruct (list_cons_snoc elements) as (x & mid & y & ->); [lia|].
  rewrite removeArray_cons_snoc.
  apply heapOrdered_orderedIn. rewrite length_heapify. simpl length.
  apply heapify_ordered; [done|simpl; lia|].
  split.
  - intros j c a b _ Hj Hjc Hc Ha Hb.
    destruct j as [|j]; [done|]. destruct c as [|c]; [destruct Hjc; lia|].
    simpl in *. eapply (Hord (S j) (S c)); [done| |]; simpl.
    + by apply lookup_app_l_Some.
    + by apply lookup_app_l_Some.
  - intros g c a b _ Hg. destruct Hg; lia.
Qed.

(** Draining an ordered array yields its elements in comparator order. *)
Lemma drainArray_sorted elements :
  heapOrdered elements → StronglySorted (λ a b, (compare a b ≤ 0)%Z) (drainArray elements).
Proof.
  remember (length elements) as n eqn:Hn. revert elements Hn.
  induction n as [|n IH]; intros [|x rest] Hn Hord; simplify_eq/=; simp drainArray;
    [constructor|].
  constructor.
  - apply IH; [rewrite length_removeArray; simpl; lia|by apply removeArray_ordered].
  - pose proof (root_minimal_all x rest Hord) as Hall.
    rewrite <-(removeArray_perm x rest) in Hall.
    apply Forall_cons in Hall as [_ Hall].
    by rewrite drainArray_perm.
Qed.
End ValidHeap.
End Engine.

(** ** Heap objects *)

Section Objects.
Context {T : Type}.
(** [toNumber] is the coercion JavaScript applies to the operands of
    [a - b]; it is the identity on numbers. *)
Context (toNumber : T → Z).

Local Abbreviation store := (gmap loc (list T)).

(** The tag of [BinaryHeap]: ["min" | "max"]. *)
Inductive heapType := min_type | max_type.

(** The concrete classes, with the fields their constructors set. *)
Inductive heapClass :=
  | MinHeap
  | MaxHeap
  | CustomHeap (compareFn : T → T → Z)
  | BinaryHeap (type : heapType).

(** A heap object: its class and the reference in [this.elements]. *)
Record heap := { cls : heapClass; elements : loc }.

(** [this.compare(a, b)], dispatched on the class. *)
Definition compare (c : heapClass) (a b : T) : Z :=
  match c with
  | MinHeap => toNumber a - toNumber b
  | MaxHeap => toNumber b - toNumber a
  | CustomHeap compareFn => compareFn a b
  | BinaryHeap type =>
      let diff := toNumber a - toNumber b in
      match type with min_type => diff | max_type => - diff end
  end%Z.

(** [new C(...)]: the constructor of [Heap] sets [this.elements = []]. *)
Definition new (c : heapClass) : M T heap :=
  l ← alloc []; mret {| cls := c; elements := l |}.

(** [clone()]: a new heap of the same class, then
    [newHeap.elements.push(...this.elements)]. *)
Definition clone (h : heap) : M T heap :=
  newHeap ← new (cls h);
  src ← getArr (elements h);
  dst ← getArr (elements newHeap);
  _ ← setArr (elements newHeap) (dst ++ src);
  mret newHeap.

(** [C.from(elements)]; the argument is an array, as its type says. *)
Definition from (c : heapClass) (elts : list T) : M T heap :=
  heap0 ← new c;
  l ← alloc elts;
  let heap := {| cls := cls heap0; elements := l |} in
  arr ← getArr (elements heap);
  _ ← setArr (elements heap) (fromLoop (compare (cls heap)) arr (length arr / 2));
  mret heap.

Definition size (h : heap) : M T nat := arr ← getArr (elements h); mret (length arr).

Definition isEmpty (h : heap) : M T bool :=
  arr ← getArr (elements h); mret (bool_decide (length arr = 0)).

Definition peek (h : heap) : M T (option T) := arr ← getArr (elements h); mret (arr !! 0).

(** [add(element)]; [None] stands for [null] and [undefined]. *)
Definition add (h : heap) (element : option T) : M T heap :=
  match element with
  | None => throw (TypeError "Element cannot be null or undefined")
  | Some x =>
      newHeap ← clone h;
      arr ← getArr (elements newHeap);
      _ ← setArr (elements newHeap) (arr ++ [x]);
      arr ← getArr (elements newHeap);
      _ ← setArr (elements newHeap) (bubbleUp (compare (cls h)) arr (length arr - 1));
      mret newHeap
  end.

(** [remove()], returning [{ element, heap }]. *)
Definition remove (h : heap) : M T (option T * heap) :=
  empty ← isEmpty h;
  if (empty : bool) then
    c ← clone h; mret (None, c)
  else
    newHeap ← clone h;
    arr ← getArr (elements newHeap);
    let element := arr !! 0 in
    _ ← setArr (elements newHeap)
          (match arr !! (length arr - 1) with Some e => <[0 := e]> arr | None => arr end);
    arr ← getArr (elements newHeap);
    _ ← setArr (elements newHeap) (Arr.pop arr);
    arr ← getArr (elements newHeap);
    _ ← (if bool_decide (0 < length arr)
         then setArr (elements newHeap) (bubbleDown (compare (cls h)) arr 0)
         else mret ());
    mret (element, newHeap).

(** [clear()]. *)
Definition clear (h : heap) : M T heap := clone h.

(** [[...h]]: the values the iterator yields, in order. *)
Definition iterate (h : heap) : M T (list T) :=
  src ← getArr (elements h);
  l ← alloc src;
  let size := length src in
  arr ← getArr l;
  _ ← setArr l (iterLoop (compare (cls h)) arr (size - 1));
  arr ← getArr l;
  _ ← setArr l (reverse arr);
  getArr l.

(** Repeated [remove()] until the heap is empty, collecting the removed
    elements; [fuel] bounds the number of removals. *)
Fixpoint drain (fuel : nat) (h : heap) : M T (list T) :=
  match fuel with
  | 0 => mret []
  | S fuel =>
      empty ← isEmpty h;
      if (empty : bool) then mret []
      else
        r ← remove h;
        rest ← drain fuel r.2;
        mret (from_option (λ x, [x]) [] r.1 ++ rest)
  end.

(** *** What each method computes *)

(** The backing array of [h] in [σ]. *)
Definition contents (σ : store) (h : heap) : list T := default [] (σ !! elements h).

Lemma new_run c σ :
  new c σ = (inr {| cls := c; elements := fresh (dom σ) |}, <[fresh (dom σ) := []]> σ).
Proof. reflexivity. Qed.

Lemma clone_run h σ :
  clone h σ =
    (inr {| cls := cls h; elements := fresh (dom σ) |},
     <[fresh (dom σ) := contents σ h]> σ).
Proof.
  unfold clone, contents. unfold mbind, M_bind; rewrite new_run. run_M.
  rewrite read_after_alloc. case_decide as Hl; [|done].
  by rewrite Hl, fresh_None.
Qed.

Lemma size_run h σ : size h σ = (inr (length (contents σ h)), σ).
Proof. reflexivity. Qed.

Lemma isEmpty_run h σ : isEmpty h σ = (inr (bool_decide (length (contents σ h) = 0)), σ).
Proof. reflexivity. Qed.

Lemma peek_run h σ : peek h σ = (inr (contents σ h !! 0), σ).
Proof. reflexivity. Qed.

Lemma clear_run h σ :
  clear h σ =
    (inr {| cls := cls h; elements := fresh (dom σ) |},
     <[fresh (dom σ) := contents σ h]> σ).
Proof. apply clone_run. Qed.

Lemma add_run h x σ :
  add h (Some x) σ =
    (inr {| cls := cls h; elements := fresh (dom σ) |},
     <[fresh (dom σ) :=
         bubbleUp (compare (cls h)) (contents σ h ++ [x]) (length (contents σ h))]> σ).
Proof.
  unfold add. unfold mbind, M_bind; rewrite clone_run. run_M.
  rewrite length_app. simpl. by rewrite Nat.add_sub.
Qed.

Lemma add_null_run h σ :
  add h None σ = (inl (TypeError "Element cannot be null or undefined"), σ).
Proof. reflexivity. Qed.

Lemma removeArray_nil c : removeArray c ([] : list T) = [].
Proof. reflexivity. Qed.

Lemma remove_run h σ :
  remove h σ =
    (inr (contents σ h !! 0, {| cls := cls h; elements := fresh (dom σ) |}),
     <[fresh (dom σ) := removeArray (compare (cls h)) (contents σ h)]> σ).
Proof.
  unfold remove. unfold mbind, M_bind; rewrite isEmpty_run. case_bool_decide as Hlen.
  - rewrite clone_run. apply length_zero_iff_nil in Hlen. by rewrite Hlen.
  - rewrite clone_run. run_M. unfold removeArray. cbv zeta.
    case_bool_decide; run_M; done.
Qed.

Lemma from_run c elts σ :
  let l1 := fresh (dom σ) in
  let l2 := fresh (dom (<[l1 := []]> σ)) in
  from c elts σ =
    (inr {| cls := c; elements := l2 |},
     <[l2 := fromArray (compare c) elts]> (<[l1 := []]> σ)).
Proof. intros l1 l2. unfold from. unfold mbind, M_bind; rewrite new_run. by run_M. Qed.

Lemma iterate_run h σ :
  iterate h σ =
    (inr (iterArray (compare (cls h)) (contents σ h)),
     <[fresh (dom σ) := iterArray (compare (cls h)) (contents σ h)]> σ).
Proof. unfold iterate. by run_M. Qed.

Lemma contents_alloc (σ : store) c l arr :
  contents (<[l := arr]> σ) {| cls := c; elements := l |} = arr.
Proof. unfold contents. simpl. by rewrite lookup_insert_eq. Qed.

(** Writing a fresh array leaves the heaps of the store as they are. *)
Lemma contents_frame (σ : store) h arr arr' :
  σ !! elements h = Some arr → contents (<[fresh (dom σ) := arr']> σ) h = contents σ h.
Proof.
  intros Hl. unfold contents. by rewrite lookup_insert_ne by (by eapply fresh_ne).
Qed.

(** Fuel at least the size drains the heap completely. *)
Lemma drain_run fuel h σ :
  length (contents σ h) ≤ fuel →
  (drain fuel h σ).1 = inr (drainArray (compare (cls h)) (contents σ h)).
Proof.
  revert h σ. induction fuel as [|fuel IH]; intros h σ Hlen.
  - destruct (contents σ h); [done|simpl in Hlen; lia].
  - cbn [drain]. unfold mbind, M_bind; rewrite isEmpty_run. case_bool_decide as Hz.
    + apply length_zero_iff_nil in Hz. by rewrite Hz.
    + rewrite remove_run. cbn [fst snd].
      match goal with
      | |- context [drain fuel ?h' ?σ'] =>
          specialize (IH h' σ'); destruct (drain fuel h' σ') as [[e|rest] σ'']
      end; rewrite contents_alloc, length_removeArray in IH;
        cbn [fst cls] in IH; specialize (IH ltac:(lia)); [done|].
      cbn [fst]. injection IH as ->.
      destruct (contents σ h) as [|x rest'] eqn:Hc; [done|].
      simpl. by simp drainArray.
Qed.

(** *** The comparators of the classes *)

(** [MinHeap], [MaxHeap] and [BinaryHeap] bring their own comparator; the
    one of a [CustomHeap] is the caller's, and has to meet the comparator
    contract. *)
Definition classOk (c : heapClass) : Prop :=
  match c with
  | CustomHeap compareFn => Cmp.valid compareFn
  | _ => True
  end.

Lemma compare_valid c : classOk c → Cmp.valid (compare c).
Proof.
  destruct c as [| |compareFn|[|]]; simpl; intros Hc; try done;
    split; unfold compare; intros; lia.
Qed.

(** *** Every heap a client can build *)

(** A call a client can make: the constructors and the methods that return
    heaps.  Receivers are named by their rank among the heaps built so far. *)
Inductive call :=
  | CallNew (c : heapClass)
  | CallFrom (c : heapClass) (elts : list T)
  | CallAdd (k : nat) (element : option T)
  | CallRemove (k : nat)
  | CallClear (k : nat)
  | CallIterate (k : nat).

(** The store, and the heap objects the client holds. *)
Record world := { st : store; handles : list heap }.

Definition exec {A} (m : M T A) (made : A → list heap) (w : world) : world :=
  match m (st w) with
  | (inr a, σ) => {| st := σ; handles := handles w ++ made a |}
  | (inl _, σ) => {| st := σ; handles := handles w |}
  end.

Definition step (w : world) (c : call) : world :=
  match c with
  | CallNew c => exec (new c) (λ h, [h]) w
  | CallFrom c elts => exec (from c elts) (λ h, [h]) w
  | CallAdd k element =>
      match handles w !! k with
      | Some h => exec (add h element) (λ h, [h]) w
      | None => w
      end
  | CallRemove k =>
      match handles w !! k with
      | Some h => exec (remove h) (λ r, [r.2]) w
      | None => w
      end
  | CallClear k =>
      match handles w !! k with
      | Some h => exec (clear h) (λ h, [h]) w
      | None => w
      end
  | CallIterate k =>
      match handles w !! k with
      | Some h => exec (iterate h) (λ _, []) w
      | None => w
      end
  end.

Definition run (calls : list call) : world :=
  foldl step {| st := ∅; handles := [] |} calls.

Definition callOk (c : call) : Prop :=
  match c with
  | CallNew c | CallFrom c _ => classOk c
  | _ => True
  end.

(** A heap of the store: its array is allocated and ordered, and its
    comparator meets the contract. *)
Definition heapOk (σ : store) (h : heap) : Prop :=
  classOk (cls h) ∧
  ∃ arr, σ !! elements h = Some arr ∧ heapOrdered (compare (cls h)) arr.

Lemma heapOk_frame σ h arr' : heapOk σ h → heapOk (<[fresh (dom σ) := arr']> σ) h.
Proof.
  intros [Hc (arr & Hl & Hord)]. split; [done|]. exists arr. split; [|done].
  by rewrite lookup_insert_ne by (by eapply fresh_ne).
Qed.

Lemma heapOk_alloc σ c l arr :
  classOk c → heapOrdered (compare c) arr →
  heapOk (<[l := arr]> σ) {| cls := c; elements := l |}.
Proof.
  intros Hc Hord. split; [done|]. exists arr. simpl. by rewrite lookup_insert_eq.
Qed.

Lemma heapOk_contents σ h : heapOk σ h → heapOrdered (compare (cls h)) (contents σ h).
Proof. intros [_ (arr & Hl & Hord)]. unfold contents. by rewrite Hl. Qed.

Lemma heapOrdered_nil c : heapOrdered c ([] : list T).
Proof. by intros i ch x y _ ?. Qed.

Definition worldOk (w : world) : Prop := Forall (heapOk (st w)) (handles w).

Lemma step_ok w c : callOk c → worldOk w → worldOk (step w c).
Proof.
  unfold worldOk. intros Hc Hw.
  destruct c as [c|c elts|k [x|]|k|k|k]; cbn [step callOk] in *;
    try (destruct (handles w !! k) as [h|] eqn:Hk; [|done];
         pose proof (Forall_lookup_1 _ _ _ _ Hw Hk) as Hh);
    unfold exec.
  - rewrite new_run. cbn [st handles]. apply Forall_app. split.
    + eapply Forall_impl; [done|]. intros h. apply heapOk_frame.
    + apply Forall_singleton, heapOk_alloc; [done|apply heapOrdered_nil].
  - rewrite from_run. cbn [st handles]. apply Forall_app. split.
    + eapply Forall_impl; [done|]. intros h Hh. by do 2 apply heapOk_frame.
    + apply Forall_singleton, heapOk_alloc; [done|].
      by apply fromArray_ordered, compare_valid.
  - rewrite add_run. cbn [st handles]. apply Forall_app. split.
    + eapply Forall_impl; [done|]. intros h'. apply heapOk_frame.
    + apply Forall_singleton, heapOk_alloc; [apply Hh|].
      apply push_bubbleUp_ordered; [apply compare_valid, Hh|by apply heapOk_contents].
  - by rewrite add_null_run.
  - rewrite remove_run. cbn [st handles snd]. apply Forall_app. split.
    + eapply Forall_impl; [done|]. intros h'. apply heapOk_frame.
    + apply Forall_singleton, heapOk_alloc; [apply Hh|].
      apply removeArray_ordered; [apply compare_valid, Hh|by apply heapOk_contents].
  - rewrite clear_run. cbn [st handles]. apply Forall_app. split.
    + eapply Forall_impl; [done|]. intros h'. apply heapOk_frame.
    + apply Forall_singleton, heapOk_alloc; [apply Hh|by apply heapOk_contents].
  - rewrite iterate_run. cbn [st handles]. rewrite app_nil_r.
    eapply Forall_impl; [done|]. intros h'. apply heapOk_frame.
Qed.

Lemma run_ok calls : Forall callOk calls → worldOk (run calls).
Proof.
  unfold run. intros Hcalls.
  assert (worldOk {| st := ∅; handles := [] |}) as Hw by apply Forall_nil_2.
  revert Hw. generalize {| st := ∅; handles := [] |}.
  induction Hcalls as [|c calls Hc _ IH]; intros w Hw; [done|].
  simpl. by apply IH, step_ok.
Qed.
End Objects.

End Heap.


(** ** The sorting suite: [class Sorting] *)

Module Sorting.
Section Sort.
Context {T : Type} (compare : T → T → Z).
Implicit Types arr result : list T.

(** *** [isSorted] *)

(** [isSorted(arr, compare)]: the loop leaves with [false] at the first
    descent. *)
Definition isSortedBody arr (i : nat) (_ : unit) : unit + bool :=
  match arr !! (i - 1), arr !! i with
  | Some a, Some b => if bool_decide (0 < compare a b)%Z then inr false else inl ()
  | _, _ => inl ()
  end.

Definition isSorted arr : bool :=
  match forLoop (isSortedBody arr) (seq 1 (length arr - 1)) () with
  | inr b => b
  | inl _ => true
  end.

(** *** [insertionSort] *)

(** The inner loop, [while (j >= 0 && compare(result[j], key) > 0)
    { result[j + 1] = result[j]; j--; }] followed by [result[j + 1] = key];
    [k] is [j + 1]. *)
Fixpoint shift result (key : T) (k : nat) : list T :=
  match k with
  | 0 => <[0 := key]> result
  | S j =>
      match result !! j with
      | Some x =>
          if bool_decide (0 < compare x key)%Z
          then shift (<[S j := x]> result) key j
          else <[S j := key]> result
      | None => <[S j := key]> result
      end
  end.

(** The body of the outer loop, [for (i = 1; i < result.length; i++)]. *)
Definition insertBody (i : nat) result : list T + Empty_set :=
  match result !! i with
  | Some key => inl (shift result key i)
  | None => inl result
  end.

(** [insertionSort(arr, compare)], from the copy [[...arr]] on. *)
Definition insertionSort arr : list T :=
  let result := arr in
  match forLoop insertBody (seq 1 (length result - 1)) result with
  | inl result => result
  | inr e => match e with end
  end.

(** *** [mergeSort] *)

(** The loop of [merge], [while (i < left.length && j < right.length)],
    and the final [[...result, ...left.slice(i), ...right.slice(j)]];
    [leftRun] and [rightRun] are its [left] and [right]. *)
Equations? mergeLoop (leftRun rightRun : list T) (i j : nat) (result : list T) : list T
    by wf (length leftRun - i + (length rightRun - j)) lt :=
  mergeLoop leftRun rightRun i j result
    with decide (i < length leftRun ∧ j < length rightRun) => {
    | right _ := result ++ drop i leftRun ++ drop j rightRun;
    | left _ with leftRun !! i, rightRun !! j => {
        | Some x, Some y with decide (compare x y ≤ 0)%Z => {
            | left _ := mergeLoop leftRun rightRun (i + 1) j (result ++ [x]);
            | right _ := mergeLoop leftRun rightRun i (j + 1) (result ++ [y]) };
        | _, _ := result ++ drop i leftRun ++ drop j rightRun } }.
Proof. all: lia. Qed.

Definition merge (leftRun rightRun : list T) : list T := mergeLoop leftRun rightRun 0 0 [].

(** [mergeSort(arr, compare)]; [arr.slice(0, mid)] is [take mid arr] and
    [arr.slice(mid)] is [drop mid arr]. *)
Equations? mergeSort arr : list T by wf (length arr) lt :=
  mergeSort arr with decide (length arr ≤ 1) => {
    | left _ := arr;
    | right _ :=
        merge (mergeSort (take (length arr / 2) arr)) (mergeSort (drop (length arr / 2) arr)) }.
Proof.
  all: assert (0 < length arr / 2 < length arr)
    by (split; [apply Nat.div_str_pos|apply Nat.div_lt]; lia).
  - change (length (take (length arr / 2) arr) < length arr). rewrite length_take. lia.
  - change (length (drop (length arr / 2) arr) < length arr). rewrite length_drop. lia.
Qed.

(** *** [heapSort] *)

(** [heapify(n, i)]: the index of the largest among [i] and its children
    below [n]. *)
Definition greaterAt result (a b : nat) : bool :=
  match result !! a, result !! b with
  | Some x, Some y => bool_decide (0 < compare x y)%Z
  | _, _ => false
  end.

Definition largestOf result (n i : nat) : nat :=
  let largest := i in
  let left := 2 * i + 1 in
  let right := 2 * i + 2 in
  let largest :=
    if bool_decide (left < n) && greaterAt result left largest then left else largest in
  let largest :=
    if bool_decide (right < n) && greaterAt result right largest then right else largest in
  largest.

Lemma largestOf_range result n i :
  largestOf result n i = i ∨ i < largestOf result n i < n.
Proof.
  unfold largestOf. repeat case_match; try (by left); right;
    repeat match goal with
      | H : _ && _ = true |- _ => apply andb_true_iff in H as [?%bool_decide_eq_true _]
      end; lia.
Qed.

Equations? heapify result (n i : nat) : list T by wf (n - i) lt :=
  heapify result n i with decide (largestOf result n i = i) => {
    | left _ := result;
    | right _ :=
        heapify (Arr.swap result i (largestOf result n i)) n (largestOf result n i) }.
Proof. destruct (largestOf_range result n i); lia. Qed.

(** [for (i = Math.floor(result.length / 2) - 1; i >= 0; i--)
    heapify(result.length, i)], counted by [k = i + 1]. *)
Fixpoint buildLoop result (k : nat) : list T :=
  match k with
  | 0 => result
  | S i => buildLoop (heapify result (length result) i) i
  end.

(** [for (i = result.length - 1; i > 0; i--) { swap(0, i); heapify(i, 0) }]. *)
Fixpoint extractLoop result (i : nat) : list T :=
  match i with
  | 0 => result
  | S i' => extractLoop (heapify (Arr.swap result 0 i) i 0) i'
  end.

Definition heapSort arr : list T :=
  let result := arr in
  let result := buildLoop result (length result / 2) in
  extractLoop result (length result - 1).

(** *** [quickSort] *)

(** [do { i++; } while (compare(result[i], pivot) < 0)].  [None] when the
    scan reads past the array, where JavaScript compares [undefined]. *)
Fixpoint scanUp (fuel : nat) result (pivot : T) (i : Z) : option Z :=
  match fuel with
  | 0 => None
  | S fuel =>
      let i := (i + 1)%Z in
      match get result i with
      | Some x => if bool_decide (compare x pivot < 0)%Z then scanUp fuel result pivot i else Some i
      | None => None
      end
  end.

(** [do { j--; } while (compare(result[j], pivot) > 0)]. *)
Fixpoint scanDown (fuel : nat) result (pivot : T) (j : Z) : option Z :=
  match fuel with
  | 0 => None
  | S fuel =>
      let j := (j - 1)%Z in
      match get result j with
      | Some x => if bool_decide (0 < compare x pivot)%Z then scanDown fuel result pivot j else Some j
      | None => None
      end
  end.

(** The [while (true)] of [partition]: it returns [j] and leaves [result]
    rearranged.  [None] when a scan fails or the step bound is exceeded;
    under the comparator contract neither happens. *)
Fixpoint partitionLoop (fuel : nat) result (pivot : T) (i j : Z) : option (Z * list T) :=
  match fuel with
  | 0 => None
  | S fuel =>
      match scanUp (length result + 1) result pivot i with
      | None => None
      | Some i =>
          match scanDown (length result + 1) result pivot j with
          | None => None
          | Some j =>
              if bool_decide (j ≤ i)%Z then Some (j, result)
              else partitionLoop fuel (Arr.swap result (Z.to_nat i) (Z.to_nat j)) pivot i j
          end
      end
  end.

Definition partition result (low high : Z) : option (Z * list T) :=
  match get result ((low + high) / 2) with
  | Some pivot => partitionLoop (length result + 1) result pivot (low - 1) (high + 1)
  | None => None
  end.

(** [sort(low, high)]. *)
Fixpoint sortRange (fuel : nat) result (low high : Z) : option (list T) :=
  match fuel with
  | 0 => None
  | S fuel =>
      if bool_decide (low < high)%Z then
        match partition result low high with
        | Some (p, result) =>
            match sortRange fuel result low p with
            | Some result => sortRange fuel result (p + 1) high
            | None => None
            end
        | None => None
        end
      else Some result
  end.

(** [quickSort(arr, compare)]. *)
Definition quickSort arr : option (list T) :=
  if bool_decide (length arr ≤ 1) then Some arr
  else
    let result := arr in
    sortRange (length result + 1) result 0 (Z.of_nat (length result) - 1).

(** *** [sort] *)

Definition sort arr : option (list T) :=
  if bool_decide (length arr ≤ 10) then Some (insertionSort arr)
  else quickSort arr.

(** *** [isSorted] decides the absence of descents *)

Lemma isSorted_loop_true arr a k :
  (∀ i x y, a ≤ i < a + k → arr !! (i - 1) = Some x → arr !! i = Some y →
            (compare x y ≤ 0)%Z) →
  forLoop (isSortedBody arr) (seq a k) () = inl ().
Proof.
  revert a. induction k as [|k IH]; intros a Hasc; simpl; [done|].
  unfold isSortedBody at 1.
  destruct (arr !! (a - 1)) as [x|] eqn:Hx, (arr !! a) as [y|] eqn:Hy;
    try (apply IH; intros i ? ? ?; apply Hasc; lia).
  rewrite bool_decide_eq_false_2 by (pose proof (Hasc a x y ltac:(lia) Hx Hy); lia).
  apply IH. intros i ? ? ?. apply Hasc. lia.
Qed.

Lemma isSorted_loop_inv arr a k u :
  forLoop (isSortedBody arr) (seq a k) () = inl u →
  ∀ i x y, a ≤ i < a + k → arr !! (i - 1) = Some x → arr !! i = Some y →
           (compare x y ≤ 0)%Z.
Proof.
  revert a. induction k as [|k IH]; intros a Hloop i x y Hi Hx Hy; [lia|].
  simpl in Hloop. unfold isSortedBody at 1 in Hloop.
  destruct (decide (i = a)) as [->|Hne].
  - rewrite Hx, Hy in Hloop. case_bool_decide; [done|lia].
  - destruct (arr !! (a - 1)), (arr !! a); try case_bool_decide; try done;
      eapply (IH (S a)); eauto; lia.
Qed.

Lemma isSorted_loop_false arr a k b :
  forLoop (isSortedBody arr) (seq a k) () = inr b → b = false.
Proof.
  revert a. induction k as [|k IH]; intros a; simpl; [done|].
  unfold isSortedBody at 1.
  destruct (arr !! (a - 1)), (arr !! a); try case_bool_decide; try (by apply IH).
  by intros [= <-].
Qed.

Lemma isSorted_ascending arr : isSorted arr = true ↔ Arr.ascending compare arr.
Proof.
  unfold isSorted. split.
  - destruct (forLoop _ _ _) as [[]|b] eqn:Hloop.
    + intros _ i a b Ha Hb.
      eapply (isSorted_loop_inv _ _ _ _ Hloop (i + 1));
        [apply lookup_lt_Some in Hb; lia| |done].
      by replace (i + 1 - 1) with i by lia.
    + apply isSorted_loop_false in Hloop. by subst.
  - intros Hasc. rewrite isSorted_loop_true; [done|].
    intros i x y Hi Hx Hy. eapply (Hasc (i - 1)); [done|].
    by replace (i - 1 + 1) with i by lia.
Qed.

Lemma isSorted_sorted arr : Arr.sorted compare arr → isSorted arr = true.
Proof. intros Hs. by apply isSorted_ascending, Arr.sorted_ascending. Qed.

(** *** [insertionSort] *)

Section ValidSort.
Hypothesis Hvalid : Cmp.valid compare.

(** The inner loop on a sorted prefix [p] followed by the slot of the key:
    the key ends in its place among [p], the rest is untouched. *)
Lemma shift_spec key (k : nat) : ∀ (p : list T) (h : T) (t : list T),
  length p = k →
  ∃ q, shift (p ++ h :: t) key k = q ++ t ∧ q ≡ₚ key :: p ∧
       (Arr.sorted compare p → Arr.sorted compare q).
Proof.
  induction k as [|j IH]; intros p h t Hlen.
  { apply length_zero_iff_nil in Hlen as ->. exists [key]. simpl.
    split; [done|]. split; [done|]. intros _. repeat constructor. }
  destruct p as [|x p' _] using rev_ind; [done|].
  rewrite length_app in Hlen. simpl in Hlen.
  assert (length p' = j) as Hj by lia. clear Hlen.
  cbn [shift]. rewrite <-(assoc_L (++)). cbn [app].
  rewrite (list_lookup_middle p' (h :: t) x j) by done.
  assert (∀ z, <[S j := z]> (p' ++ x :: h :: t) = p' ++ x :: z :: t) as Hins.
  { intros z. rewrite insert_app_r_alt by lia.
    replace (S j - length p') with 1 by lia. done. }
  case_bool_decide as Hgt.
  - rewrite Hins. destruct (IH p' x (x :: t) Hj) as (q' & Hq' & Hperm & Hsorted).
    exists (q' ++ [x]). rewrite Hq', <-(assoc_L (++)). split; [done|]. split.
    + by rewrite Hperm.
    + intros [Hp' Hall]%Arr.sorted_snoc. apply Arr.sorted_snoc. split; [auto|].
      rewrite Hperm. constructor; [|done].
      apply (Cmp.gt_le compare x key Hvalid). lia.
  - rewrite Hins. exists (p' ++ [x; key]). split; [by rewrite <-(assoc_L (++))|]. split.
    + change [x; key] with ([x] ++ [key]). rewrite (assoc_L (++)).
      by rewrite <-Permutation_cons_append.
    + intros Hs. change [x; key] with ([x] ++ [key]). rewrite (assoc_L (++)).
      apply Arr.sorted_snoc. split; [done|].
      assert (compare x key ≤ 0)%Z as Hxk by lia.
      apply Arr.sorted_snoc in Hs as [_ Hall].
      apply Forall_app. split; [|by repeat constructor].
      eapply Forall_impl; [done|]. intros y Hy. simpl in Hy.
      by apply (Cmp.trans compare Hvalid y x key).
Qed.

(** The outer loop from index [a] on. *)
Lemma insert_loop_spec (m : nat) : ∀ (a : nat) result,
  a + m = length result → Arr.sorted compare (take a result) →
  ∃ out, forLoop insertBody (seq a m) result = inl out ∧
         out ≡ₚ result ∧ Arr.sorted compare out.
Proof.
  induction m as [|m IH]; intros a result Hlen Hs.
  { exists result. simpl. split; [done|]. split; [done|].
    by rewrite take_ge in Hs by lia. }
  destruct (lookup_lt_is_Some_2 result a) as [key Hkey]; [lia|].
  simpl. unfold insertBody at 1. rewrite Hkey.
  pose proof (take_drop_middle result a key Hkey) as Hsplit.
  destruct (shift_spec key a (take a result) key (drop (S a) result))
    as (q & Hq & Hperm & Hsorted); [rewrite length_take; lia|].
  rewrite Hsplit in Hq. rewrite Hq.
  assert (length q = S a) as Hlq.
  { rewrite (Permutation_length Hperm). simpl. rewrite length_take. lia. }
  destruct (IH (S a) (q ++ drop (S a) result)) as (out & Hout & Hp & Hso).
  - rewrite length_app, length_drop. lia.
  - rewrite take_app_length' by done. auto.
  - exists out. split; [done|]. split; [|done].
    rewrite Hp, Hperm. simpl. rewrite Permutation_middle. by rewrite Hsplit.
Qed.

Lemma insertionSort_correct arr :
  insertionSort arr ≡ₚ arr ∧ Arr.sorted compare (insertionSort arr).
Proof.
  unfold insertionSort.
  destruct arr as [|x arr]; [split; [done|constructor]|].
  destruct (insert_loop_spec (length (x :: arr) - 1) 1 (x :: arr))
    as (out & Hout & Hp & Hs); [simpl; lia|repeat constructor|].
  rewrite Hout. done.
Qed.

(** *** [mergeSort] *)

Lemma mergeLoop_eq (leftRun rightRun : list T) i j result :
  mergeLoop leftRun rightRun i j result =
    match leftRun !! i, rightRun !! j with
    | Some x, Some y =>
        if decide (compare x y ≤ 0)%Z
        then mergeLoop leftRun rightRun (i + 1) j (result ++ [x])
        else mergeLoop leftRun rightRun i (j + 1) (result ++ [y])
    | _, _ => result ++ drop i leftRun ++ drop j rightRun
    end.
Proof.
  rewrite mergeLoop_equation_1.
  destruct (decide (i < length leftRun ∧ j < length rightRun)) as [[Hi Hj]|Hn].
  - unfold mergeLoop_unfold_clause_1, mergeLoop_unfold_clause_1_clause_2.
    destruct (leftRun !! i), (rightRun !! j); try done.
    unfold mergeLoop_unfold_clause_1_clause_2_clause_1. by destruct (decide _).
  - unfold mergeLoop_unfold_clause_1.
    destruct (leftRun !! i) eqn:Hx, (rightRun !! j) eqn:Hy; try done.
    apply lookup_lt_Some in Hx, Hy. lia.
Qed.

Lemma mergeLoop_perm (leftRun rightRun : list T) i j result :
  mergeLoop leftRun rightRun i j result ≡ₚ result ++ drop i leftRun ++ drop j rightRun.
Proof.
  remember (length leftRun - i + (length rightRun - j)) as m eqn:Hm.
  revert i j result Hm. induction m as [m IH] using lt_wf_ind. intros i j result ->.
  rewrite mergeLoop_eq.
  destruct (leftRun !! i) as [x|] eqn:Hx; [|done].
  destruct (rightRun !! j) as [y|] eqn:Hy; [|done].
  pose proof (lookup_lt_Some _ _ _ Hx). pose proof (lookup_lt_Some _ _ _ Hy).
  case_decide.
  - rewrite (IH (length leftRun - (i + 1) + (length rightRun - j))) by lia.
    rewrite (drop_S leftRun x i Hx), <-(assoc_L (++)). simpl.
    by replace (i + 1) with (S i) by lia.
  - rewrite (IH (length leftRun - i + (length rightRun - (j + 1)))) by lia.
    rewrite (drop_S rightRun y j Hy), <-(assoc_L (++)). simpl.
    replace (j + 1) with (S j) by lia.
    by rewrite <-!Permutation_middle.
Qed.

Lemma merge_perm (leftRun rightRun : list T) : merge leftRun rightRun ≡ₚ leftRun ++ rightRun.
Proof. unfold merge. by rewrite mergeLoop_perm. Qed.

Lemma sorted_short arr : length arr ≤ 1 → Arr.sorted compare arr.
Proof. destruct arr as [|x [|y arr]]; simpl; [repeat constructor..|lia]. Qed.

Lemma mergeSort_eq arr :
  mergeSort arr =
    if decide (length arr ≤ 1) then arr
    else merge (mergeSort (take (length arr / 2) arr)) (mergeSort (drop (length arr / 2) arr)).
Proof. rewrite mergeSort_equation_1. by destruct (decide (length arr ≤ 1)). Qed.

Lemma mergeSort_perm arr : mergeSort arr ≡ₚ arr.
Proof.
  remember (length arr) as n eqn:Hn. revert arr Hn.
  induction n as [n IH] using lt_wf_ind. intros arr ->.
  rewrite mergeSort_eq. case_decide as Hlen; [done|].
  assert (0 < length arr / 2 < length arr)
    by (split; [apply Nat.div_str_pos|apply Nat.div_lt]; lia).
  rewrite merge_perm.
  rewrite (IH (length (take (length arr / 2) arr))) by (rewrite ?length_take; lia).
  rewrite (IH (length (drop (length arr / 2) arr))) by (rewrite ?length_drop; lia).
  by rewrite take_drop.
Qed.

Lemma sorted_app_cons_l (result rest : list T) x :
  Arr.sorted compare (result ++ x :: rest) → Arr.sorted compare ((result ++ [x]) ++ rest).
Proof. by rewrite <-(assoc_L (++)). Qed.

(** Moving the head [x] of one run to [result] keeps [result] below the
    other run, whose head [y] is not before [x]. *)
Lemma sorted_app_cons_r (result rest other : list T) x y :
  (compare x y ≤ 0)%Z →
  Arr.sorted compare (result ++ x :: rest) →
  Arr.sorted compare (result ++ y :: other) →
  Arr.sorted compare ((result ++ [x]) ++ y :: other).
Proof.
  intros Hxy Hx Hy. unfold Arr.sorted in *.
  rewrite StronglySorted_app in Hx, Hy |- *.
  destruct Hx as (Hx1 & Hx2 & Hx3), Hy as (Hy1 & Hy2 & Hy3).
  split; [|split; [|done]].
  - intros a b [Ha| ->%list_elem_of_singleton]%elem_of_app Hb; [by apply Hy1|].
    apply StronglySorted_cons in Hy3 as [Hall _]. rewrite Forall_forall in Hall.
    apply elem_of_cons in Hb as [->|Hb]; [done|].
    apply (Cmp.trans compare Hvalid x y b); auto.
  - apply StronglySorted_app. split; [|split; [done|repeat constructor]].
    intros a b Ha ->%list_elem_of_singleton. apply Hx1; [done|by left].
Qed.

Lemma mergeLoop_sorted (leftRun rightRun : list T) i j result :
  Arr.sorted compare (result ++ drop i leftRun) →
  Arr.sorted compare (result ++ drop j rightRun) →
  Arr.sorted compare (mergeLoop leftRun rightRun i j result).
Proof.
  remember (length leftRun - i + (length rightRun - j)) as m eqn:Hm.
  revert i j result Hm. induction m as [m IH] using lt_wf_ind.
  intros i j result -> HL HR. rewrite mergeLoop_eq.
  destruct (leftRun !! i) as [x|] eqn:Hx.
  2:{ apply lookup_ge_None in Hx. by rewrite (drop_ge leftRun i) by done. }
  destruct (rightRun !! j) as [y|] eqn:Hy.
  2:{ apply lookup_ge_None in Hy. by rewrite (drop_ge rightRun j), app_nil_r by done. }
  pose proof (lookup_lt_Some _ _ _ Hx). pose proof (lookup_lt_Some _ _ _ Hy).
  rewrite (drop_S leftRun x i Hx) in HL. rewrite (drop_S rightRun y j Hy) in HR.
  case_decide as Hxy.
  - apply (IH (length leftRun - (i + 1) + (length rightRun - j))); [lia|done| |].
    + replace (i + 1) with (S i) by lia. by apply sorted_app_cons_l.
    + rewrite (drop_S rightRun y j Hy). by eapply sorted_app_cons_r.
  - apply (IH (length leftRun - i + (length rightRun - (j + 1)))); [lia|done| |].
    + rewrite (drop_S leftRun x i Hx). eapply sorted_app_cons_r; [|done..].
      by apply Cmp.not_le.
    + replace (j + 1) with (S j) by lia. by apply sorted_app_cons_l.
Qed.

Lemma mergeSort_sorted arr : Arr.sorted compare (mergeSort arr).
Proof.
  remember (length arr) as n eqn:Hn. revert arr Hn.
  induction n as [n IH] using lt_wf_ind. intros arr ->.
  rewrite mergeSort_eq. case_decide as Hlen; [by apply sorted_short|].
  assert (0 < length arr / 2 < length arr)
    by (split; [apply Nat.div_str_pos|apply Nat.div_lt]; lia).
  apply mergeLoop_sorted; rewrite drop_0; cbn [app].
  - apply (IH (length (take (length arr / 2) arr))); [rewrite length_take; lia|done].
  - apply (IH (length (drop (length arr / 2) arr))); [rewrite length_drop; lia|done].
Qed.

(** *** [heapSort] *)

(** The [heapify] of [heapSort] is the [heapify] of the heaps under the
    opposite comparator: it builds a max-heap. *)
Lemma greaterAt_lessAt result a b :
  greaterAt result a b = Heap.lessAt (Cmp.neg compare) result a b.
Proof.
  unfold greaterAt, Heap.lessAt, Cmp.neg. destruct (result !! a), (result !! b); try done.
  apply bool_decide_ext. lia.
Qed.

Lemma largestOf_smallestOf result n i :
  largestOf result n i = Heap.smallestOf (Cmp.neg compare) result i n.
Proof. unfold largestOf, Heap.smallestOf. by rewrite !greaterAt_lessAt. Qed.

Lemma heapify_step result n i :
  heapify result n i =
    if decide (largestOf result n i = i) then result
    else heapify (Arr.swap result i (largestOf result n i)) n (largestOf result n i).
Proof. rewrite heapify_equation_1. by destruct (decide (largestOf result n i = i)). Qed.

Lemma heapify_heap result n i :
  heapify result n i = Heap.heapify (Cmp.neg compare) result i n.
Proof.
  remember (n - i) as m eqn:Hm. revert result i Hm.
  induction m as [m IH] using lt_wf_ind. intros result i ->.
  rewrite heapify_step, Heap.heapify_eq, largestOf_smallestOf.
  case_decide as Hs; [done|].
  destruct (Heap.smallestOf_range (Cmp.neg compare) result i n) as [?|?]; [done|].
  apply (IH (n - Heap.smallestOf (Cmp.neg compare) result i n)); lia.
Qed.

Lemma buildLoop_heap result k :
  buildLoop result k = Heap.fromLoop (Cmp.neg compare) result k.
Proof.
  revert result. induction k as [|k IH]; intros result; [done|]. simpl.
  by rewrite IH, heapify_heap, Heap.bubbleDown_heapify.
Qed.

Lemma extractLoop_heap result i :
  extractLoop result i = Heap.iterLoop (Cmp.neg compare) result i.
Proof.
  revert result. induction i as [|i IH]; intros result; [done|]. simpl.
  by rewrite IH, heapify_heap.
Qed.

(** [heapSort] is the drain of a max-heap, read backwards. *)
Lemma heapSort_drain arr :
  heapSort arr =
    reverse (Heap.drainArray (Cmp.neg compare) (Heap.fromArray (Cmp.neg compare) arr)).
Proof.
  unfold heapSort. rewrite extractLoop_heap, buildLoop_heap.
  rewrite <-Heap.iterArray_drainArray. unfold Heap.iterArray, Heap.fromArray.
  by rewrite reverse_involutive.
Qed.

Lemma heapSort_correct arr :
  heapSort arr ≡ₚ arr ∧ Arr.sorted compare (heapSort arr).
Proof.
  rewrite heapSort_drain. split.
  - by rewrite reverse_Permutation, Heap.drainArray_perm, Heap.fromArray_perm.
  - apply Arr.sorted_reverse_neg; [done|].
    apply Heap.drainArray_sorted; [by apply Cmp.neg_valid|].
    by apply Heap.fromArray_ordered, Cmp.neg_valid.
Qed.

(** *** [quickSort] *)

Lemma get_lt result (k : Z) :
  (0 ≤ k < Z.of_nat (length result))%Z → ∃ x, get result k = Some x.
Proof.
  intros Hk. destruct (lookup_lt_is_Some_2 result (Z.to_nat k)) as [x Hx]; [lia|].
  exists x. apply get_Some. split; [lia|done].
Qed.

Lemma get_Some_lt result (k : Z) x :
  get result k = Some x → (0 ≤ k < Z.of_nat (length result))%Z.
Proof. intros [? Hx%lookup_lt_Some]%get_Some. lia. Qed.

Lemma get_swap result (i j k : Z) :
  (0 ≤ i < Z.of_nat (length result))%Z → (0 ≤ j < Z.of_nat (length result))%Z →
  get (Arr.swap result (Z.to_nat i) (Z.to_nat j)) k =
    if decide (k = i) then get result j
    else if decide (k = j) then get result i else get result k.
Proof.
  intros Hi Hj. unfold get. case_bool_decide as Hk.
  - rewrite Heap.lookup_swap by lia.
    repeat case_decide; try done; try lia; by rewrite ?bool_decide_eq_true_2 by lia.
  - repeat case_decide; try done; lia.
Qed.

(** The upward scan stops at or before a slot that is not before the
    pivot. *)
Lemma scanUp_spec (fuel : nat) result pivot : ∀ (i s : Z) y,
  (-1 ≤ i < s)%Z → get result s = Some y → ¬ (compare y pivot < 0)%Z →
  (s - i ≤ Z.of_nat fuel)%Z →
  ∃ i' x, scanUp fuel result pivot i = Some i' ∧ (i < i' ≤ s)%Z ∧
          get result i' = Some x ∧ ¬ (compare x pivot < 0)%Z ∧
          (∀ k z, (i < k < i')%Z → get result k = Some z → (compare z pivot < 0)%Z).
Proof.
  induction fuel as [|fuel IH]; intros i s y Hi Hs Hy Hfuel; [lia|].
  cbn [scanUp]. cbv zeta.
  destruct (get_lt result (i + 1)) as [x Hx]; [apply get_Some_lt in Hs; lia|].
  rewrite Hx. case_bool_decide as Hlt.
  - assert (i + 1 ≠ s)%Z by (intros Heq; rewrite Heq, Hs in Hx; injection Hx as ->; contradiction).
    destruct (IH (i + 1)%Z s y) as (i' & x' & Hscan & Hrange & Hx' & Hstop & Hbelow);
      [lia|done|done|lia|].
    exists i', x'. split; [done|]. split; [lia|]. split; [done|]. split; [done|].
    intros k z Hk Hz. destruct (decide (k = i + 1)%Z) as [->|]; [|apply (Hbelow k); [lia|done]].
    rewrite Hx in Hz. by injection Hz as <-.
  - exists (i + 1)%Z, x. split; [done|]. split; [lia|]. split; [done|]. split; [done|].
    intros k z Hk. lia.
Qed.

(** The downward scan stops at or after a slot that is not after the
    pivot. *)
Lemma scanDown_spec (fuel : nat) result pivot : ∀ (j s : Z) y,
  (s < j ≤ Z.of_nat (length result))%Z → get result s = Some y →
  ¬ (0 < compare y pivot)%Z → (j - s ≤ Z.of_nat fuel)%Z →
  ∃ j' x, scanDown fuel result pivot j = Some j' ∧ (s ≤ j' < j)%Z ∧
          get result j' = Some x ∧ ¬ (0 < compare x pivot)%Z ∧
          (∀ k z, (j' < k < j)%Z → get result k = Some z → (0 < compare z pivot)%Z).
Proof.
  induction fuel as [|fuel IH]; intros j s y Hj Hs Hy Hfuel; [lia|].
  cbn [scanDown]. cbv zeta.
  destruct (get_lt result (j - 1)) as [x Hx]; [apply get_Some_lt in Hs; lia|].
  rewrite Hx. case_bool_decide as Hgt.
  - assert (j - 1 ≠ s)%Z by (intros Heq; rewrite Heq, Hs in Hx; injection Hx as ->; contradiction).
    destruct (IH (j - 1)%Z s y) as (j' & x' & Hscan & Hrange & Hx' & Hstop & Habove);
      [lia|done|done|lia|].
    exists j', x'. split; [done|]. split; [lia|]. split; [done|]. split; [done|].
    intros k z Hk Hz. destruct (decide (k = j - 1)%Z) as [->|]; [|apply (Habove k); [lia|done]].
    rewrite Hx in Hz. by injection Hz as <-.
  - exists (j - 1)%Z, x. split; [done|]. split; [lia|]. split; [done|]. split; [done|].
    intros k z Hk. lia.
Qed.

(** The invariant of the [while (true)] of [partition] at the top of an
    iteration: the slots up to [i] are not after the pivot, the slots from
    [j] on are not before it, and each scan has a slot that stops it. *)
Record partitionInv result (pivot : T) (low high i j : Z) : Prop := {
  inv_low : (0 ≤ low)%Z;
  inv_high : (high < Z.of_nat (length result))%Z;
  inv_i : (low - 1 ≤ i)%Z;
  inv_j : (j ≤ high + 1)%Z;
  inv_ij : (i < j)%Z;
  inv_left : ∀ k x, (low ≤ k ≤ i)%Z → get result k = Some x → (compare x pivot ≤ 0)%Z;
  inv_right : ∀ k x, (j ≤ k ≤ high)%Z → get result k = Some x → (compare pivot x ≤ 0)%Z;
  inv_stop_up : ∃ s y, (i < s ≤ j)%Z ∧ (s ≤ high)%Z ∧ (s < high ∨ j ≤ high)%Z ∧
                       get result s = Some y ∧ (compare pivot y ≤ 0)%Z;
  inv_stop_down : ∃ s y, (i ≤ s < j)%Z ∧ (low ≤ s)%Z ∧
                         get result s = Some y ∧ (compare y pivot ≤ 0)%Z
}.

(** What [partition] returns: the index [p] and the array split around
    the pivot. *)
Record partitioned result result' (pivot : T) (low high p : Z) : Prop := {
  part_p : (low ≤ p < high)%Z;
  part_perm : result' ≡ₚ result;
  part_frame : ∀ k, ¬ (low ≤ k ≤ high)%Z → get result' k = get result k;
  part_left : ∀ k x, (low ≤ k ≤ p)%Z → get result' k = Some x → (compare x pivot ≤ 0)%Z;
  part_right : ∀ k x, (p < k ≤ high)%Z → get result' k = Some x → (compare pivot x ≤ 0)%Z
}.

Lemma partitionLoop_spec (fuel : nat) pivot low high : ∀ result (i j : Z),
  partitionInv result pivot low high i j → (j - i ≤ Z.of_nat fuel)%Z →
  ∃ p result', partitionLoop fuel result pivot i j = Some (p, result') ∧
               partitioned result result' pivot low high p.
Proof.
  induction fuel as [|fuel IH]; intros result i j Hinv Hfuel.
  { destruct Hinv. lia. }
  destruct Hinv as [Hlow Hhigh Hi Hj Hij Hleft Hright
                     (su & yu & Hsu & Hsuh & Hsuh' & Hyu & Hpu)
                     (sd & yd & Hsd & Hsdl & Hyd & Hpd)].
  cbn [partitionLoop].
  destruct (scanUp_spec (length result + 1) result pivot i su yu)
    as (i' & xi & -> & Hi' & Hxi & Hstopi & Hbelow); [lia|done| |lia|].
  { pose proof (Cmp.antisym compare Hvalid pivot yu). lia. }
  destruct (scanDown_spec (length result + 1) result pivot j sd yd)
    as (j' & xj & -> & Hj' & Hxj & Hstopj & Habove); [lia|done|lia|lia|].
  pose proof (Cmp.not_lt compare xi pivot Hvalid Hstopi) as Hpxi.
  assert (compare xj pivot ≤ 0)%Z as Hxjp by lia.
  assert (∀ k x, (low ≤ k < i')%Z → get result k = Some x → (compare x pivot ≤ 0)%Z)
    as Hleft'.
  { intros k x Hk Hx. destruct (decide (k ≤ i)%Z); [by apply (Hleft k); [lia|]|].
    pose proof (Hbelow k x ltac:(lia) Hx). lia. }
  assert (∀ k x, (j' < k ≤ high)%Z → get result k = Some x → (compare pivot x ≤ 0)%Z)
    as Hright'.
  { intros k x Hk Hx. destruct (decide (j ≤ k)%Z); [by apply (Hright k); [lia|]|].
    apply (Cmp.gt_le compare x pivot Hvalid). apply (Habove k); [lia|done]. }
  case_bool_decide as Hcross.
  - exists j', result. split; [done|]. split; [lia|done|done| |done].
    intros k x Hk Hx. destruct (decide (k = j')) as [->|].
    + rewrite Hxj in Hx. by injection Hx as <-.
    + apply (Hleft' k); [lia|done].
  - pose proof (get_Some_lt _ _ _ Hxi) as Hri. pose proof (get_Some_lt _ _ _ Hxj) as Hrj.
    destruct (IH (Arr.swap result (Z.to_nat i') (Z.to_nat j')) i' j')
      as (p & result' & Hloop & Hpart); [|lia|].
    { split; rewrite ?Arr.length_swap; try lia.
      - intros k x Hk. rewrite get_swap by done. repeat case_decide; try lia.
        + rewrite Hxj. by intros [= <-].
        + apply (Hleft' k). lia.
      - intros k x Hk. rewrite get_swap by done. repeat case_decide; try lia.
        + rewrite Hxi. by intros [= <-].
        + apply (Hright' k). lia.
      - exists j', xi. rewrite get_swap by done.
        rewrite decide_False, decide_True by lia. auto with lia.
      - exists i', xj. rewrite get_swap by done.
        rewrite decide_True by lia. auto with lia. }
    exists p, result'. split; [done|].
    destruct Hpart as [Hp Hperm Hframe Hl Hr]. split; try done.
    + by rewrite Hperm, Arr.swap_perm.
    + intros k Hk. rewrite Hframe by done. rewrite get_swap by done.
      by rewrite !decide_False by lia.
Qed.

Lemma partition_spec result (low high : Z) :
  (0 ≤ low < high)%Z → (high < Z.of_nat (length result))%Z →
  ∃ p result' pivot, partition result low high = Some (p, result') ∧
                     partitioned result result' pivot low high p.
Proof.
  intros Hlow Hhigh. unfold partition.
  assert (low ≤ (low + high) / 2 < high)%Z as Hmid.
  { split; [apply Z.div_le_lower_bound; lia|apply Z.div_lt_upper_bound; lia]. }
  destruct (get_lt result ((low + high) / 2)) as [pivot Hpivot]; [lia|].
  rewrite Hpivot.
  destruct (partitionLoop_spec (length result + 1) pivot low high result
              (low - 1) (high + 1)) as (p & result' & Hloop & Hpart); [|lia|by eauto].
  pose proof (Cmp.refl compare pivot Hvalid).
  split; try lia.
  - exists ((low + high) / 2)%Z, pivot. auto with lia.
  - exists ((low + high) / 2)%Z, pivot. auto with lia.
Qed.

(** A permutation that leaves the slots outside [[a, b)] alone permutes
    the slots inside: what holds of all of them before holds after. *)
Lemma segment_transfer (P : T → Prop) result result' (a b : nat) :
  a ≤ b → result' ≡ₚ result →
  (∀ i, i < a ∨ b ≤ i → result' !! i = result !! i) →
  (∀ i x, a ≤ i < b → result !! i = Some x → P x) →
  ∀ i x, a ≤ i < b → result' !! i = Some x → P x.
Proof.
  intros Hab Hperm Hframe HP i x Hi Hx.
  assert (take a result' = take a result) as Htake.
  { apply list_eq. intros k. rewrite !lookup_take. case_decide; [apply Hframe; lia|done]. }
  assert (drop b result' = drop b result) as Hdrop.
  { apply list_eq. intros k. rewrite !lookup_drop. apply Hframe. lia. }
  assert (∀ l : list T, (take a l ++ take (b - a) (drop a l)) ++ drop b l = l) as Hsplit.
  { intros l. rewrite take_take_drop. replace (a + (b - a)) with b by lia.
    apply take_drop. }
  assert (take (b - a) (drop a result') ≡ₚ take (b - a) (drop a result)) as Hmid.
  { apply (Permutation_app_inv_l (take a result)).
    apply (Permutation_app_inv_r (drop b result)).
    rewrite Hsplit. rewrite <-Htake, <-Hdrop at 1. by rewrite Hsplit. }
  assert (x ∈ take (b - a) (drop a result')) as Hin.
  { apply list_elem_of_lookup. exists (i - a).
    rewrite lookup_take_lt by lia. rewrite lookup_drop.
    by replace (a + (i - a)) with i by lia. }
  rewrite Hmid in Hin. apply list_elem_of_lookup in Hin as [k Hk].
  apply lookup_take_Some in Hk as [Hk Hkb]. rewrite lookup_drop in Hk.
  apply (HP (a + k)); [lia|done].
Qed.

Lemma range_transfer (P : T → Prop) result result' (low high : Z) :
  (0 ≤ low ≤ high + 1)%Z → result' ≡ₚ result →
  (∀ k, ¬ (low ≤ k ≤ high)%Z → get result' k = get result k) →
  (∀ k x, (low ≤ k ≤ high)%Z → get result k = Some x → P x) →
  ∀ k x, (low ≤ k ≤ high)%Z → get result' k = Some x → P x.
Proof.
  intros Hlow Hperm Hframe HP k x Hk Hx.
  apply get_Some in Hx as [_ Hx].
  eapply (segment_transfer P result result' (Z.to_nat low) (Z.to_nat (high + 1)));
    [lia|done| | |split; [|shelve]|done]; [| |lia].
  - intros i Hi. rewrite <-!get_of_nat. apply Hframe. lia.
  - intros i y Hi Hy. apply (HP (Z.of_nat i)); [lia|]. by rewrite get_of_nat.
  Unshelve. lia.
Qed.

(** [sort(low, high)] sorts the slots from [low] to [high] and leaves the
    others alone. *)
Lemma sortRange_spec (fuel : nat) : ∀ result (low high : Z),
  (0 ≤ low ≤ high)%Z → (high < Z.of_nat (length result))%Z →
  (high - low + 1 ≤ Z.of_nat fuel)%Z →
  ∃ result', sortRange fuel result low high = Some result' ∧
    result' ≡ₚ result ∧
    (∀ k, ¬ (low ≤ k ≤ high)%Z → get result' k = get result k) ∧
    (∀ k1 k2 x y, (low ≤ k1 < k2)%Z → (k2 ≤ high)%Z →
       get result' k1 = Some x → get result' k2 = Some y → (compare x y ≤ 0)%Z).
Proof.
  induction fuel as [|fuel IH]; intros result low high Hlow Hhigh Hfuel; [lia|].
  cbn [sortRange]. case_bool_decide as Hlt.
  2:{ exists result. split; [done|]. split; [done|]. split; [done|]. intros; lia. }
  destruct (partition_spec result low high) as (p & r1 & pivot & -> & Hpart); [lia|done|].
  destruct Hpart as [Hp Hperm1 Hframe1 Hleft Hright].
  pose proof (Permutation_length Hperm1) as Hlen1.
  destruct (IH r1 low p) as (r2 & -> & Hperm2 & Hframe2 & Hsorted2); [lia|lia|lia|].
  pose proof (Permutation_length Hperm2) as Hlen2.
  destruct (IH r2 (p + 1)%Z high) as (r3 & -> & Hperm3 & Hframe3 & Hsorted3);
    [lia|lia|lia|].
  exists r3. split; [done|]. split; [by rewrite Hperm3, Hperm2|]. split.
  { intros k Hk. rewrite Hframe3, Hframe2, Hframe1 by lia. done. }
  assert (∀ k x, (low ≤ k ≤ p)%Z → get r3 k = Some x → (compare x pivot ≤ 0)%Z) as Hleft3.
  { intros k x Hk. rewrite Hframe3 by lia.
    by apply (range_transfer (λ x, (compare x pivot ≤ 0)%Z) r1 r2 low p); [lia|..]. }
  assert (∀ k x, (p < k ≤ high)%Z → get r3 k = Some x → (compare pivot x ≤ 0)%Z) as Hright3.
  { intros k x Hk.
    apply (range_transfer (λ x, (compare pivot x ≤ 0)%Z) r2 r3 (p + 1) high);
      [lia|done|done| |lia].
    intros k' x' Hk'. rewrite Hframe2 by lia. apply Hright. lia. }
  intros k1 k2 x y Hk1 Hk2 Hx Hy.
  destruct (decide (k2 ≤ p)%Z).
  - rewrite Hframe3 in Hx, Hy by lia. by apply (Hsorted2 k1 k2); [lia|lia|..].
  - destruct (decide (p < k1)%Z).
    + by apply (Hsorted3 k1 k2); [lia|lia|..].
    + apply (Cmp.trans compare Hvalid x pivot y).
      * apply (Hleft3 k1); [lia|done].
      * apply (Hright3 k2); [lia|done].
Qed.

Lemma sorted_of_get arr :
  (∀ k1 k2 x y, (0 ≤ k1 < k2)%Z → (k2 ≤ Z.of_nat (length arr) - 1)%Z →
     get arr k1 = Some x → get arr k2 = Some y → (compare x y ≤ 0)%Z) →
  Arr.sorted compare arr.
Proof.
  intros Hs. apply Arr.ascending_sorted; [done|]. intros i a b Ha Hb.
  apply (Hs (Z.of_nat i) (Z.of_nat (i + 1))); rewrite ?get_of_nat; try done; [lia|].
  apply lookup_lt_Some in Hb. lia.
Qed.

(** [quickSort] returns, and what it returns is the input, sorted. *)
Lemma quickSort_correct arr :
  ∃ out, quickSort arr = Some out ∧ out ≡ₚ arr ∧ Arr.sorted compare out.
Proof.
  unfold quickSort. case_bool_decide as Hlen.
  { exists arr. split; [done|]. split; [done|]. by apply sorted_short. }
  destruct (sortRange_spec (length arr + 1) arr 0 (Z.of_nat (length arr) - 1))
    as (out & Hout & Hperm & _ & Hsorted); [lia|lia|lia|].
  exists out. split; [done|]. split; [done|].
  apply sorted_of_get. rewrite (Permutation_length Hperm). exact Hsorted.
Qed.

Lemma sort_correct arr :
  ∃ out, sort arr = Some out ∧ out ≡ₚ arr ∧ Arr.sorted compare out.
Proof.
  unfold sort. case_bool_decide; [|apply quickSort_correct].
  exists (insertionSort arr). split; [done|]. apply insertionSort_correct.
Qed.
End ValidSort.
End Sort.

(** *** [countingSort] *)

(** [for (const num of arr) count[num]++]. *)
Definition countOccurrences (arr : list Z) (count : list Z) : list Z :=
  foldl (λ count num, alter Z.succ (Z.to_nat num) count) count arr.

(** [for (let i = 1; i < count.length; i++) count[i] += count[i - 1]]. *)
Definition accumulate (count : list Z) : list Z :=
  foldl (λ count i,
           match count !! (i - 1) with
           | Some c => alter (λ v, v + c)%Z i count
           | None => count
           end)
    count (seq 1 (length count - 1)).

(** [for (let i = arr.length - 1; i >= 0; i--) { result[count[arr[i]] - 1]
    = arr[i]; count[arr[i]]--; }]; a slot of [result] not yet written is
    [None]. *)
Definition place (arr : list Z) (count : list Z) (result : list (option Z)) :
    list Z * list (option Z) :=
  foldl (λ '(count, result) i,
           match arr !! i with
           | Some num =>
               match count !! Z.to_nat num with
               | Some c => (alter Z.pred (Z.to_nat num) count,
                            <[Z.to_nat (c - 1) := Some num]> result)
               | None => (count, result)
               end
           | None => (count, result)
           end)
    (count, result) (reverse (seq 0 (length arr))).

(** [countingSort(arr)]: the length test comes first, the scan for a
    negative number second.  [new Array(max + 1)] throws a [RangeError]
    when [max + 1] is not a length, which is below [2 ^ 32]. *)
Definition countingSort (arr : list Z) : thrown + list (option Z) :=
  if bool_decide (length arr ≤ 1) then inr (Some <$> arr)
  else if existsb (λ n, bool_decide (n < 0)%Z) arr
  then inl (Error "Counting sort only works with non-negative integers")
  else
    let max := foldr Z.max 0%Z arr in
    if bool_decide (2 ^ 32 ≤ max + 1)%Z then inl (RangeError "Invalid array length")
    else
      let count := replicate (Z.to_nat (max + 1)) 0%Z in
      let result := replicate (length arr) None in
      let count := countOccurrences arr count in
      let count := accumulate count in
      inr (place arr count result).2.

(** With two elements or more, a negative one is reported. *)
Lemma countingSort_negative (arr : list Z) :
  2 ≤ length arr → Exists (λ n, (n < 0)%Z) arr →
  countingSort arr = inl (Error "Counting sort only works with non-negative integers").
Proof.
  intros Hlen Hneg. unfold countingSort. rewrite bool_decide_eq_false_2 by lia.
  assert (existsb (λ n, bool_decide (n < 0)%Z) arr = true) as ->; [|done].
  apply existsb_exists. apply Exists_exists in Hneg as (n & Hin & Hn).
  exists n. split; [by apply list_elem_of_In|by apply bool_decide_eq_true].
Qed.

(** With two elements or more and none negative, an element of
    [2 ^ 32 - 1] or more is refused by [new Array]. *)
Lemma countingSort_range (arr : list Z) :
  2 ≤ length arr → Forall (λ n, 0 ≤ n)%Z arr → Exists (λ n, 2 ^ 32 - 1 ≤ n)%Z arr →
  countingSort arr = inl (RangeError "Invalid array length").
Proof.
  intros Hlen Hnn Hbig. unfold countingSort. rewrite bool_decide_eq_false_2 by lia.
  assert (existsb (λ n, bool_decide (n < 0)%Z) arr = false) as ->.
  { apply not_true_is_false.
    intros (n & Hin%list_elem_of_In & Hn%bool_decide_eq_true)%existsb_exists.
    pose proof (proj1 (Forall_forall _ _) Hnn n Hin). simpl in *. lia. }
  rewrite bool_decide_eq_true_2; [done|].
  clear Hlen Hnn. induction Hbig as [n arr Hn|n arr _ IH]; simpl; lia.
Qed.

(** With one element, nothing is checked. *)
Lemma countingSort_single (n : Z) : countingSort [n] = inr [Some n].
Proof. reflexivity. Qed.

(** How many elements of [l] are [v], and how many are at most [v]. *)
Definition occ (v : Z) (l : list Z) : Z :=
  Z.of_nat (length (filter (λ x, x = v) l)).

Definition upTo (v : Z) (l : list Z) : Z :=
  Z.of_nat (length (filter (λ x, (x ≤ v)%Z) l)).

Lemma occ_cons v x l : occ v (x :: l) = ((if decide (x = v) then 1 else 0) + occ v l)%Z.
Proof. unfold occ. rewrite filter_cons. case_decide; simpl; lia. Qed.

Lemma occ_app v l1 l2 : occ v (l1 ++ l2) = (occ v l1 + occ v l2)%Z.
Proof. unfold occ. rewrite filter_app, length_app. lia. Qed.

Lemma occ_nonneg v l : (0 ≤ occ v l)%Z.
Proof. unfold occ. lia. Qed.

Lemma occ_drop v l i : (occ v (drop i l) ≤ occ v l)%Z.
Proof.
  rewrite <-(take_drop i l) at 2. rewrite occ_app.
  pose proof (occ_nonneg v (take i l)). lia.
Qed.

Lemma upTo_cons v x l :
  upTo v (x :: l) = ((if decide (x ≤ v)%Z then 1 else 0) + upTo v l)%Z.
Proof. unfold upTo. rewrite filter_cons. case_decide; simpl; lia. Qed.

Lemma upTo_step v l : upTo v l = (upTo (v - 1) l + occ v l)%Z.
Proof.
  induction l as [|x l IH]; [done|].
  rewrite !upTo_cons, occ_cons, IH. repeat case_decide; lia.
Qed.

Lemma upTo_mono v w l : (v ≤ w)%Z → (upTo v l ≤ upTo w l)%Z.
Proof.
  intros Hvw. induction l as [|x l IH]; [done|].
  rewrite !upTo_cons. repeat case_decide; lia.
Qed.

Lemma upTo_negative v l : Forall (λ n, 0 ≤ n)%Z l → (v < 0)%Z → upTo v l = 0%Z.
Proof.
  intros Hl Hv. induction Hl as [|x l Hx Hl IH]; [done|].
  rewrite upTo_cons, IH. case_decide; lia.
Qed.

Lemma upTo_length v l : (upTo v l ≤ Z.of_nat (length l))%Z.
Proof. induction l as [|x l IH]; [done|]. rewrite upTo_cons. case_decide; simpl; lia. Qed.

(** [Math.max(...arr)] bounds the array. *)
Lemma max_bound (arr : list Z) x : x ∈ arr → (x ≤ foldr Z.max 0 arr)%Z.
Proof.
  induction arr as [|y arr IH]; [by intros ?%elem_of_nil|].
  intros [->|Hin]%elem_of_cons; simpl; [lia|]. specialize (IH Hin). lia.
Qed.

Lemma lookup_alter_same {A} (f : A → A) (l : list A) (i : nat) :
  alter f i l !! i = f <$> l !! i.
Proof. by rewrite list_lookup_alter, decide_True. Qed.

(** After the first loop, [count[v]] is the number of occurrences of
    [v]. *)
Lemma length_countOccurrences arr count :
  length (countOccurrences arr count) = length count.
Proof.
  revert count. induction arr as [|x arr IH]; intros count; [done|].
  unfold countOccurrences in *. simpl. by rewrite IH, length_alter.
Qed.

Lemma lookup_countOccurrences arr count (j : nat) c :
  Forall (λ n, 0 ≤ n)%Z arr → count !! j = Some c →
  countOccurrences arr count !! j = Some (c + occ (Z.of_nat j) arr)%Z.
Proof.
  intros Harr. revert count c.
  induction Harr as [|x arr Hx Harr IH]; intros count c Hc.
  { unfold countOccurrences, occ. simpl. rewrite Hc. f_equal. lia. }
  unfold countOccurrences in *. simpl. rewrite occ_cons.
  destruct (decide (Z.to_nat x = j)) as [<-|Hne].
  - rewrite (IH _ (Z.succ c)) by (by rewrite lookup_alter_same, Hc).
    rewrite decide_True by lia. f_equal. lia.
  - rewrite (IH _ c) by (by rewrite list_lookup_alter_ne).
    rewrite decide_False by lia. f_equal.
Qed.

(** After the second loop, [count[v]] is the number of elements at most
    [v]. *)
Lemma accumulate_spec arr count :
  Forall (λ n, 0 ≤ n)%Z arr → 0 < length count →
  (∀ j, j < length count → count !! j = Some (occ (Z.of_nat j) arr)) →
  length (accumulate count) = length count ∧
  ∀ j, j < length count → accumulate count !! j = Some (upTo (Z.of_nat j) arr).
Proof.
  intros Harr Hlen Hcount. unfold accumulate.
  set (body := λ (count : list Z) (i : nat),
         match count !! (i - 1) with
         | Some c => alter (λ v : Z, (v + c)%Z) i count
         | None => count
         end).
  assert (∀ m, m < length count →
               length (foldl body count (seq 1 m)) = length count ∧
               ∀ j, j < length count →
                    foldl body count (seq 1 m) !! j =
                      Some (if decide (j ≤ m) then upTo (Z.of_nat j) arr
                            else occ (Z.of_nat j) arr)) as Hloop.
  { induction m as [|m IH]; intros Hm.
    - split; [done|]. intros j Hj. simpl. rewrite Hcount by done. f_equal.
      case_decide; [|done]. assert (j = 0) as -> by lia.
      change (Z.of_nat 0) with 0%Z.
      rewrite (upTo_step 0), upTo_negative by (done || lia). lia.
    - destruct IH as [IHlen IH]; [lia|].
      rewrite seq_S, foldl_app. simpl. unfold body at 1 3.
      replace (S m - 1) with m by lia.
      rewrite (IH m) by lia. rewrite decide_True by lia.
      split; [by rewrite length_alter|]. intros j Hj.
      destruct (decide (j = S m)) as [->|Hne].
      + rewrite lookup_alter_same, IH by lia. simpl.
        rewrite decide_False, decide_True by lia. f_equal.
        rewrite (upTo_step (Z.of_nat (S m))).
        replace (Z.of_nat (S m) - 1)%Z with (Z.of_nat m) by lia. lia.
      + rewrite list_lookup_alter_ne, IH by done. f_equal.
        repeat case_decide; done || lia. }
  destruct (Hloop (length count - 1)) as [Hl Hj]; [lia|]. split; [done|].
  intros j Hlt. rewrite Hj by done. by rewrite decide_True by lia.
Qed.

(** Writing a slot that was empty adds one element to the written part of
    the result. *)
Lemma omap_insert_empty (result : list (option Z)) (p : nat) (x : Z) :
  result !! p = Some None →
  omap id (<[p := Some x]> result) ≡ₚ x :: omap id result.
Proof.
  revert p. induction result as [|o result IH]; intros [|p] Hp; simplify_eq/=; [done|].
  destruct o; rewrite IH by done; [apply Permutation_swap|done].
Qed.

Lemma length_omap_id (result : list (option Z)) :
  length (omap id result) ≤ length result.
Proof. induction result as [|[x|] result IH]; [done|..]; cbn [omap list_omap id length]; lia. Qed.

Lemma omap_id_full (result : list (option Z)) :
  length (omap id result) = length result → result = Some <$> omap id result.
Proof.
  induction result as [|[x|] result IH];
    cbn [omap list_omap id length fmap list_fmap]; intros Hlen; [done| |].
  - f_equal. apply IH. lia.
  - pose proof (length_omap_id result). lia.
Qed.

(** The state of the third loop once the elements from index [i] on have
    been placed: every counter has come down by the number of its elements
    placed, every written slot lies in the run of its value, and the
    written slots hold the elements placed. *)
Record placed (arr : list Z) (i : nat) (count : list Z) (result : list (option Z)) :
    Prop := {
  placed_counters : length count = Z.to_nat (foldr Z.max 0%Z arr + 1);
  placed_slots : length result = length arr;
  placed_count : ∀ j, j < length count →
    count !! j = Some (upTo (Z.of_nat j) arr - occ (Z.of_nat j) (drop i arr))%Z;
  placed_run : ∀ (p : nat) v, result !! p = Some (Some v) →
    (upTo v arr - occ v (drop i arr) ≤ Z.of_nat p < upTo v arr)%Z;
  placed_perm : omap id result ≡ₚ drop i arr
}.

(** One iteration of the third loop. *)
Lemma place_step arr i num count result :
  Forall (λ n, 0 ≤ n)%Z arr → arr !! i = Some num → placed arr (S i) count result →
  ∃ c, count !! Z.to_nat num = Some c ∧
       placed arr i (alter Z.pred (Z.to_nat num) count)
         (<[Z.to_nat (c - 1) := Some num]> result).
Proof.
  intros Harr Hi [Hcounters Hslots Hcount Hrun Hperm].
  pose proof (Forall_lookup_1 _ _ _ _ Harr Hi) as Hnum. simpl in Hnum.
  pose proof (max_bound arr num (list_elem_of_lookup_2 _ _ _ Hi)) as Hmax.
  assert (Z.to_nat num < length count) as Hj0 by lia.
  pose proof (Hcount _ Hj0) as Hc. rewrite Z2Nat.id in Hc by done.
  remember (upTo num arr - occ num (drop (S i) arr))%Z as c eqn:Hcdef.
  pose proof (occ_nonneg num (drop (S i) arr)) as Hpos.
  pose proof (drop_S _ _ _ Hi) as Hdrop.
  assert (∀ v, occ v (drop i arr) =
               ((if decide (num = v) then 1 else 0) + occ v (drop (S i) arr))%Z) as Hocc
    by (intros v; by rewrite Hdrop, occ_cons).
  pose proof (occ_drop num arr i) as Hle. rewrite (Hocc num), decide_True in Hle by done.
  pose proof (upTo_step num arr) as Hstep.
  assert (0 ≤ upTo (num - 1) arr)%Z by (unfold upTo; lia).
  pose proof (upTo_length num arr) as Hlen.
  assert (Z.to_nat (c - 1) < length result) as Hp0 by lia.
  exists c. split; [done|]. split.
  - by rewrite length_alter.
  - by rewrite length_insert.
  - intros j Hj. rewrite length_alter in Hj. rewrite Hocc.
    destruct (decide (j = Z.to_nat num)) as [->|Hne].
    + rewrite lookup_alter_same, Hc. simpl. rewrite Z2Nat.id, decide_True by done.
      f_equal. lia.
    + rewrite list_lookup_alter_ne, Hcount by done.
      rewrite decide_False by lia. f_equal; lia.
  - intros p v Hp. rewrite Hocc.
    destruct (decide (p = Z.to_nat (c - 1))) as [->|Hne].
    + rewrite list_lookup_insert_eq in Hp by done. injection Hp as <-.
      rewrite decide_True by done. lia.
    + rewrite list_lookup_insert_ne in Hp by done. apply Hrun in Hp.
      case_decide; lia.
  - rewrite Hdrop, omap_insert_empty; [by rewrite Hperm|].
    destruct (lookup_lt_is_Some_2 result (Z.to_nat (c - 1)) Hp0) as [[v|] Hv]; [|done].
    exfalso. apply Hrun in Hv.
    destruct (Z.lt_trichotomy v num) as [Hlt|[->|Hgt]].
    + pose proof (upTo_mono v (num - 1) arr ltac:(lia)). lia.
    + lia.
    + pose proof (occ_drop v arr (S i)). pose proof (upTo_step v arr).
      pose proof (upTo_mono num (v - 1) arr ltac:(lia)). lia.
Qed.

Lemma omap_replicate_None (n : nat) : omap id (replicate n (@None Z)) = [].
Proof. induction n as [|n IH]; [done|exact IH]. Qed.

(** The third loop, down to index [i]. *)
Lemma place_loop arr count0 :
  Forall (λ n, 0 ≤ n)%Z arr →
  placed arr (length arr) count0 (replicate (length arr) None) →
  ∀ k i, i + k = length arr →
    let body := λ '(count, result) i,
      match arr !! i with
      | Some num =>
          match count !! Z.to_nat num with
          | Some c => (alter Z.pred (Z.to_nat num) count,
                       <[Z.to_nat (c - 1) := Some num]> result)
          | None => (count, result)
          end
      | None => (count, result)
      end in
    let s := foldl body (count0, replicate (length arr) None) (reverse (seq i k)) in
    placed arr i s.1 s.2.
Proof.
  intros Harr Hinit. induction k as [|k IH]; intros i Hik body.
  { simpl. by replace i with (length arr) by lia. }
  cbn [seq]. rewrite reverse_cons, foldl_app. cbn [foldl].
  specialize (IH (S i) ltac:(lia)). simpl in IH. fold body in IH.
  destruct (foldl body _ (reverse (seq (S i) k))) as [count result]. simpl in IH.
  destruct (lookup_lt_is_Some_2 arr i) as [num Hnum]; [lia|].
  destruct (place_step arr i num count result Harr Hnum IH) as (c & Hc & Hplaced).
  unfold body. by rewrite Hnum, Hc.
Qed.

(** [countingSort] sorts the arrays of non-negative integers below
    [2 ^ 32 - 1]. *)
Lemma countingSort_sorts (arr : list Z) :
  Forall (λ n, 0 ≤ n < 2 ^ 32 - 1)%Z arr →
  ∃ out, countingSort arr = inr (Some <$> out) ∧ out ≡ₚ arr ∧ Arr.sorted Cmp.numeric out.
Proof.
  intros Hrange.
  assert (Forall (λ n, 0 ≤ n)%Z arr) as Harr by (eapply Forall_impl; [done|]; simpl; lia).
  unfold countingSort. case_bool_decide as Hshort.
  { exists arr. split; [done|]. split; [done|].
    destruct arr as [|x [|y arr]]; [constructor|repeat constructor|simpl in *; lia]. }
  assert (existsb (λ n, bool_decide (n < 0)%Z) arr = false) as ->.
  { apply not_true_is_false. intros (n & Hin%list_elem_of_In & Hn%bool_decide_eq_true)%existsb_exists.
    pose proof (proj1 (Forall_forall _ _) Harr n Hin). simpl in *. lia. }
  rewrite bool_decide_eq_false_2.
  2:{ assert (foldr Z.max 0 arr < 2 ^ 32 - 1)%Z; [|lia].
      clear Hshort Harr. induction Hrange as [|n arr Hn _ IH]; simpl; lia. }
  set (K := Z.to_nat (foldr Z.max 0%Z arr + 1)).
  assert (0 < K) as HK.
  { subst K. assert (0 ≤ foldr Z.max 0 arr)%Z; [|lia].
    clear. induction arr; simpl; lia. }
  pose proof (accumulate_spec arr (countOccurrences arr (replicate K 0%Z)) Harr) as Hacc.
  rewrite length_countOccurrences, length_replicate in Hacc.
  destruct Hacc as [Hlen Hcount]; [done| |].
  { intros j Hj. rewrite (lookup_countOccurrences arr _ j 0) by
      (done || by apply lookup_replicate). f_equal; lia. }
  set (count := accumulate _) in *.
  assert (placed arr (length arr) count (replicate (length arr) None)) as Hinit.
  { split.
    - done.
    - by rewrite length_replicate.
    - intros j Hj. rewrite Hcount by lia. rewrite drop_all. f_equal. unfold occ. simpl; lia.
    - by intros p v [? _]%lookup_replicate.
    - by rewrite drop_all, omap_replicate_None. }
  pose proof (place_loop arr count Harr Hinit (length arr) 0 eq_refl) as Hfinal.
  simpl in Hfinal. unfold place.
  destruct (foldl _ _ (reverse (seq 0 (length arr)))) as [count' result].
  simpl in Hfinal. destruct Hfinal as [_ Hslots _ Hrun Hperm]. simpl.
  rewrite drop_0 in Hperm.
  assert (result = Some <$> omap id result) as Hfull
    by (apply omap_id_full; rewrite Hperm; done).
  exists (omap id result). split; [by f_equal|]. split; [done|].
  apply Arr.ascending_sorted; [apply Cmp.numeric_valid|].
  intros p a b Ha Hb. unfold Cmp.numeric.
  assert (result !! p = Some (Some a)) as Hpa by (by rewrite Hfull, list_lookup_fmap, Ha).
  assert (result !! (p + 1) = Some (Some b)) as Hpb
    by (by rewrite Hfull, list_lookup_fmap, Hb).
  apply Hrun in Hpa, Hpb. rewrite drop_0 in Hpa, Hpb.
  destruct (Z_le_gt_dec a b) as [|Hgt]; [lia|].
  pose proof (upTo_step a arr). pose proof (upTo_mono b (a - 1) arr ltac:(lia)). lia.
Qed.

(** *** The functions as the caller sees them *)

Section Calls.
Context {T : Type}.

(** A sorting function receives a reference to [arr], works on arrays of
    its own and returns a reference to a new array.  [None] stands for a
    run that leaves the model (see [quickSort]). *)
Definition call (f : list T → option (list T)) (arr : loc) : M T (option loc) :=
  a ← getArr arr;
  match f a with
  | Some out => l ← alloc out; mret (Some l)
  | None => mret None
  end.

Context (compare : T → T → Z).

Definition quickSortM : loc → M T (option loc) := call (quickSort compare).
Definition mergeSortM : loc → M T (option loc) := call (λ a, Some (mergeSort compare a)).
Definition heapSortM : loc → M T (option loc) := call (λ a, Some (heapSort compare a)).
Definition insertionSortM : loc → M T (option loc) :=
  call (λ a, Some (insertionSort compare a)).
Definition sortM : loc → M T (option loc) := call (sort compare).

(** The call returns a new array that is sorted and a permutation of the
    argument, and the argument is as it was. *)
Definition sortsCorrectly (fM : loc → M T (option loc)) : Prop :=
  ∀ (σ : gmap loc (list T)) (arr : loc) (a : list T),
    σ !! arr = Some a →
    ∃ l out σ',
      fM arr σ = (inr (Some l), σ') ∧
      σ' !! l = Some out ∧
      isSorted compare out = true ∧
      out ≡ₚ a ∧
      σ' !! arr = Some a.

Lemma call_correct (f : list T → option (list T)) :
  (∀ a, ∃ out, f a = Some out ∧ out ≡ₚ a ∧ Arr.sorted compare out) →
  sortsCorrectly (call f).
Proof.
  intros Hf σ arr a Ha. destruct (Hf a) as (out & Hout & Hperm & Hsorted).
  exists (fresh (dom σ)), out, (<[fresh (dom σ) := out]> σ).
  split.
  { unfold call. run_M. rewrite Ha. cbn [from_option]. unfold id. by rewrite Hout. }
  split; [by rewrite lookup_insert_eq|].
  split; [by apply isSorted_sorted|]. split; [done|].
  by rewrite lookup_insert_ne by (by eapply fresh_ne).
Qed.
End Calls.

(** *** Stability of [mergeSort] and [insertionSort] *)

Section Stability.
Context {T : Type} (compare : T → T → Z).
Hypothesis Hvalid : Cmp.valid compare.
Implicit Types arr result : list T.

(** The elements of [arr] that tie with [x], in the order of [arr]. *)
Definition ties (x : T) arr : list T := filter (λ y, compare y x = 0%Z) arr.

Lemma ties_app x arr1 arr2 : ties x (arr1 ++ arr2) = ties x arr1 ++ ties x arr2.
Proof. apply filter_app. Qed.

Lemma ties_none x arr : Forall (λ z, compare z x ≠ 0%Z) arr → ties x arr = [].
Proof.
  unfold ties. induction 1 as [|z arr Hz _ IH]; [done|].
  by rewrite filter_cons_False.
Qed.

(** An element that comes strictly after one that ties with [x] does not
    tie with [x]. *)
Lemma after_tie x y z :
  compare y x = 0%Z → (0 < compare z y)%Z → compare z x ≠ 0%Z.
Proof.
  intros Hy Hzy Hz.
  pose proof (Cmp.eq_sym compare y x Hvalid Hy) as Hxy.
  assert (compare z y ≤ 0)%Z by (apply (Cmp.trans compare Hvalid z x y); lia).
  lia.
Qed.

(** The merge keeps the elements of the left run that tie with [x] before
    those of the right run. *)
Lemma mergeLoop_ties x (leftRun rightRun : list T) i j result :
  Arr.sorted compare leftRun →
  ties x (mergeLoop compare leftRun rightRun i j result) =
    ties x result ++ ties x (drop i leftRun) ++ ties x (drop j rightRun).
Proof.
  intros Hl.
  remember (length leftRun - i + (length rightRun - j)) as m eqn:Hm.
  revert i j result Hm. induction m as [m IH] using lt_wf_ind.
  intros i j result ->. rewrite mergeLoop_eq.
  destruct (leftRun !! i) as [a|] eqn:Ha; [|by rewrite !ties_app].
  destruct (rightRun !! j) as [b|] eqn:Hb; [|by rewrite !ties_app].
  pose proof (lookup_lt_Some _ _ _ Ha). pose proof (lookup_lt_Some _ _ _ Hb).
  destruct (decide (compare a b ≤ 0)%Z) as [Hab|Hab].
  - rewrite (IH (length leftRun - (i + 1) + (length rightRun - j))) by (done || lia).
    rewrite (drop_S leftRun a i Ha), Nat.add_1_r.
    rewrite ties_app, <-!app_assoc. f_equal.
    change (a :: drop (S i) leftRun) with ([a] ++ drop (S i) leftRun).
    by rewrite ties_app, <-app_assoc.
  - rewrite (IH (length leftRun - i + (length rightRun - (j + 1)))) by (done || lia).
    rewrite (drop_S rightRun b j Hb), Nat.add_1_r.
    rewrite ties_app, <-!app_assoc. f_equal.
    change (b :: drop (S j) rightRun) with ([b] ++ drop (S j) rightRun).
    rewrite (ties_app x [b]).
    destruct (decide (compare b x = 0%Z)) as [Hbx|Hbx].
    + rewrite (ties_none x (drop i leftRun)); [done|].
      apply Forall_forall. intros z [k Hz]%list_elem_of_lookup.
      rewrite lookup_drop in Hz. apply (after_tie x b z Hbx).
      assert (compare a z ≤ 0)%Z as Haz.
      { destruct (decide (k = 0)) as [->|].
        - rewrite Nat.add_0_r in Hz. same_lookup. by apply Cmp.refl.
        - eapply (Arr.sorted_lookup compare leftRun i (i + k)); eauto. lia. }
      destruct (Z_lt_le_dec 0 (compare z b)) as [|Hzb]; [done|].
      pose proof (Cmp.trans compare Hvalid a z b Haz Hzb). lia.
    + assert (ties x [b] = []) as -> by (unfold ties; by rewrite filter_cons_False).
      done.
Qed.

Lemma mergeSort_ties x arr : ties x (mergeSort compare arr) = ties x arr.
Proof.
  remember (length arr) as n eqn:Hn. revert arr Hn.
  induction n as [n IH] using lt_wf_ind. intros arr ->.
  rewrite mergeSort_eq. destruct (decide (length arr ≤ 1)); [done|].
  assert (0 < length arr / 2 < length arr)
    by (split; [apply Nat.div_str_pos|apply Nat.div_lt]; lia).
  unfold merge. rewrite mergeLoop_ties by (by apply mergeSort_sorted).
  rewrite !drop_0.
  rewrite (IH (length (take (length arr / 2) arr))), (IH (length (drop (length arr / 2) arr)));
    try done; rewrite ?length_take, ?length_drop; try lia.
  cbn [app ties filter]. rewrite <-ties_app. by rewrite take_drop.
Qed.

(** The inner loop of [insertionSort] moves [key] to the left past
    elements that come strictly after it, and past no other. *)
Lemma shift_split key (k : nat) : ∀ (p : list T) (h : T) (t : list T),
  length p = k →
  ∃ p1 p2, p = p1 ++ p2 ∧
           shift compare (p ++ h :: t) key k = p1 ++ key :: p2 ++ t ∧
           Forall (λ z, 0 < compare z key)%Z p2.
Proof.
  induction k as [|j IH]; intros p h t Hp.
  { destruct p; [|done]. by exists [], []. }
  assert (p = [] ∨ ∃ p' x, p = p' ++ [x]) as [->|(p' & x & ->)]
    by (induction p using rev_ind; eauto); [done|].
  rewrite length_app in Hp. simpl in Hp.
  assert (length p' = j) as Hp' by lia.
  cbn [shift]. rewrite <-app_assoc. cbn [app].
  rewrite (list_lookup_middle p' (h :: t) x j) by done.
  replace (S j) with (length p' + 1) by lia.
  case_bool_decide as Hgt.
  - assert (<[length p' + 1 := x]> (p' ++ x :: h :: t) = p' ++ x :: x :: t) as ->.
    { rewrite insert_app_r_alt by lia.
      by replace (length p' + 1 - length p') with 1 by lia. }
    destruct (IH p' x (x :: t) Hp') as (p1 & p2 & -> & Hshift & Hall).
    exists p1, (p2 ++ [x]). rewrite Hshift.
    split; [by rewrite app_assoc|]. split; [by rewrite <-!app_assoc|].
    apply Forall_app. split; [done|]. by apply Forall_singleton.
  - exists (p' ++ [x]), []. split; [by rewrite app_nil_r|]. split; [|done].
    rewrite insert_app_r_alt by lia.
    replace (length p' + 1 - length p') with 1 by lia. by rewrite <-app_assoc.
Qed.

Lemma shift_ties x key (p : list T) (h : T) (t : list T) :
  ties x (shift compare (p ++ h :: t) key (length p)) = ties x (p ++ key :: t).
Proof.
  destruct (shift_split key (length p) p h t eq_refl) as (p1 & p2 & -> & -> & Hall).
  rewrite <-!app_assoc, !ties_app. f_equal.
  change (key :: p2 ++ t) with ([key] ++ p2 ++ t).
  change (key :: t) with ([key] ++ t). rewrite !ties_app.
  destruct (decide (compare key x = 0%Z)) as [Hk|Hk].
  - rewrite (ties_none x p2); [done|].
    eapply Forall_impl; [done|]. intros z Hz. by apply (after_tie x key z).
  - assert (ties x [key] = []) as -> by (unfold ties; by rewrite filter_cons_False).
    done.
Qed.

Lemma insert_loop_ties x (m : nat) : ∀ (a : nat) result,
  a + m = length result →
  ∃ out, forLoop (insertBody compare) (seq a m) result = inl out ∧
         length out = length result ∧ ties x out = ties x result.
Proof.
  induction m as [|m IH]; intros a result Hlen; [by exists result|].
  cbn [seq forLoop]. unfold insertBody at 1.
  destruct (lookup_lt_is_Some_2 result a) as [key Hkey]; [lia|]. rewrite Hkey.
  pose proof (take_drop_middle result a key Hkey) as Hsplit.
  assert (length (take a result) = a) as Ha by (rewrite length_take; lia).
  pose proof (shift_ties x key (take a result) key (drop (S a) result)) as Hties.
  rewrite Hsplit, Ha in Hties.
  destruct (shift_split key a (take a result) key (drop (S a) result) Ha)
    as (p1 & p2 & Hp & Hshift & _).
  rewrite Hsplit in Hshift.
  assert (length (shift compare result key a) = length result) as Hl.
  { rewrite Hshift. rewrite <-Hsplit at 2. rewrite Hp.
    rewrite !length_app. simpl. rewrite !length_app. lia. }
  destruct (IH (S a) (shift compare result key a)) as (out & Hout & Hlo & Hto); [lia|].
  exists out. split; [done|]. split; [lia|]. by rewrite Hto, Hties.
Qed.

Lemma insertionSort_ties x arr : ties x (insertionSort compare arr) = ties x arr.
Proof.
  unfold insertionSort. destruct arr as [|a arr]; [done|].
  destruct (insert_loop_ties x (length (a :: arr) - 1) 1 (a :: arr)) as (out & -> & _ & Ht);
    [simpl; lia|done].
Qed.
End Stability.

(** *** One sorted arrangement of integers *)

(** Under the default comparator two sorted arrays with the same elements
    are the same array. *)
Lemma numeric_sorted_unique (l1 l2 : list Z) :
  Arr.sorted Cmp.numeric l1 → Arr.sorted Cmp.numeric l2 → l1 ≡ₚ l2 → l1 = l2.
Proof.
  apply StronglySorted_unique_strong.
  intros a b _ _. unfold Cmp.numeric. lia.
Qed.

End Sorting.


(** ** The searching suite: [class Searching] *)

Module Searching.

(** [SearchResult<T>]: [element] is [None] for [undefined], [index] is [-1]
    when nothing is found. *)
Record SearchResult (T : Type) := {
  element : option T;
  index : Z;
  comparisons : nat
}.
Arguments element {T} _.
Arguments index {T} _.
Arguments comparisons {T} _.

(** [{ element: undefined, index: -1, comparisons }]. *)
Definition notFound {T} (comparisons : nat) : SearchResult T :=
  {| element := None; index := -1; comparisons := comparisons |}.

Section Search.
Context {T : Type} (compare : T → T → Z).
Implicit Types arr : list T.

(** The validation loop of [binarySearch] and [jumpSearch], and the routing
    scan of [search]:
    [for (i = 1; i < arr.length; i++) if (compare(arr[i - 1], arr[i]) > 0) ...].
    The state counts the comparator calls made so far; the loop leaves at
    the first descent. *)
Definition scanBody arr (i : nat) (calls : nat) : nat + nat :=
  match arr !! (i - 1), arr !! i with
  | Some a, Some b => if bool_decide (0 < compare a b)%Z then inr (calls + 1) else inl (calls + 1)
  | _, _ => inl (calls + 1)
  end.

Definition sortedScan arr : nat + nat := forLoop (scanBody arr) (seq 1 (length arr - 1)) 0.

(** The probing loop of [binarySearch]; [lo] and [hi] are its [left] and
    [right].  A probe out of range would compare [undefined]; the bounds
    exclude it, and the model then takes the [else] branch. *)
Equations? binaryLoop arr (target : T) (lo hi : Z) (comparisons : nat) :
    SearchResult T by wf (Z.to_nat (hi - lo + 1)) lt :=
  binaryLoop arr target lo hi comparisons with decide (lo ≤ hi)%Z => {
    | right _ := notFound comparisons;
    | left Hle with get arr (lo + (hi - lo) / 2) => {
        | Some x with Z_dec' (compare x target) 0 => {
            | inright _ :=
                {| element := Some x; index := lo + (hi - lo) / 2;
                   comparisons := comparisons + 1 |};
            | inleft (left _) :=
                binaryLoop arr target (lo + (hi - lo) / 2 + 1) hi (comparisons + 1);
            | inleft (right _) :=
                binaryLoop arr target lo (lo + (hi - lo) / 2 - 1) (comparisons + 1) };
        | None :=
            binaryLoop arr target lo (lo + (hi - lo) / 2 - 1) (comparisons + 1) } }.
Proof.
  all: assert (0 ≤ (hi - lo) / 2 ≤ hi - lo)%Z
    by (split; [apply Z.div_pos; lia|apply Z.div_le_upper_bound; lia]); lia.
Qed.

(** [binarySearch(arr, target, compare)], with the number of comparator
    calls it makes. *)
Definition binarySearchCounted arr (target : T) : (thrown + SearchResult T) * nat :=
  match sortedScan arr with
  | inr calls => (inl (Error "Array must be sorted for binary search"), calls)
  | inl calls =>
      let r := binaryLoop arr target 0 (Z.of_nat (length arr) - 1) 0 in
      (inr r, calls + comparisons r)
  end.

Definition binarySearch arr (target : T) : thrown + SearchResult T :=
  (binarySearchCounted arr target).1.

(** [linearSearch(arr, target, compare)]. *)
Definition linearBody arr (target : T) (i : nat) (comparisons : nat) :
    nat + SearchResult T :=
  let comparisons := comparisons + 1 in
  match arr !! i with
  | Some x =>
      if bool_decide (compare x target = 0%Z)
      then inr {| element := Some x; index := Z.of_nat i; comparisons := comparisons |}
      else inl comparisons
  | None => inl comparisons
  end.

Definition linearSearch arr (target : T) : SearchResult T :=
  match forLoop (linearBody arr target) (seq 0 (length arr)) 0 with
  | inr r => r
  | inl comparisons => notFound comparisons
  end.

(** [jumpSearch]: the loop that finds the block,
    [while (compare(arr[Math.min(step, n) - 1], target) < 0) { comparisons++;
    prev = step; step += Math.floor(Math.sqrt(n)); if (prev >= n) return ... }].
    It returns from the function ([inl]) or falls through with [prev],
    [step] and [comparisons] ([inr]).  On the empty array the read is
    [arr[-1]], [undefined], on which the test of the loop is false for the
    default comparator ([undefined - target] is [NaN]). *)
Equations? jumpBlocks arr (target : T) (prev step : Z) (comparisons : nat) :
    SearchResult T + (Z * Z * nat)
    by wf (Z.to_nat (Z.of_nat (length arr) - step)) lt :=
  jumpBlocks arr target prev step comparisons
    with inspect (get arr (Z.min step (Z.of_nat (length arr)) - 1)) => {
    | exist _ None _ := inr (prev, step, comparisons);
    | exist _ (Some x) Hx with decide (compare x target < 0)%Z => {
        | right _ := inr (prev, step, comparisons);
        | left _ with decide (Z.of_nat (length arr) ≤ step)%Z => {
            | left _ := inl (notFound (comparisons + 1));
            | right _ :=
                jumpBlocks arr target step (step + Z.sqrt (Z.of_nat (length arr)))
                  (comparisons + 1) } } }.
Proof.
  unfold get in Hx. case_bool_decide; [|done].
  assert (0 < Z.sqrt (Z.of_nat (length arr)))%Z by (apply Z.sqrt_pos; lia). lia.
Qed.

(** [jumpSearch]: the scan inside the block,
    [while (compare(arr[prev], target) < 0) { comparisons++; prev++;
    if (prev === Math.min(step, n)) return ... }]. *)
Equations? jumpScan arr (target : T) (bound prev : Z) (comparisons : nat) :
    SearchResult T + (Z * nat)
    by wf (Z.to_nat (Z.of_nat (length arr) - prev)) lt :=
  jumpScan arr target bound prev comparisons with inspect (get arr prev) => {
    | exist _ None _ := inr (prev, comparisons);
    | exist _ (Some x) Hx with decide (compare x target < 0)%Z => {
        | right _ := inr (prev, comparisons);
        | left _ with decide (prev + 1 = bound)%Z => {
            | left _ := inl (notFound (comparisons + 1));
            | right _ := jumpScan arr target bound (prev + 1) (comparisons + 1) } } }.
Proof.
  unfold get in Hx. case_bool_decide; [|done]. apply lookup_lt_Some in Hx. lia.
Qed.

(** [jumpSearch(arr, target, compare)]. *)
Definition jumpSearch arr (target : T) : thrown + SearchResult T :=
  let n := Z.of_nat (length arr) in
  let step := Z.sqrt n in
  match sortedScan arr with
  | inr _ => inl (Error "Array must be sorted for jump search")
  | inl _ =>
      match jumpBlocks arr target 0 step 0 with
      | inl r => inr r
      | inr (prev, step, comparisons) =>
          match jumpScan arr target (Z.min step n) prev comparisons with
          | inl r => inr r
          | inr (prev, comparisons) =>
              let comparisons := comparisons + 1 in
              match get arr prev with
              | Some x =>
                  if bool_decide (compare x target = 0%Z)
                  then inr {| element := Some x; index := prev; comparisons := comparisons |}
                  else inr (notFound comparisons)
              | None => inr (notFound comparisons)
              end
          end
      end
  end.

(** [exponentialSearch]: the doubling loop,
    [while (i < arr.length && compare(arr[i], target) <= 0) { comparisons++;
    i *= 2 }]; [i] starts at 1 and stays positive. *)
Equations? doubling arr (target : T) (i : positive) (comparisons : nat) : positive * nat
    by wf (Z.to_nat (Z.of_nat (length arr) - Z.pos i)) lt :=
  doubling arr target i comparisons with decide (Z.pos i < Z.of_nat (length arr))%Z => {
    | right _ := (i, comparisons);
    | left Hi with get arr (Z.pos i) => {
        | None := (i, comparisons);
        | Some x with decide (compare x target ≤ 0)%Z => {
            | right _ := (i, comparisons);
            | left _ := doubling arr target (i * 2)%positive (comparisons + 1) } } }.
Proof. lia. Qed.

(** [arr.slice(start, end)] for [0 <= start]. *)
Definition slice arr (start stop : Z) : list T :=
  take (Z.to_nat (stop - start)) (drop (Z.to_nat start) arr).

(** [exponentialSearch(arr, target, compare)].  [i / 2] is [0.5] when the
    doubling loop does not run; [slice] truncates it to 0, and the sum
    [i / 2 + result.index] is then never taken, for the slice is [[arr[0]]]
    and [arr[0]] has just been found different from [target]. *)
Definition exponentialSearch arr (target : T) : thrown + SearchResult T :=
  let comparisons := 0 in
  if bool_decide (length arr = 0) then inr (notFound comparisons)
  else
    let comparisons := comparisons + 1 in
    match arr !! 0 with
    | Some x =>
        if bool_decide (compare x target = 0%Z)
        then inr {| element := Some x; index := 0; comparisons := comparisons |}
        else
          let '(i, comparisons) := doubling arr target 1 comparisons in
          let i := Z.pos i in
          match binarySearch (slice arr (i / 2) (Z.min i (Z.of_nat (length arr)))) target with
          | inl e => inl e
          | inr result =>
              inr {| element := element result;
                     index := if element result is Some _ then i / 2 + index result else -1;
                     comparisons := comparisons + Searching.comparisons result |}
          end
    | None => inr (notFound comparisons)
    end.
(** *** What a search is to return *)

(** What a result says about the array: it names a slot that matches the
    target, or it names none. *)
Definition found arr (target : T) (r : SearchResult T) : Prop :=
  ∃ (i : nat) x, index r = Z.of_nat i ∧ element r = Some x ∧
                 arr !! i = Some x ∧ compare x target = 0%Z.

Definition missed (r : SearchResult T) : Prop :=
  element r = None ∧ index r = (-1)%Z.

(** [target] is somewhere in [arr], up to the comparator. *)
Definition present arr (target : T) : Prop :=
  ∃ (k : nat) x, arr !! k = Some x ∧ compare x target = 0%Z.

(** A search answers correctly: it names a slot that matches the target,
    or it names none and the target is nowhere in the array. *)
Definition correct arr (target : T) (r : SearchResult T) : Prop :=
  found arr target r ∨ (missed r ∧ ¬ present arr target).

(** Every slot before [p] holds an element that precedes the target. *)
Definition below arr (target : T) (p : Z) : Prop :=
  ∀ (i : nat) x, (Z.of_nat i < p)%Z → arr !! i = Some x → (compare x target < 0)%Z.

End Search.

(** [interpolationSearch(arr, target)], on numbers.  The loop runs while
    [low <= high && target >= arr[low] && target <= arr[high]]. *)
Definition inWindow (arr : list Z) (target low high : Z) : option (Z * Z) :=
  if bool_decide (low ≤ high)%Z then
    match get arr low, get arr high with
    | Some a, Some b =>
        if bool_decide (a ≤ target)%Z && bool_decide (target ≤ b)%Z then Some (a, b) else None
    | _, _ => None
    end
  else None.

Lemma inWindow_Some arr target low high a b :
  inWindow arr target low high = Some (a, b) →
  (low ≤ high ∧ a ≤ target ≤ b)%Z ∧ get arr low = Some a ∧ get arr high = Some b.
Proof.
  unfold inWindow. case_bool_decide; [|done].
  destruct (get arr low), (get arr high); try done.
  destruct (bool_decide (_ ≤ target)%Z) eqn:H1; [|done].
  destruct (bool_decide (target ≤ _)%Z) eqn:H2; [|done].
  apply bool_decide_eq_true in H1, H2. intros [= <- <-]. auto with lia.
Qed.

(** The probe position, [low + Math.floor(((high - low) * (target -
    arr[low])) / (arr[high] - arr[low]))], in the arithmetic of numbers. *)
Definition probe (target low high a b : Z) : Number.number :=
  Number.add (Number.ofZ low)
    (Number.floor
       (Number.div
          (Number.mul (Number.sub (Number.ofZ high) (Number.ofZ low))
             (Number.sub (Number.ofZ target) (Number.ofZ a)))
          (Number.sub (Number.ofZ b) (Number.ofZ a)))).

(** The loop of [interpolationSearch].  When the probe is [NaN] (on a
    plateau, [0 / 0]) or an infinity (a product past the greatest double),
    [arr[pos]] is [undefined], both tests on it are false, [high] becomes
    [NaN] or [Infinity], and the loop condition fails next: [low <= NaN] is
    false, and so is [target <= arr[Infinity]].  A finite probe is a slot
    of the window, for an array has fewer than [2 ^ 32] slots
    ([probe_range] below); the test on it stands for that bound, and makes
    the recursion well founded. *)
Equations? interpolationLoop (arr : list Z) (target low high : Z) (comparisons : nat) :
    SearchResult Z by wf (Z.to_nat (high - low + 1)) lt :=
  interpolationLoop arr target low high comparisons
    with inspect (inWindow arr target low high) => {
    | exist _ None _ := notFound comparisons;
    | exist _ (Some (a, b)) Hw with decide (low = high) => {
        | left _ :=
            if bool_decide (a = target)
            then {| element := Some a; index := low; comparisons := comparisons + 1 |}
            else notFound (comparisons + 1);
        | right _ with probe target low high a b => {
            | Number.Fin pos with decide (low ≤ Qfloor pos ≤ high)%Z => {
                | left _ with get arr (Qfloor pos) => {
                    | Some x with Z_dec' x target => {
                        | inright _ :=
                            {| element := Some x; index := Qfloor pos;
                               comparisons := comparisons + 1 |};
                        | inleft (left _) :=
                            interpolationLoop arr target (Qfloor pos + 1) high
                              (comparisons + 1);
                        | inleft (right _) :=
                            interpolationLoop arr target low (Qfloor pos - 1)
                              (comparisons + 1) };
                    | None :=
                        interpolationLoop arr target low (Qfloor pos - 1)
                          (comparisons + 1) };
                | right _ := notFound (comparisons + 1) };
            | _ := notFound (comparisons + 1) } } }.
Proof.
  all: apply inWindow_Some in Hw as ([? ?] & _ & _); lia.
Qed.

Definition interpolationSearch (arr : list Z) (target : Z) : SearchResult Z :=
  interpolationLoop arr target 0 (Z.of_nat (length arr) - 1) 0.

(** [Math.pow(x, 2)], a value the language leaves to the implementation
    to approximate; here the rounded square. *)
Definition square (x : Number.number) : Number.number := Number.mul x x.

(** [isUniformlyDistributed(arr)], in the arithmetic of numbers; the two
    [reduce] go from left to right, the first one from [diffs[0]]. *)
Definition isUniformlyDistributed (arr : list Z) : bool :=
  if bool_decide (length arr < 4) then false
  else
    let diffs :=
      zip_with (λ prev next, Number.sub (Number.ofZ next) (Number.ofZ prev))
        arr (drop 1 arr) in
    let len := Number.ofZ (Z.of_nat (length diffs)) in
    match diffs with
    | [] => false
    | first :: rest =>
        let avgDiff := Number.div (foldl Number.add first rest) len in
        let variance :=
          Number.div
            (foldl (λ a b, Number.add a (square (Number.sub b avgDiff)))
               (Number.ofZ 0) diffs)
            len in
        Number.lt variance (Number.div avgDiff (Number.ofZ 2))
    end.

Section Dispatch.
Context {T : Type} (compare : T → T → Z).
(** [asNumber x] is the number [x] is when [typeof x === "number"]. *)
Context (asNumber : T → option Z).

(** The result of [interpolationSearch] on [arr] seen as an array of
    numbers: its element is the element of [arr] at the index found. *)
Definition ofNumbers (arr : list T) (r : SearchResult Z) : SearchResult T :=
  {| element := if element r is Some _ then get arr (index r) else None;
     index := index r;
     comparisons := comparisons r |}.

(** [search(arr, target, compare)]. *)
Definition search (arr : list T) (target : T) : thrown + SearchResult T :=
  if bool_decide (length arr ≤ 10) then inr (linearSearch compare arr target)
  else
    let isSorted := if sortedScan compare arr is inl _ then true else false in
    if negb isSorted then inr (linearSearch compare arr target)
    else
      match asNumber target, mapM asNumber arr with
      | Some t, Some numbers =>
          if isUniformlyDistributed numbers
          then inr (ofNumbers arr (interpolationSearch numbers t))
          else binarySearch compare arr target
      | _, _ => binarySearch compare arr target
      end.
End Dispatch.

(** *** Facts about the suite *)

Section SearchFacts.
Context {T : Type} (compare : T → T → Z).
Implicit Types arr : list T.

(** The validation loop passes exactly on the arrays without descent, after
    one comparator call per adjacent pair. *)
Lemma scan_loop_inl arr a k calls :
  (∀ i x y, a ≤ i < a + k → arr !! (i - 1) = Some x → arr !! i = Some y →
            (compare x y ≤ 0)%Z) →
  forLoop (scanBody compare arr) (seq a k) calls = inl (calls + k).
Proof.
  revert a calls. induction k as [|k IH]; intros a calls Hasc; simpl.
  { f_equal. lia. }
  unfold scanBody at 1.
  destruct (arr !! (a - 1)) as [x|] eqn:Hx, (arr !! a) as [y|] eqn:Hy;
    try (rewrite IH; [f_equal; lia|intros; eapply Hasc; eauto; lia]).
  rewrite bool_decide_eq_false_2 by (pose proof (Hasc a x y ltac:(lia) Hx Hy); lia).
  rewrite IH; [f_equal; lia|intros; eapply Hasc; eauto; lia].
Qed.

Lemma scan_loop_inv arr a k calls calls' :
  forLoop (scanBody compare arr) (seq a k) calls = inl calls' →
  ∀ i x y, a ≤ i < a + k → arr !! (i - 1) = Some x → arr !! i = Some y →
           (compare x y ≤ 0)%Z.
Proof.
  revert a calls. induction k as [|k IH]; intros a calls Hloop i x y Hi Hx Hy; [lia|].
  simpl in Hloop. unfold scanBody at 1 in Hloop.
  destruct (decide (i = a)) as [->|Hne].
  - rewrite Hx, Hy in Hloop. case_bool_decide; [done|lia].
  - destruct (arr !! (a - 1)), (arr !! a); try case_bool_decide; try done;
      eapply (IH (S a)); eauto; lia.
Qed.

Lemma sortedScan_ascending arr :
  Arr.ascending compare arr → sortedScan compare arr = inl (length arr - 1).
Proof.
  intros Hasc. unfold sortedScan. rewrite scan_loop_inl; [done|].
  intros i x y Hi Hx Hy. eapply (Hasc (i - 1)); [done|].
  by replace (i - 1 + 1) with i by lia.
Qed.

Lemma sortedScan_inl arr calls :
  sortedScan compare arr = inl calls → Arr.ascending compare arr.
Proof.
  unfold sortedScan. intros Hscan i a b Ha Hb.
  eapply (scan_loop_inv _ _ _ _ _ Hscan (i + 1));
    [apply lookup_lt_Some in Hb; lia| |done].
  by replace (i + 1 - 1) with i by lia.
Qed.

(** One step of the probing loop. *)
Lemma binaryLoop_eq arr target lo hi comparisons :
  binaryLoop compare arr target lo hi comparisons =
    if decide (lo ≤ hi)%Z then
      match get arr (lo + (hi - lo) / 2) with
      | Some x =>
          match Z_dec' (compare x target) 0 with
          | inright _ =>
              {| element := Some x; index := lo + (hi - lo) / 2;
                 comparisons := comparisons + 1 |}
          | inleft (left _) =>
              binaryLoop compare arr target (lo + (hi - lo) / 2 + 1) hi (comparisons + 1)
          | inleft (right _) =>
              binaryLoop compare arr target lo (lo + (hi - lo) / 2 - 1) (comparisons + 1)
          end
      | None =>
          binaryLoop compare arr target lo (lo + (hi - lo) / 2 - 1) (comparisons + 1)
      end
    else notFound comparisons.
Proof.
  rewrite binaryLoop_equation_1. destruct (decide (lo ≤ hi)%Z); [|done].
  unfold binaryLoop_unfold_clause_1.
  destruct (get arr (lo + (hi - lo) / 2)); [|done].
  unfold binaryLoop_unfold_clause_1_clause_2.
  by destruct (Z_dec' _ 0) as [[?|?]|?].
Qed.

(** Each probe halves the window: a window below [2 ^ k] slots costs at
    most [k] probes. *)
Lemma binaryLoop_bound arr target (k : nat) lo hi c :
  (hi - lo + 1 < 2 ^ Z.of_nat k)%Z →
  comparisons (binaryLoop compare arr target lo hi c) ≤ c + k.
Proof.
  revert lo hi c. induction k as [|k IH]; intros lo hi c Hk; rewrite binaryLoop_eq.
  - rewrite decide_False by (simpl in Hk; lia). simpl. lia.
  - destruct (decide (lo ≤ hi)%Z) as [Hle|]; [|simpl; lia].
    rewrite Nat2Z.inj_succ, Z.pow_succ_r in Hk by lia.
    assert (0 ≤ (hi - lo) / 2)%Z by (apply Z.div_pos; lia).
    pose proof (Z.div_mod (hi - lo) 2 ltac:(lia)) as Hdm.
    pose proof (Z.mod_pos_bound (hi - lo) 2 ltac:(lia)) as Hmod.
    assert (comparisons
              (binaryLoop compare arr target (lo + (hi - lo) / 2 + 1) hi (c + 1)) ≤ c + S k)
      by (etrans; [apply IH|]; lia).
    assert (comparisons
              (binaryLoop compare arr target lo (lo + (hi - lo) / 2 - 1) (c + 1)) ≤ c + S k)
      by (etrans; [apply IH|]; lia).
    destruct (get arr _); [|done].
    destruct (Z_dec' _ 0) as [[?|?]|?]; [done|done|simpl; lia].
Qed.

(** The probing loop counts its own probes only: one per iteration. *)
Lemma binarySearchCounted_sorted arr target :
  Arr.ascending compare arr →
  ∃ r, binarySearchCounted compare arr target = (inr r, (length arr - 1) + comparisons r) ∧
       comparisons r ≤ Nat.log2_up (length arr + 1).
Proof.
  intros Hasc. unfold binarySearchCounted. rewrite sortedScan_ascending by done.
  eexists. split; [done|].
  etrans; [apply (binaryLoop_bound _ _ (Nat.log2_up (length arr + 1)))|lia].
  destruct (decide (length arr = 0)) as [->|Hn]; [simpl; lia|].
  pose proof (Nat.log2_up_spec (length arr + 1) ltac:(lia)) as [_ Hup].
  apply Nat2Z.inj_le in Hup. rewrite Nat2Z.inj_pow in Hup. simpl in Hup. lia.
Qed.

Lemma found_present arr target r : found compare arr target r → present compare arr target.
Proof. intros (i & x & _ & _ & Hx & Hz). by exists i, x. Qed.

Lemma correct_found arr target r : found compare arr target r → correct compare arr target r.
Proof. by left. Qed.

Lemma correct_missed arr target r :
  missed r → ¬ present compare arr target → correct compare arr target r.
Proof. by right. Qed.

Lemma found_not_missed arr target r : found compare arr target r → ¬ missed r.
Proof. intros (i & x & _ & He & _) [Hn _]. congruence. Qed.

(** So, when the target is there it is found, and when it is not nothing
    is reported. *)
Lemma correct_present arr target r :
  correct compare arr target r → present compare arr target → found compare arr target r.
Proof. by intros [?|[_ ?]] ?. Qed.

Lemma correct_absent arr target r :
  correct compare arr target r → ¬ present compare arr target → missed r.
Proof. intros [Hf|[? _]] Ha; [|done]. by apply found_present in Hf. Qed.

(** One step of the block loop and of the block scan of [jumpSearch], and
    of the doubling loop of [exponentialSearch]. *)
Lemma jumpBlocks_eq arr target prev step c :
  jumpBlocks compare arr target prev step c =
    match get arr (Z.min step (Z.of_nat (length arr)) - 1) with
    | None => inr (prev, step, c)
    | Some x =>
        if decide (compare x target < 0)%Z then
          if decide (Z.of_nat (length arr) ≤ step)%Z then inl (notFound (c + 1))
          else jumpBlocks compare arr target step (step + Z.sqrt (Z.of_nat (length arr)))
                 (c + 1)
        else inr (prev, step, c)
    end.
Proof.
  destruct (get arr (Z.min step (Z.of_nat (length arr)) - 1)) as [x|] eqn:E;
    rewrite jumpBlocks_equation_1;
    destruct (inspect (get arr (Z.min step (Z.of_nat (length arr)) - 1))) as [w e].
  2:{ assert (w = None) as -> by congruence. reflexivity. }
  assert (w = Some x) as -> by congruence.
  unfold jumpBlocks_unfold_clause_1.
  destruct (decide (compare x target < 0)%Z); [|done].
  unfold jumpBlocks_unfold_clause_1_clause_2.
  by destruct (decide (Z.of_nat (length arr) ≤ step)%Z).
Qed.

Lemma jumpScan_eq arr target bound prev c :
  jumpScan compare arr target bound prev c =
    match get arr prev with
    | None => inr (prev, c)
    | Some x =>
        if decide (compare x target < 0)%Z then
          if decide (prev + 1 = bound)%Z then inl (notFound (c + 1))
          else jumpScan compare arr target bound (prev + 1) (c + 1)
        else inr (prev, c)
    end.
Proof.
  destruct (get arr prev) as [x|] eqn:E;
    rewrite jumpScan_equation_1; destruct (inspect (get arr prev)) as [w e].
  2:{ assert (w = None) as -> by congruence. reflexivity. }
  assert (w = Some x) as -> by congruence.
  unfold jumpScan_unfold_clause_1.
  destruct (decide (compare x target < 0)%Z); [|done].
  unfold jumpScan_unfold_clause_1_clause_2.
  by destruct (decide (prev + 1 = bound)%Z).
Qed.

Lemma doubling_eq arr target i c :
  doubling compare arr target i c =
    if decide (Z.pos i < Z.of_nat (length arr))%Z then
      match get arr (Z.pos i) with
      | Some x =>
          if decide (compare x target ≤ 0)%Z
          then doubling compare arr target (i * 2)%positive (c + 1)
          else (i, c)
      | None => (i, c)
      end
    else (i, c).
Proof.
  rewrite doubling_equation_1.
  destruct (decide (Z.pos i < Z.of_nat (length arr))%Z); [|done].
  unfold doubling_unfold_clause_1.
  destruct (get arr (Z.pos i)); [|done].
  unfold doubling_unfold_clause_1_clause_2.
  by destruct (decide (compare _ target ≤ 0)%Z).
Qed.

(** Whatever the array, the probing loop returns a slot that matches or
    reports nothing. *)
Lemma binaryLoop_sound arr target lo hi c :
  let r := binaryLoop compare arr target lo hi c in found compare arr target r ∨ missed r.
Proof.
  remember (Z.to_nat (hi - lo + 1)) as m eqn:Hm. revert lo hi c Hm.
  induction m as [m IH] using lt_wf_ind. intros lo hi c -> r. subst r.
  rewrite binaryLoop_eq. destruct (decide (lo ≤ hi)%Z) as [Hle|]; [|by right].
  assert (0 ≤ (hi - lo) / 2 ≤ hi - lo)%Z
    by (split; [apply Z.div_pos; lia|apply Z.div_le_upper_bound; lia]).
  destruct (get arr (lo + (hi - lo) / 2)) as [x|] eqn:Hx.
  - destruct (Z_dec' (compare x target) 0) as [[?|?]|Hz].
    + eapply IH; [|done]. lia.
    + eapply IH; [|done]. lia.
    + left. apply get_Some in Hx as [? Hx].
      exists (Z.to_nat (lo + (hi - lo) / 2)), x. simpl. split; [lia|done].
  - eapply IH; [|done]. lia.
Qed.

Section ValidSearch.
Hypothesis Hvalid : Cmp.valid compare.

(** On an array without descent, a window that holds every match is
    narrowed to a match. *)
Lemma binaryLoop_complete arr target lo hi c :
  Arr.ascending compare arr →
  (0 ≤ lo)%Z → (hi < Z.of_nat (length arr))%Z →
  (∃ (k : nat) x, (lo ≤ Z.of_nat k ≤ hi)%Z ∧ arr !! k = Some x ∧ compare x target = 0%Z) →
  found compare arr target (binaryLoop compare arr target lo hi c).
Proof.
  intros Hasc. pose proof (Arr.ascending_sorted compare arr Hvalid Hasc) as Hsorted.
  remember (Z.to_nat (hi - lo + 1)) as m eqn:Hm. revert lo hi c Hm.
  induction m as [m IH] using lt_wf_ind.
  intros lo hi c -> Hlo Hhi (k & x & Hk & Hx & Hz).
  rewrite binaryLoop_eq. rewrite decide_True by lia.
  assert (0 ≤ (hi - lo) / 2 ≤ hi - lo)%Z
    by (split; [apply Z.div_pos; lia|apply Z.div_le_upper_bound; lia]).
  set (mid := (lo + (hi - lo) / 2)%Z) in *.
  destruct (lookup_lt_is_Some_2 arr (Z.to_nat mid)) as [y Hy]; [lia|].
  assert (get arr mid = Some y) as -> by (apply get_Some; split; [lia|done]).
  destruct (Z_dec' (compare y target) 0) as [[Hlt|Hgt]|Heq].
  - eapply IH; [|done|lia|done|]; [lia|]. exists k, x. split; [|done].
    destruct (decide (Z.of_nat k ≤ mid)%Z) as [Hkm|]; [|lia]. exfalso.
    assert (compare x y ≤ 0)%Z as Hxy.
    { destruct (decide (k = Z.to_nat mid)) as [->|];
        [same_lookup; by apply Cmp.refl|].
      eapply (Arr.sorted_lookup compare arr k (Z.to_nat mid)); eauto. lia. }
    pose proof (Cmp.le_lt_trans compare x y target Hvalid Hxy Hlt). lia.
  - eapply IH; [|done|done|lia|]; [lia|]. exists k, x. split; [|done].
    destruct (decide (mid ≤ Z.of_nat k)%Z) as [Hkm|]; [|lia]. exfalso.
    assert (compare y x ≤ 0)%Z as Hyx.
    { destruct (decide (k = Z.to_nat mid)) as [->|];
        [same_lookup; by apply Cmp.refl|].
      eapply (Arr.sorted_lookup compare arr (Z.to_nat mid) k); eauto. lia. }
    pose proof (Cmp.eq_sym compare x target Hvalid Hz) as Htx.
    assert (compare y target ≤ 0)%Z
      by (apply (Cmp.trans compare Hvalid y x target); lia).
    lia.
  - exists (Z.to_nat mid), y. simpl. split; [lia|done].
Qed.

(** [binarySearch] on an array without descent: it returns, it finds the
    target when it is there, and reports nothing when it is not. *)
Lemma binarySearch_correct arr target :
  Arr.ascending compare arr →
  ∃ r, binarySearch compare arr target = inr r ∧ correct compare arr target r.
Proof.
  intros Hasc. unfold binarySearch, binarySearchCounted.
  rewrite sortedScan_ascending by done. eexists. split; [done|].
  destruct (binaryLoop_sound arr target 0 (Z.of_nat (length arr) - 1) 0) as [Hf|Hm];
    [by left|].
  right. split; [done|]. intros (k & x & Hx & Hz).
  eapply found_not_missed; [|done].
  apply binaryLoop_complete; [done|lia|lia|].
  exists k, x. split; [|done]. apply lookup_lt_Some in Hx. lia.
Qed.
(** Without descent, an element precedes or ties with every later one. *)
Lemma ascending_le arr i j x y :
  Arr.ascending compare arr → i ≤ j → arr !! i = Some x → arr !! j = Some y →
  (compare x y ≤ 0)%Z.
Proof.
  intros Hasc Hij Hx Hy.
  destruct (decide (i = j)) as [->|]; [same_lookup; by apply Cmp.refl|].
  eapply (Arr.sorted_lookup compare arr i j); eauto using Arr.ascending_sorted. lia.
Qed.

(** When an element precedes the target, so does everything before it. *)
Lemma below_next arr target (k : nat) x :
  Arr.ascending compare arr → arr !! k = Some x → (compare x target < 0)%Z →
  below compare arr target (Z.of_nat k + 1).
Proof.
  intros Hasc Hx Hlt i y Hi Hy.
  eapply Cmp.le_lt_trans; [done| |done]. eapply (ascending_le arr i k); eauto. lia.
Qed.

(** A slot that does not precede the target, with everything before it
    preceding the target, settles the search. *)
Lemma settled arr target (p : nat) y c :
  Arr.ascending compare arr →
  below compare arr target (Z.of_nat p) → arr !! p = Some y → ¬ (compare y target < 0)%Z →
  correct compare arr target
    (if bool_decide (compare y target = 0%Z)
     then {| element := Some y; index := Z.of_nat p; comparisons := c |}
     else notFound c).
Proof.
  intros Hasc Hbelow Hy Hge. case_bool_decide as Hz.
  - apply correct_found. by exists p, y.
  - apply correct_missed; [done|]. intros (k & x & Hx & Hxz).
    destruct (decide (k < p)) as [Hk|Hk].
    + pose proof (Hbelow k x ltac:(lia) Hx). lia.
    + pose proof (ascending_le arr p k y x Hasc ltac:(lia) Hy Hx) as Hyx.
      assert (compare y target ≤ 0)%Z
        by (apply (Cmp.trans compare Hvalid y x target); lia).
      lia.
Qed.

(** The block loop of [jumpSearch] either runs off the array, every
    element preceding the target, or stops on a block whose last element
    does not precede it while everything before the block does. *)
Lemma jumpBlocks_spec arr target prev step c :
  Arr.ascending compare arr →
  (0 ≤ prev < step)%Z → (prev < Z.of_nat (length arr))%Z →
  below compare arr target prev →
  match jumpBlocks compare arr target prev step c with
  | inl r => missed r ∧ ¬ present compare arr target
  | inr (prev', step', _) =>
      (0 ≤ prev' < Z.min step' (Z.of_nat (length arr)))%Z ∧
      below compare arr target prev' ∧
      ∃ x, get arr (Z.min step' (Z.of_nat (length arr)) - 1) = Some x ∧
           ¬ (compare x target < 0)%Z
  end.
Proof.
  intros Hasc.
  remember (Z.to_nat (Z.of_nat (length arr) - step)) as m eqn:Hm.
  revert prev step c Hm. induction m as [m IH] using lt_wf_ind.
  intros prev step c -> Hprev Hn Hbelow. rewrite jumpBlocks_eq.
  set (last := (Z.min step (Z.of_nat (length arr)) - 1)%Z).
  destruct (lookup_lt_is_Some_2 arr (Z.to_nat last)) as [x Hx]; [lia|].
  assert (get arr last = Some x) as Hg by (apply get_Some; split; [lia|done]).
  rewrite Hg. destruct (decide (compare x target < 0)%Z) as [Hlt|Hge].
  - pose proof (below_next arr target _ x Hasc Hx Hlt) as Hnext.
    destruct (decide (Z.of_nat (length arr) ≤ step)%Z) as [Hend|Hmore].
    + split; [done|]. intros (k & y & Hy & Hz).
      pose proof (lookup_lt_Some _ _ _ Hy).
      pose proof (Hnext k y ltac:(lia) Hy). lia.
    + assert (0 < Z.sqrt (Z.of_nat (length arr)))%Z by (apply Z.sqrt_pos; lia).
      eapply IH; [|done|lia|lia|]; [lia|].
      intros i y Hi Hy. apply (Hnext i y); [lia|done].
  - split; [lia|]. split; [done|]. by exists x.
Qed.

(** The scan of the block stops, inside the block, on the first element
    that does not precede the target. *)
Lemma jumpScan_spec arr target bound prev c :
  Arr.ascending compare arr →
  (0 ≤ prev < bound)%Z → (bound ≤ Z.of_nat (length arr))%Z →
  below compare arr target prev →
  (∃ x, get arr (bound - 1) = Some x ∧ ¬ (compare x target < 0)%Z) →
  ∃ (p : nat) c' y,
    jumpScan compare arr target bound prev c = inr (Z.of_nat p, c') ∧
    below compare arr target (Z.of_nat p) ∧ arr !! p = Some y ∧
    ¬ (compare y target < 0)%Z.
Proof.
  intros Hasc.
  remember (Z.to_nat (bound - prev)) as m eqn:Hm.
  revert prev c Hm. induction m as [m IH] using lt_wf_ind.
  intros prev c -> Hprev Hbound Hbelow (z & Hz & Hzge). rewrite jumpScan_eq.
  destruct (lookup_lt_is_Some_2 arr (Z.to_nat prev)) as [x Hx]; [lia|].
  assert (get arr prev = Some x) as Hg by (apply get_Some; split; [lia|done]).
  rewrite Hg. destruct (decide (compare x target < 0)%Z) as [Hlt|Hge].
  - destruct (decide (prev + 1 = bound)%Z) as [Heq|Hne].
    + exfalso. replace (bound - 1)%Z with prev in Hz by lia. congruence.
    + eapply IH; [|done|lia|done| |]; [lia| |by exists z].
      pose proof (below_next arr target _ x Hasc Hx Hlt) as Hnext.
      intros i y Hi Hy. apply (Hnext i y); [lia|done].
  - exists (Z.to_nat prev), c, x. rewrite Z2Nat.id by lia. done.
Qed.

(** [jumpSearch] on a non-empty array without descent: it returns, with
    the right answer, and reads no slot out of range. *)
Lemma jumpSearch_correct arr target :
  arr ≠ [] → Arr.ascending compare arr →
  ∃ r, jumpSearch compare arr target = inr r ∧ correct compare arr target r.
Proof.
  intros Hpos Hasc. unfold jumpSearch. rewrite sortedScan_ascending by done.
  assert (0 < length arr) by (destruct arr; [done|simpl; lia]).
  assert (0 < Z.sqrt (Z.of_nat (length arr)))%Z by (apply Z.sqrt_pos; lia).
  pose proof (jumpBlocks_spec arr target 0 (Z.sqrt (Z.of_nat (length arr))) 0 Hasc
                ltac:(lia) ltac:(lia)) as Hblocks.
  destruct (jumpBlocks _ _ _ _ _ _) as [r|[[prev step] c]].
  { destruct Hblocks as [Hm Habs]; [intros i x Hi; lia|].
    eexists. split; [done|]. by apply correct_missed. }
  destruct Hblocks as (Hprev & Hbelow & Hlast); [intros i x Hi; lia|].
  destruct (jumpScan_spec arr target (Z.min step (Z.of_nat (length arr))) prev c Hasc
              ltac:(lia) ltac:(lia) Hbelow Hlast) as (p & c' & y & -> & Hp & Hy & Hge).
  rewrite get_of_nat, Hy. eexists. split; [|by apply settled].
  by case_bool_decide.
Qed.

(** The slots of [arr.slice(start, stop)]. *)
Lemma lookup_slice arr (start stop : Z) (j : nat) :
  (0 ≤ start)%Z →
  slice arr start stop !! j =
    if decide (Z.of_nat j < stop - start)%Z then arr !! (Z.to_nat start + j) else None.
Proof.
  intros Hstart. unfold slice. destruct (decide (Z.of_nat j < stop - start)%Z).
  - rewrite lookup_take_lt by lia. by rewrite lookup_drop.
  - apply lookup_take_ge. lia.
Qed.

Lemma ascending_slice arr (start stop : Z) :
  (0 ≤ start)%Z → Arr.ascending compare arr → Arr.ascending compare (slice arr start stop).
Proof.
  intros Hstart Hasc i a b. rewrite !lookup_slice by done.
  repeat case_decide; try done. rewrite Nat.add_assoc. apply Hasc.
Qed.

(** The doubling loop of [exponentialSearch] stops on a position [i] whose
    half, unless the loop did not run, holds an element that precedes or
    ties with the target, and that itself is off the array or holds an
    element after the target. *)
Lemma doubling_spec arr target i c :
  (i = 1%positive ∨ ∃ y, get arr (Z.pos i / 2) = Some y ∧ (compare y target ≤ 0)%Z) →
  let i' := (doubling compare arr target i c).1 in
  (i' = 1%positive ∨ ∃ y, get arr (Z.pos i' / 2) = Some y ∧ (compare y target ≤ 0)%Z) ∧
  ((Z.of_nat (length arr) ≤ Z.pos i')%Z ∨
   ∃ z, get arr (Z.pos i') = Some z ∧ ¬ (compare z target ≤ 0)%Z).
Proof.
  remember (Z.to_nat (Z.of_nat (length arr) - Z.pos i)) as m eqn:Hm.
  revert i c Hm. induction m as [m IH] using lt_wf_ind.
  intros i c -> Hhalf. rewrite doubling_eq.
  destruct (decide (Z.pos i < Z.of_nat (length arr))%Z) as [Hin|Hout];
    [|simpl; split; [done|left; lia]].
  destruct (lookup_lt_is_Some_2 arr (Z.to_nat (Z.pos i))) as [x Hx]; [lia|].
  assert (get arr (Z.pos i) = Some x) as Hg by (apply get_Some; split; [lia|done]).
  rewrite Hg. destruct (decide (compare x target ≤ 0)%Z) as [Hle|Hgt].
  - eapply IH; [|done|]; [lia|]. right. exists x.
    rewrite Pos2Z.inj_mul, Z.div_mul by lia. done.
  - simpl. split; [done|]. right. by exists x.
Qed.

(** [exponentialSearch] on an array without descent: it returns, with the
    right answer. *)
Lemma exponentialSearch_correct arr target :
  Arr.ascending compare arr →
  ∃ r, exponentialSearch compare arr target = inr r ∧ correct compare arr target r.
Proof.
  intros Hasc. unfold exponentialSearch. case_bool_decide as Hnil.
  { eexists. split; [done|]. apply correct_missed; [done|].
    intros (k & x & Hx & _). apply lookup_lt_Some in Hx. lia. }
  destruct (lookup_lt_is_Some_2 arr 0) as [x0 H0]; [lia|]. rewrite H0.
  case_bool_decide as Hz0.
  { eexists. split; [done|]. apply correct_found. by exists 0, x0. }
  pose proof (doubling_spec arr target 1 (0 + 1) ltac:(by left)) as Hd.
  destruct (doubling compare arr target 1 (0 + 1)) as [i c]. simpl in Hd.
  destruct Hd as [Hhalf Hstop].
  set (n := Z.of_nat (length arr)) in *.
  assert (0 ≤ Z.pos i / 2 < Z.pos i)%Z as Hi
    by (split; [apply Z.div_pos; lia|apply Z.div_lt; lia]).
  set (start := (Z.pos i / 2)%Z) in *.
  destruct (binarySearch_correct (slice arr start (Z.min (Z.pos i) n)) target)
    as (r & -> & [Hf|[Hm Habsent]]); [apply ascending_slice; [lia|done]|..].
  - (* a match in the slice is a match in the array *)
    destruct Hf as (j & e & Hj & He & Hje & Hz). rewrite lookup_slice in Hje by lia.
    case_decide; [|done].
    eexists. split; [done|]. apply correct_found.
    exists (Z.to_nat start + j), e. simpl. rewrite He, Hj. split; [lia|done].
  - (* no match in the slice: none before it, none after it *)
    destruct Hm as [He _]. eexists. split; [done|]. rewrite He.
    apply correct_missed; [done|]. intros (k & x & Hx & Hz).
    pose proof (lookup_lt_Some _ _ _ Hx) as Hk.
    assert (∀ j y, (start ≤ Z.of_nat j < Z.min (Z.pos i) n)%Z → arr !! j = Some y →
                   compare y target ≠ 0%Z) as Hslice.
    { intros j y Hj Hy Hyz. apply Habsent. exists (j - Z.to_nat start), y.
      rewrite lookup_slice by lia. rewrite decide_True by lia.
      split; [|done]. rewrite <-Hy. f_equal. lia. }
    destruct (decide (Z.of_nat k < start)%Z) as [Hbefore|Hnot].
    + destruct Hhalf as [->|(y & Hy & Hle)]; [subst start; simpl in *; lia|].
      apply get_Some in Hy as [_ Hy]. pose proof (lookup_lt_Some _ _ _ Hy).
      apply (Hslice (Z.to_nat start) y); [lia|done|].
      pose proof (ascending_le arr k (Z.to_nat start) x y Hasc ltac:(lia) Hx Hy) as Hxy.
      pose proof (Cmp.eq_sym compare x target Hvalid Hz) as Htx.
      assert (compare target y ≤ 0)%Z
        by (apply (Cmp.trans compare Hvalid target x y); lia).
      destruct Hvalid as [Hanti _]. specialize (Hanti y target). lia.
    + destruct (decide (Z.of_nat k < Z.min (Z.pos i) n)%Z) as [Hin|Hafter];
        [by apply (Hslice k x); [lia|..]|].
      destruct Hstop as [?|(z & Hgz & Hgt)]; [lia|].
      apply get_Some in Hgz as [_ Hgz]. apply Hgt.
      pose proof (ascending_le arr (Z.to_nat (Z.pos i)) k z x Hasc ltac:(lia) Hgz Hx).
      apply (Cmp.trans compare Hvalid z x target); lia.
Qed.


End ValidSearch.

(** [linearSearch]: the loop from index [a] on, the first match being at
    [k]. *)
Lemma linear_loop_first arr target a m c k x :
  a ≤ k < a + m →
  arr !! k = Some x → compare x target = 0%Z →
  (∀ j y, a ≤ j < k → arr !! j = Some y → compare y target ≠ 0%Z) →
  forLoop (linearBody compare arr target) (seq a m) c =
    inr {| element := Some x; index := Z.of_nat k; comparisons := c + (k - a) + 1 |}.
Proof.
  revert a c. induction m as [|m IH]; intros a c Hk Hx Hz Hfirst; [lia|].
  simpl. unfold linearBody at 1. destruct (decide (a = k)) as [->|Hne].
  - rewrite Hx, bool_decide_eq_true_2 by done. do 2 f_equal. lia.
  - destruct (lookup_lt_is_Some_2 arr a) as [y Hy].
    { apply lookup_lt_Some in Hx. lia. }
    rewrite Hy, bool_decide_eq_false_2 by (eapply Hfirst; [|done]; lia).
    rewrite IH; [do 2 f_equal; lia|lia|done|done|].
    intros j z ? ?. eapply (Hfirst j); [lia|done].
Qed.

Lemma linear_loop_none arr target a m c :
  (∀ j y, a ≤ j < a + m → arr !! j = Some y → compare y target ≠ 0%Z) →
  forLoop (linearBody compare arr target) (seq a m) c = inl (c + m).
Proof.
  revert a c. induction m as [|m IH]; intros a c Hnone; simpl; [f_equal; lia|].
  unfold linearBody at 1. destruct (arr !! a) as [y|] eqn:Hy.
  - rewrite bool_decide_eq_false_2 by (eapply Hnone; [|done]; lia).
    rewrite IH; [f_equal; lia|]. intros j z ? ?. eapply (Hnone j); [lia|done].
  - rewrite IH; [f_equal; lia|]. intros j z ? ?. eapply (Hnone j); [lia|done].
Qed.

(** The loop of [linearSearch] leaves with a match, or runs through slots
    that do not match. *)
Lemma linear_loop_sound arr target a m c :
  match forLoop (linearBody compare arr target) (seq a m) c with
  | inr r => found compare arr target r
  | inl _ => ∀ j y, a ≤ j < a + m → arr !! j = Some y → compare y target ≠ 0%Z
  end.
Proof.
  revert a c. induction m as [|m IH]; intros a c; simpl; [intros; lia|].
  unfold linearBody at 1. destruct (arr !! a) as [x|] eqn:Hx.
  - case_bool_decide as Hz; [by exists a, x|].
    specialize (IH (S a) (c + 1)). destruct (forLoop _ _ _); [|done].
    intros j y Hj Hy. destruct (decide (j = a)) as [->|]; [congruence|].
    apply (IH j y); [lia|done].
  - specialize (IH (S a) (c + 1)). destruct (forLoop _ _ _); [|done].
    intros j y Hj Hy. destruct (decide (j = a)) as [->|]; [congruence|].
    apply (IH j y); [lia|done].
Qed.

(** [linearSearch] answers correctly on every array. *)
Lemma linearSearch_correct arr target :
  correct compare arr target (linearSearch compare arr target).
Proof.
  unfold linearSearch.
  pose proof (linear_loop_sound arr target 0 (length arr) 0) as Hloop.
  destruct (forLoop _ _ _) as [c|r]; [|by left].
  right. split; [done|]. intros (k & x & Hx & Hz).
  apply (Hloop k x); [|done..]. apply lookup_lt_Some in Hx. lia.
Qed.

(** [linearSearch] does not throw, and [binarySearch] throws only when its
    own scan finds a descent. *)
Lemma binarySearch_scan arr target calls :
  sortedScan compare arr = inl calls →
  ∃ r, binarySearch compare arr target = inr r.
Proof. intros Hscan. unfold binarySearch, binarySearchCounted. rewrite Hscan. eauto. Qed.
End SearchFacts.

(** On the empty array [jumpSearch] reads [arr[-1]] and [arr[0]], both
    [undefined]; under the default comparator every test on them is false,
    and the search reports nothing after one counted comparison. *)
Lemma jumpSearch_nil (target : Z) :
  jumpSearch Cmp.numeric [] target = inr (notFound 1).
Proof. unfold jumpSearch. rewrite jumpBlocks_eq. cbn. reflexivity. Qed.

(** *** The probe *)

(** Where a double holds every intermediate result, the probe is the
    position of exact arithmetic. *)
Lemma probe_exact (target low high a b : Z) :
  (0 ≤ low ≤ high)%Z → (high < 2 ^ 53)%Z → (a ≤ target ≤ b)%Z → (a < b)%Z →
  (b - a < 2 ^ 53)%Z → ((high - low) * (target - a) < 2 ^ 53)%Z →
  probe target low high a b =
    Number.ofZ (low + (high - low) * (target - a) / (b - a)).
Proof.
  intros Hlh Hh Ht Hab Hb Hp. unfold probe.
  assert (0 ≤ (high - low) * (target - a) / (b - a) ≤ high - low)%Z as Hq.
  { split; [apply Z.div_pos; nia|]. apply Z.div_le_upper_bound; nia. }
  rewrite !Number.sub_Z by lia. rewrite Number.mul_Z by nia.
  rewrite Number.floor_div_Z by nia. by rewrite Number.add_Z by lia.
Qed.

(** On a plateau the probe is [0 / 0]. *)
Lemma probe_flat (target low high : Z) :
  (low < high)%Z → probe target low high target target = Number.NaN.
Proof.
  intros Hlh. unfold probe. rewrite (Number.sub_Z target target) by lia.
  rewrite Z.sub_diag. unfold Number.sub, Number.ofZ. cbn [Number.opp Number.add].
  assert (0 <= inject_Z high + - inject_Z low)%Q as Hk.
  { rewrite <-inject_Z_opp, <-inject_Z_plus. change 0%Q with (inject_Z 0).
    rewrite <-Zle_Qle. lia. }
  destruct (Number.round_nonneg _ Hk) as [[-> _]|(k & -> & _)]; [done|].
  cbn [Number.mul]. rewrite Number.round_zero by ring. done.
Qed.

(** Whatever the numbers, the probe of a window of an array, which has
    fewer than [2 ^ 32] slots, is a slot of the window, [NaN] or
    [Infinity]. *)
Lemma probe_range (target low high a b : Z) (q : Q) :
  (0 ≤ low < high)%Z → (high < 2 ^ 32)%Z → (a ≤ target ≤ b)%Z →
  probe target low high a b = Number.Fin q →
  (low ≤ Qfloor q ≤ high)%Z ∧ q = inject_Z (Qfloor q).
Proof.
  intros Hlh Hh Ht. unfold probe.
  assert (2 ^ 32 < 2 ^ 53)%Z as H32 by (by apply Z.pow_lt_mono_r).
  rewrite (Number.sub_Z high low) by lia.
  set (k := (high - low)%Z). assert (1 ≤ k < 2 ^ 32)%Z as Hk by lia.
  assert (1 <= inject_Z k)%Q as Qk1
    by (change 1%Q with (inject_Z 1); rewrite <-Zle_Qle; lia).
  assert (inject_Z k < inject_Z (2 ^ 32))%Q as Qk2 by (rewrite <-Zlt_Qlt; lia).
  unfold Number.sub, Number.ofZ. cbn [Number.opp Number.add].
  rewrite (Number.round_comp (inject_Z target + - inject_Z a) (inject_Z (target - a)))
    by (by rewrite <-inject_Z_opp, <-inject_Z_plus).
  rewrite (Number.round_comp (inject_Z b + - inject_Z a) (inject_Z (b - a)))
    by (by rewrite <-inject_Z_opp, <-inject_Z_plus).
  assert (0 <= inject_Z (target - a))%Q as Hx0
    by (change 0%Q with (inject_Z 0); rewrite <-Zle_Qle; lia).
  assert (inject_Z (target - a) <= inject_Z (b - a))%Q as Hxy0 by (rewrite <-Zle_Qle; lia).
  pose proof (Number.rounded_mono0 _ _ Hx0 Hxy0) as Hmono.
  assert (∀ f : Z, (0 ≤ f ≤ k)%Z →
            Number.round (inject_Z low + inject_Z f) = Number.Fin q →
            (low ≤ Qfloor q ≤ high)%Z ∧ q = inject_Z (Qfloor q)) as Hend.
  { intros f Hf. rewrite (Number.round_comp _ (inject_Z (low + f)))
      by (by rewrite inject_Z_plus).
    rewrite Number.round_Z by lia. intros [= <-]. rewrite Qfloor_Z. split; [lia|done]. }
  destruct (Number.round_nonneg (inject_Z (b - a))) as [[-> Hybig]|(y & -> & Hy & Hy0 & Hylt)];
    [lra| |];
    (destruct (Number.round_nonneg (inject_Z (target - a)))
      as [[-> Hxbig]|(x & -> & Hx & Hx0' & Hxlt)]; [done| |]).
  - (* both differences overflow *)
    cbn [Number.mul]. by destruct (Qeq_bool (inject_Z k) 0).
  - (* the divisor overflows *)
    cbn [Number.mul].
    destruct (Number.round_nonneg (inject_Z k * x)) as [[-> _]|(p & -> & _)]; [nra|done|].
    cbn [Number.div Number.floor]. apply (Hend 0%Z). lia.
  - (* the dividend alone cannot overflow *)
    exfalso. lra.
  - cbn [Number.mul].
    destruct (Number.round_nonneg (inject_Z k * x)) as [[-> _]|(p & -> & Hp & Hp0 & Hplt)];
      [nra|done|].
    cbn [Number.div]. destruct (Qeq_bool y 0) eqn:Hyz; [by destruct (Qeq_bool p 0)|].
    apply Qeq_bool_neq in Hyz.
    assert (0 < y)%Q as Hypos by lra.
    (* a positive difference of integers is at least 1 *)
    assert (1 <= y)%Q as Hy1.
    { assert (b - a ≠ 0)%Z as Hne.
      { intros Hz. rewrite Hz in Hy. rewrite (Number.rounded_zero (inject_Z 0)) in Hy by done.
        lra. }
      rewrite Hy, <-(Number.rounded_Z 1) by lia. apply Number.rounded_mono; [done|].
      rewrite <-Zle_Qle. lia. }
    set (ε := (2 ^ (-53))%Q). assert (ε == 1 # 9007199254740992)%Q as Hε by reflexivity.
    assert ((2 ^ (-1022) <= 1)%Q) as Hnormal by (change 1%Q with (2 ^ 0)%Q; apply Number.pow2_le; lia).
    assert (p <= inject_Z k * y * (1 + ε))%Q as Hpy.
    { rewrite Hp. eapply Qle_trans; [apply (Number.rounded_mono0 _ (inject_Z k * y)); nra|].
      apply Number.rounded_upper. nra. }
    assert (p / y <= inject_Z k * (1 + ε))%Q as Hquot.
    { apply Qle_shift_div_r; [done|]. lra. }
    assert (0 <= p / y)%Q as Hquot0.
    { apply Qle_shift_div_l; [done|]. lra. }
    destruct (Number.round_nonneg (p / y) Hquot0) as [[-> _]|(w & -> & Hw & Hw0 & Hwlt)];
      [done|].
    cbn [Number.floor]. apply Hend.
    assert (w < inject_Z k + 1)%Q as Hw1.
    { rewrite Hw. eapply Qle_lt_trans; [apply (Number.rounded_mono0 _ _ Hquot0 Hquot)|].
      eapply Qle_lt_trans; [apply Number.rounded_upper; nra|].
      change (inject_Z (2 ^ 32)) with 4294967296%Q in Qk2. fold ε. rewrite Hε. lra. }
    pose proof (Qfloor_le w) as Hf1. pose proof (Qlt_floor w) as Hf2.
    split.
    + assert (0 < Qfloor w + 1)%Z; [|lia]. rewrite Zlt_Qlt. change (inject_Z 0) with 0%Q. lra.
    + assert (Qfloor w < k + 1)%Z; [|lia]. rewrite Zlt_Qlt, inject_Z_plus.
      change (inject_Z 1) with 1%Q. lra.
Qed.

(** The position of exact arithmetic is a slot of the window. *)
Lemma position_range target low high a b :
  (low ≤ high → a ≤ target ≤ b → a < b →
   low ≤ low + (high - low) * (target - a) / (b - a) ≤ high)%Z.
Proof.
  intros Hlh Ht Hab.
  assert (0 ≤ (high - low) * (target - a) / (b - a))%Z by (apply Z.div_pos; nia).
  assert ((high - low) * (target - a) / (b - a) ≤ high - low)%Z
    by (apply Z.div_le_upper_bound; nia).
  lia.
Qed.

(** One step of the loop of [interpolationSearch]. *)
Lemma interpolationLoop_eq arr target low high c :
  interpolationLoop arr target low high c =
    match inWindow arr target low high with
    | None => notFound c
    | Some (a, b) =>
        if decide (low = high) then
          if bool_decide (a = target)
          then {| element := Some a; index := low; comparisons := c + 1 |}
          else notFound (c + 1)
        else
          match probe target low high a b with
          | Number.Fin pos =>
              if decide (low ≤ Qfloor pos ≤ high)%Z then
                match get arr (Qfloor pos) with
                | Some x =>
                    match Z_dec' x target with
                    | inright _ =>
                        {| element := Some x; index := Qfloor pos; comparisons := c + 1 |}
                    | inleft (left _) =>
                        interpolationLoop arr target (Qfloor pos + 1) high (c + 1)
                    | inleft (right _) =>
                        interpolationLoop arr target low (Qfloor pos - 1) (c + 1)
                    end
                | None => interpolationLoop arr target low (Qfloor pos - 1) (c + 1)
                end
              else notFound (c + 1)
          | _ => notFound (c + 1)
          end
    end.
Proof.
  destruct (inWindow arr target low high) as [[a b]|] eqn:E;
    rewrite interpolationLoop_equation_1;
    destruct (inspect (inWindow arr target low high)) as [w e].
  2:{ assert (w = None) as -> by congruence. reflexivity. }
  assert (w = Some (a, b)) as -> by congruence.
  unfold interpolationLoop_unfold_clause_1.
  destruct (decide (low = high)); [done|].
  unfold interpolationLoop_unfold_clause_1_clause_2.
  destruct (probe target low high a b) as [|s|pos]; [done..|].
  unfold interpolationLoop_unfold_clause_1_clause_2_clause_2.
  destruct (decide (low ≤ Qfloor pos ≤ high)%Z); [|done].
  unfold interpolationLoop_unfold_clause_1_clause_2_clause_2_clause_1.
  destruct (get arr (Qfloor pos)); [|done].
  unfold interpolationLoop_unfold_clause_1_clause_2_clause_2_clause_1_clause_1.
  by destruct (Z_dec' _ target) as [[?|?]|?].
Qed.

(** On a constant array of two or more slots the division is [0 / 0]:
    the search for the value itself finds nothing. *)
Lemma interpolationSearch_plateau (v : Z) (n : nat) :
  2 ≤ n → interpolationSearch (replicate n v) v = notFound 1.
Proof.
  intros Hn. unfold interpolationSearch. rewrite interpolationLoop_eq.
  rewrite length_replicate.
  assert (inWindow (replicate n v) v 0 (Z.of_nat n - 1) = Some (v, v)) as ->.
  { unfold inWindow. rewrite bool_decide_eq_true_2 by lia.
    replace (Z.of_nat n - 1)%Z with (Z.of_nat (n - 1)) by lia.
    change 0%Z with (Z.of_nat 0). rewrite !get_of_nat.
    rewrite !lookup_replicate_2 by lia.
    by rewrite !bool_decide_eq_true_2 by lia. }
  rewrite decide_False by lia. by rewrite probe_flat by lia.
Qed.

(** The same on any array whose two ends both hold the target. *)
Lemma interpolationSearch_ends arr target :
  2 ≤ length arr → arr !! 0 = Some target → arr !! (length arr - 1) = Some target →
  interpolationSearch arr target = notFound 1.
Proof.
  intros Hn H0 Hlast. unfold interpolationSearch. rewrite interpolationLoop_eq.
  assert (inWindow arr target 0 (Z.of_nat (length arr) - 1) = Some (target, target)) as ->.
  { unfold inWindow. rewrite bool_decide_eq_true_2 by lia.
    replace (Z.of_nat (length arr) - 1)%Z with (Z.of_nat (length arr - 1)) by lia.
    change 0%Z with (Z.of_nat 0). rewrite !get_of_nat, H0, Hlast.
    by rewrite !bool_decide_eq_true_2 by lia. }
  rewrite decide_False by lia. by rewrite probe_flat by lia.
Qed.

(** Whatever the array, the loop returns a slot that holds the target or
    reports nothing. *)
Lemma interpolationLoop_sound arr target low high c :
  let r := interpolationLoop arr target low high c in
  found Cmp.numeric arr target r ∨ missed r.
Proof.
  remember (Z.to_nat (high - low + 1)) as m eqn:Hm. revert low high c Hm.
  induction m as [m IH] using lt_wf_ind. intros low high c -> r. subst r.
  rewrite interpolationLoop_eq.
  destruct (inWindow arr target low high) as [[a b]|] eqn:Hw; [|by right].
  apply inWindow_Some in Hw as ([Hlh Hab] & Ha & Hb).
  destruct (decide (low = high)) as [->|Hne].
  { case_bool_decide as Heq; [|by right]. left.
    apply get_Some in Ha as [? Ha].
    exists (Z.to_nat high), a. simpl. unfold Cmp.numeric.
    repeat split; [lia|done|lia]. }
  destruct (probe target low high a b) as [|s|pos]; [by right..|].
  destruct (decide (low ≤ Qfloor pos ≤ high)%Z) as [Hin|]; [|by right].
  destruct (get arr (Qfloor pos)) as [x|] eqn:Hx.
  - destruct (Z_dec' x target) as [[?|?]|Heq].
    + eapply IH; [|done]. lia.
    + eapply IH; [|done]. lia.
    + left. apply get_Some in Hx as [? Hx].
      exists (Z.to_nat (Qfloor pos)), x. simpl. unfold Cmp.numeric.
      repeat split; [lia|done|lia].
  - eapply IH; [|done]. lia.
Qed.

(** The arrays on which the arithmetic of the probe is exact: integers
    that a number holds, few enough and close enough for the product of a
    distance in slots and a distance in value to stay below [2 ^ 53]. *)
Definition exact (arr : list Z) : Prop :=
  Forall (λ x, (Z.abs x < 2 ^ 53)%Z) arr ∧
  Forall (λ x, Forall (λ y, (Z.of_nat (length arr) * (y - x) < 2 ^ 53)%Z) arr) arr.

#[global] Instance exact_dec arr : Decision (exact arr).
Proof. unfold exact. apply _. Defined.

Lemma exact_product arr (i j : nat) x y :
  exact arr → arr !! i = Some x → arr !! j = Some y →
  (Z.of_nat (length arr) * (y - x) < 2 ^ 53)%Z.
Proof.
  intros [_ Hall] Hx Hy.
  apply (Forall_lookup_1 _ _ _ _ Hall) in Hx. by apply (Forall_lookup_1 _ _ _ _ Hx) in Hy.
Qed.

(** On such an array without descent the loop finds a target that its
    window holds, unless both ends of the window hold it.  The two ends of
    a later window never do: the probe of the window before would have hit
    one of them. *)
Lemma interpolationLoop_complete arr target low high c :
  Arr.ascending Cmp.numeric arr → exact arr →
  (0 ≤ low)%Z → (high < Z.of_nat (length arr))%Z →
  (∃ k : nat, (low ≤ Z.of_nat k ≤ high)%Z ∧ arr !! k = Some target) →
  ((low < high)%Z → ¬ (get arr low = Some target ∧ get arr high = Some target)) →
  found Cmp.numeric arr target (interpolationLoop arr target low high c).
Proof.
  intros Hasc Hexact.
  pose proof (Arr.ascending_sorted _ arr Cmp.numeric_valid Hasc) as Hsorted.
  assert (∀ i j x y, i ≤ j → arr !! i = Some x → arr !! j = Some y → (x ≤ y)%Z) as Hmono.
  { intros i j x y Hij Hx Hy. destruct (decide (i = j)) as [->|]; [same_lookup; lia|].
    pose proof (Arr.sorted_lookup _ arr i j x y Hsorted ltac:(lia) Hx Hy) as Hle.
    unfold Cmp.numeric in Hle. lia. }
  remember (Z.to_nat (high - low + 1)) as m eqn:Hm. revert low high c Hm.
  induction m as [m IH] using lt_wf_ind.
  intros low high c -> Hlow Hhigh (k & Hk & Hkt) Hends.
  destruct (lookup_lt_is_Some_2 arr (Z.to_nat low)) as [a Ha]; [lia|].
  destruct (lookup_lt_is_Some_2 arr (Z.to_nat high)) as [b Hb]; [lia|].
  assert (get arr low = Some a) as Hga by (apply get_Some; split; [lia|done]).
  assert (get arr high = Some b) as Hgb by (apply get_Some; split; [lia|done]).
  assert (a ≤ target)%Z by (apply (Hmono (Z.to_nat low) k); [lia|done..]).
  assert (target ≤ b)%Z by (apply (Hmono k (Z.to_nat high)); [lia|done..]).
  rewrite interpolationLoop_eq.
  assert (inWindow arr target low high = Some (a, b)) as ->.
  { unfold inWindow. rewrite bool_decide_eq_true_2 by lia. rewrite Hga, Hgb.
    by rewrite !bool_decide_eq_true_2 by lia. }
  destruct (decide (low = high)) as [->|Hne].
  { assert (k = Z.to_nat high) as -> by lia. same_lookup.
    rewrite bool_decide_eq_true_2 by done.
    exists (Z.to_nat high), target. simpl. unfold Cmp.numeric.
    repeat split; [lia|done|lia]. }
  assert (a < b)%Z as Hslope.
  { destruct (decide (a = b)) as [->|]; [|lia]. exfalso. apply Hends; [lia|].
    split; [rewrite Hga|rewrite Hgb]; f_equal; lia. }
  pose proof (exact_product arr _ _ a b Hexact Ha Hb) as Hprod.
  set (pos := (low + (high - low) * (target - a) / (b - a))%Z).
  assert (probe target low high a b = Number.ofZ pos) as ->
    by (apply probe_exact; nia).
  pose proof (position_range target low high a b ltac:(lia) ltac:(lia) ltac:(lia)) as Hp.
  fold pos in Hp. unfold Number.ofZ. rewrite Qfloor_Z, decide_True by done.
  destruct (lookup_lt_is_Some_2 arr (Z.to_nat pos)) as [x Hx]; [lia|].
  assert (get arr pos = Some x) as -> by (apply get_Some; split; [lia|done]).
  destruct (Z_dec' x target) as [[Hlt|Hgt]|Heq].
  - eapply IH; [|done|lia|done| |]; [lia| |].
    + exists k. split; [|done].
      destruct (decide (Z.of_nat k ≤ pos)%Z); [|lia]. exfalso.
      pose proof (Hmono k (Z.to_nat pos) target x ltac:(lia) Hkt Hx). lia.
    + intros Hlt' [_ Hh]. rewrite Hgb in Hh. injection Hh as ->.
      assert (pos = high); [|lia]. subst pos.
      rewrite Z.div_mul by lia. lia.
  - eapply IH; [|done|done|lia| |]; [lia| |].
    + exists k. split; [|done].
      destruct (decide (pos ≤ Z.of_nat k)%Z); [|lia]. exfalso.
      pose proof (Hmono (Z.to_nat pos) k x target ltac:(lia) Hx Hkt). lia.
    + intros Hlt' [Hl _]. rewrite Hga in Hl. injection Hl as ->.
      assert (pos = low); [|lia]. subst pos.
      rewrite Z.sub_diag, Z.mul_0_r, Z.div_0_l by lia. lia.
  - exists (Z.to_nat pos), x. simpl. unfold Cmp.numeric.
    repeat split; [lia|done|lia].
Qed.

(** [interpolationSearch] on an array of numbers without descent: it
    reports nothing when the target is not there; and where the
    arithmetic is exact it finds the target when it is there, except when
    the first and the last slot both hold it. *)
Lemma interpolationSearch_correct arr target :
  Arr.ascending Cmp.numeric arr →
  (target ∉ arr → missed (interpolationSearch arr target)) ∧
  (exact arr → target ∈ arr →
   ¬ (2 ≤ length arr ∧ arr !! 0 = Some target ∧ arr !! (length arr - 1) = Some target) →
   found Cmp.numeric arr target (interpolationSearch arr target)).
Proof.
  intros Hasc. split.
  - intros Habsent.
    destruct (interpolationLoop_sound arr target 0 (Z.of_nat (length arr) - 1) 0)
      as [(i & x & _ & _ & Hx & Hz)|Hm]; [|done].
    exfalso. apply Habsent. unfold Cmp.numeric in Hz.
    apply list_elem_of_lookup. exists i. rewrite Hx. f_equal. lia.
  - intros Hexact [k Hk]%list_elem_of_lookup Hends.
    apply interpolationLoop_complete; [done|done|lia|lia| |].
    + exists k. split; [|done]. apply lookup_lt_Some in Hk. lia.
    + intros Hlt [H0 Hlast]. apply Hends.
      apply get_Some in H0 as [_ H0]. apply get_Some in Hlast as [_ Hlast].
      replace (Z.to_nat (Z.of_nat (length arr) - 1)) with (length arr - 1) in Hlast by lia.
      split; [lia|]. by split.
Qed.

(** *** The dispatcher *)

Section DispatchFacts.
Context {T : Type} (compare : T → T → Z) (asNumber : T → option Z).

(** [search] goes to [binarySearch] only after its own scan, the scan
    [binarySearch] repeats, has passed. *)
Lemma search_total (arr : list T) (target : T) :
  ∃ r, search compare asNumber arr target = inr r.
Proof.
  unfold search. case_bool_decide; [eauto|].
  destruct (sortedScan compare arr) as [calls|calls] eqn:Hscan; simpl; [|eauto].
  destruct (asNumber target), (mapM asNumber arr);
    try destruct (isUniformlyDistributed _); eauto using binarySearch_scan.
Qed.

Lemma search_unsorted (arr : list T) (target : T) calls :
  10 < length arr → sortedScan compare arr = inr calls →
  search compare asNumber arr target = inr (linearSearch compare arr target).
Proof.
  intros Hlen Hscan. unfold search.
  rewrite bool_decide_eq_false_2 by lia. by rewrite Hscan.
Qed.
End DispatchFacts.

(** *** What the searches return on any array *)

Section AnyArray.
Context {T : Type} (compare : T → T → Z).
Implicit Types arr : list T.

(** The validation scan fails exactly on the arrays with a descent. *)
Lemma sortedScan_inr arr :
  (∃ calls, sortedScan compare arr = inr calls) ↔ ¬ Arr.ascending compare arr.
Proof.
  split.
  - intros [calls Hscan] Hasc. by rewrite sortedScan_ascending in Hscan.
  - intros Hdesc. destruct (sortedScan compare arr) as [calls|calls] eqn:Hscan; [|eauto].
    exfalso. by apply Hdesc, (sortedScan_inl compare arr calls).
Qed.

Lemma binarySearch_throws arr target :
  binarySearch compare arr target = inl (Error "Array must be sorted for binary search") ↔
  ¬ Arr.ascending compare arr.
Proof.
  rewrite <-sortedScan_inr. unfold binarySearch, binarySearchCounted.
  destruct (sortedScan compare arr) as [calls|calls]; simpl; split; try done; eauto.
  by intros [? ?].
Qed.

Lemma jumpBlocks_inl arr target prev step c r :
  jumpBlocks compare arr target prev step c = inl r → missed r.
Proof.
  remember (Z.to_nat (Z.of_nat (length arr) - step)) as m eqn:Hm.
  revert prev step c Hm. induction m as [m IH] using lt_wf_ind.
  intros prev step c ->. rewrite jumpBlocks_eq.
  destruct (get arr _) as [x|] eqn:Hx; [|done].
  destruct (decide (compare x target < 0)%Z); [|done].
  destruct (decide (Z.of_nat (length arr) ≤ step)%Z); [by intros [= <-]|].
  apply get_Some in Hx as [? Hx%lookup_lt_Some].
  assert (0 < Z.sqrt (Z.of_nat (length arr)))%Z by (apply Z.sqrt_pos; lia).
  eapply IH; [|done]. lia.
Qed.

Lemma jumpScan_inl arr target bound prev c r :
  jumpScan compare arr target bound prev c = inl r → missed r.
Proof.
  remember (Z.to_nat (Z.of_nat (length arr) - prev)) as m eqn:Hm.
  revert prev c Hm. induction m as [m IH] using lt_wf_ind.
  intros prev c ->. rewrite jumpScan_eq.
  destruct (get arr prev) as [x|] eqn:Hx; [|done].
  destruct (decide (compare x target < 0)%Z); [|done].
  destruct (decide (prev + 1 = bound)%Z); [by intros [= <-]|].
  apply get_Some in Hx as [? Hx%lookup_lt_Some].
  eapply IH; [|done]. lia.
Qed.

(** [jumpSearch] throws exactly on a descent, and what it returns names a
    matching slot or none. *)
Lemma jumpSearch_throws arr target :
  jumpSearch compare arr target = inl (Error "Array must be sorted for jump search") ↔
  ¬ Arr.ascending compare arr.
Proof.
  rewrite <-sortedScan_inr. unfold jumpSearch.
  destruct (sortedScan compare arr) as [calls|calls]; [|split; eauto].
  split; [|by intros [? ?]].
  destruct (jumpBlocks _ _ _ _ _ _) as [r|[[prev step] c]]; [done|].
  destruct (jumpScan _ _ _ _ _ _) as [r|[prev' c']]; [done|].
  destruct (get arr prev'); [case_bool_decide|]; done.
Qed.

Lemma jumpSearch_sound arr target r :
  jumpSearch compare arr target = inr r → found compare arr target r ∨ missed r.
Proof.
  unfold jumpSearch. destruct (sortedScan compare arr) as [calls|calls]; [|done].
  destruct (jumpBlocks _ _ _ _ _ _) as [r'|[[prev step] c]] eqn:Hb.
  { intros [= <-]. right. by eapply jumpBlocks_inl. }
  destruct (jumpScan _ _ _ _ _ _) as [r'|[prev' c']] eqn:Hs.
  { intros [= <-]. right. by eapply jumpScan_inl. }
  destruct (get arr prev') as [x|] eqn:Hx; [|intros [= <-]; by right].
  case_bool_decide as Hz; intros [= <-]; [|by right].
  left. apply get_Some in Hx as [? Hx]. exists (Z.to_nat prev'), x. simpl.
  split; [lia|done].
Qed.

Lemma binarySearch_sound arr target r :
  binarySearch compare arr target = inr r → found compare arr target r ∨ missed r.
Proof.
  unfold binarySearch, binarySearchCounted.
  destruct (sortedScan compare arr); [|done]. simpl. intros [= <-].
  apply binaryLoop_sound.
Qed.

Lemma linearSearch_sound arr target :
  found compare arr target (linearSearch compare arr target) ∨
  missed (linearSearch compare arr target).
Proof. destruct (linearSearch_correct compare arr target) as [?|[? _]]; auto. Qed.

Lemma exponentialSearch_sound arr target r :
  exponentialSearch compare arr target = inr r → found compare arr target r ∨ missed r.
Proof.
  unfold exponentialSearch. case_bool_decide; [intros [= <-]; by right|].
  destruct (arr !! 0) as [x0|] eqn:H0; [|intros [= <-]; by right].
  case_bool_decide as Hz0; [intros [= <-]; left; by exists 0, x0|].
  destruct (doubling compare arr target 1 (0 + 1)) as [i c].
  assert (0 ≤ Z.pos i / 2)%Z as Hi by (apply Z.div_pos; lia).
  destruct (binarySearch compare _ target) as [e|res] eqn:Hbin; [done|].
  intros [= <-]. apply binarySearch_sound in Hbin as [(j & e & Hj & He & Hje & Hz)|[He _]].
  - left. rewrite lookup_slice in Hje by done. case_decide; [|done].
    exists (Z.to_nat (Z.pos i / 2) + j), e. simpl. rewrite He, Hj. split; [lia|done].
  - right. simpl. by rewrite He.
Qed.

(** [linearSearch] that finds nothing has compared every element. *)
Lemma linearSearch_absent arr target :
  ¬ present compare arr target →
  linearSearch compare arr target = notFound (length arr).
Proof.
  intros Habsent. unfold linearSearch.
  rewrite linear_loop_none; [done|].
  intros j y _ Hy Hz. apply Habsent. by exists j, y.
Qed.
End AnyArray.

(** *** The dispatcher on arrays of integers *)

(** A constant array does not pass the uniformity test: its mean
    difference and its variance are both zero. *)
Lemma isUniformlyDistributed_flat (n : nat) (v : Z) :
  isUniformlyDistributed (replicate n v) = false.
Proof.
  unfold isUniformlyDistributed. rewrite length_replicate.
  case_bool_decide as Hn; [done|].
  assert (∀ m, foldl Number.add (Number.ofZ 0) (replicate m (Number.ofZ 0)) = Number.ofZ 0)
    as Hsum.
  { induction m as [|m IH]; [done|]. cbn [replicate foldl].
    by rewrite (Number.add_Z 0 0) by done. }
  assert (∀ m, foldl (λ a b, Number.add a (square (Number.sub b (Number.ofZ 0))))
                 (Number.ofZ 0) (replicate m (Number.ofZ 0)) = Number.ofZ 0) as Hvar.
  { assert (Number.add (Number.ofZ 0) (square (Number.sub (Number.ofZ 0) (Number.ofZ 0))) =
            Number.ofZ 0) as Hstep.
    { unfold square. rewrite (Number.sub_Z 0 0), Z.sub_diag by done.
      rewrite (Number.mul_Z 0 0) by done. change (0 * 0)%Z with 0%Z.
      by rewrite (Number.add_Z 0 0) by done. }
    induction m as [|m IH]; [done|]. cbn [replicate foldl]. by rewrite Hstep. }
  assert (∀ m, zip_with (λ prev next, Number.sub (Number.ofZ next) (Number.ofZ prev))
                 (replicate (S m) v) (replicate m v) = replicate m (Number.ofZ 0)) as Hdiffs.
  { induction m as [|m IH]; [done|].
    change (replicate (S (S m)) v) with (v :: replicate (S m) v).
    change (replicate (S m) v) with (v :: replicate m v) at 2.
    cbn [zip_with]. rewrite IH. rewrite Number.sub_Z, Z.sub_diag by lia. done. }
  destruct n as [|[|n]]; [lia..|].
  change (drop 1 (replicate (S (S n)) v)) with (replicate (S n) v).
  rewrite Hdiffs. rewrite length_replicate.
  change (replicate (S n) (Number.ofZ 0)) with (Number.ofZ 0 :: replicate n (Number.ofZ 0)) at 1.
  cbv iota. rewrite Hsum.
  assert (Number.div (Number.ofZ 0) (Number.ofZ (Z.of_nat (S n))) = Number.ofZ 0) as Havg.
  { unfold Number.ofZ. cbn [Number.div].
    assert (Qeq_bool (inject_Z (Z.of_nat (S n))) 0 = false) as ->.
    { apply not_true_is_false. intros Hc%Qeq_bool_eq.
      assert (inject_Z (Z.of_nat (S n)) == inject_Z 0)%Q as Hz by done.
      apply (proj1 (inject_Z_injective _ _)) in Hz. lia. }
    apply Number.round_zero. unfold Qdiv. ring. }
  rewrite Havg, Hvar, Havg. reflexivity.
Qed.

(** An array without descent whose two ends hold the same number is
    constant. *)
Lemma ascending_flat (arr : list Z) (v : Z) :
  Arr.ascending Cmp.numeric arr →
  arr !! 0 = Some v → arr !! (length arr - 1) = Some v →
  arr = replicate (length arr) v.
Proof.
  intros Hasc H0 Hlast.
  pose proof (Arr.ascending_sorted _ arr Cmp.numeric_valid Hasc) as Hsorted.
  apply list_eq. intros i. destruct (arr !! i) as [x|] eqn:Hx.
  - pose proof (lookup_lt_Some _ _ _ Hx) as Hi.
    rewrite lookup_replicate_2 by done. f_equal.
    assert (v ≤ x)%Z.
    { destruct (decide (i = 0)) as [->|]; [same_lookup; lia|].
      pose proof (Arr.sorted_lookup _ arr 0 i v x Hsorted ltac:(lia) H0 Hx) as Hle.
      unfold Cmp.numeric in Hle. lia. }
    assert (x ≤ v)%Z.
    { destruct (decide (i = length arr - 1)) as [->|]; [same_lookup; lia|].
      pose proof (Arr.sorted_lookup _ arr i (length arr - 1) x v Hsorted ltac:(lia) Hx Hlast)
        as Hle.
      unfold Cmp.numeric in Hle. lia. }
    lia.
  - symmetry. apply lookup_replicate_None. by apply lookup_ge_None.
Qed.

Lemma mapM_Some_id (arr : list Z) : mapM Some arr = Some arr.
Proof. induction arr as [|x arr IH]; [done|]. cbn. by rewrite IH. Qed.

Lemma present_numeric (arr : list Z) target : present Cmp.numeric arr target ↔ target ∈ arr.
Proof.
  unfold present, Cmp.numeric. rewrite list_elem_of_lookup. split.
  - intros (k & x & Hx & Hz). exists k. rewrite Hx. f_equal. lia.
  - intros [k Hk]. exists k, target. split; [done|lia].
Qed.

(** [search] with the default comparator answers correctly on an array
    of integers on which the arithmetic of the probe is exact, sorted or
    not: an array whose two ends hold the target does not pass the
    uniformity test, and goes to [binarySearch]. *)
Lemma search_numeric_correct (arr : list Z) (target : Z) :
  exact arr →
  ∃ r, search Cmp.numeric Some arr target = inr r ∧ correct Cmp.numeric arr target r.
Proof.
  intros Hexact.
  unfold search. case_bool_decide; [eexists; split; [done|apply linearSearch_correct]|].
  destruct (sortedScan Cmp.numeric arr) as [calls|calls] eqn:Hscan; cbn [negb];
    [|eexists; split; [done|apply linearSearch_correct]].
  apply sortedScan_inl in Hscan as Hasc.
  rewrite mapM_Some_id.
  destruct (isUniformlyDistributed arr) eqn:Hu;
    [|by apply binarySearch_correct, Hasc; apply Cmp.numeric_valid].
  eexists. split; [done|].
  destruct (interpolationSearch_correct arr target Hasc) as [Habsent Hpresent].
  destruct (decide (target ∈ arr)) as [Hin|Hnin].
  - left. destruct (Hpresent Hexact Hin) as (i & x & Hi & He & Hx & Hz).
    { intros (_ & H0 & Hlast).
      rewrite (ascending_flat arr target Hasc H0 Hlast), isUniformlyDistributed_flat in Hu.
      done. }
    exists i, x. unfold ofNumbers. simpl. rewrite He, Hi, get_of_nat. done.
  - right. destruct (Habsent Hnin) as [He Hi]. split.
    + split; unfold ofNumbers; simpl; [by rewrite He|done].
    + by rewrite present_numeric.
Qed.

(** *** Evenly spaced arrays *)

(** [[a, a + d, a + 2d, ...]], [n] elements. *)
Definition evenlySpaced (a d : Z) (n : nat) : list Z :=
  (λ i : nat, a + Z.of_nat i * d)%Z <$> seq 0 n.

Lemma lookup_evenlySpaced a d n (i : nat) :
  i < n → evenlySpaced a d n !! i = Some (a + Z.of_nat i * d)%Z.
Proof.
  intros Hi. unfold evenlySpaced. rewrite list_lookup_fmap, lookup_seq_lt by done. done.
Qed.

(** On an evenly spaced array on which the arithmetic of the probe is
    exact, the first probe of [interpolationSearch] lands on the target. *)
Lemma interpolationSearch_evenlySpaced (a d : Z) (n k : nat) :
  (0 < d)%Z → k < n → exact (evenlySpaced a d n) →
  interpolationSearch (evenlySpaced a d n) (a + Z.of_nat k * d) =
    {| element := Some (a + Z.of_nat k * d)%Z; index := Z.of_nat k; comparisons := 1 |}.
Proof.
  intros Hd Hk Hexact. unfold interpolationSearch. rewrite interpolationLoop_eq.
  assert (length (evenlySpaced a d n) = n) as Hlen
    by (unfold evenlySpaced; by rewrite length_fmap, length_seq).
  set (target := (a + Z.of_nat k * d)%Z).
  set (b := (a + Z.of_nat (n - 1) * d)%Z).
  assert (evenlySpaced a d n !! 0 = Some a) as Ha
    by (rewrite lookup_evenlySpaced by lia; f_equal; lia).
  assert (evenlySpaced a d n !! (n - 1) = Some b) as Hb
    by (by rewrite lookup_evenlySpaced by lia).
  pose proof (exact_product _ _ _ a b Hexact Ha Hb) as Hprod.
  rewrite Hlen in Hprod |- *.
  assert (inWindow (evenlySpaced a d n) target 0 (Z.of_nat n - 1) = Some (a, b)) as ->.
  { unfold inWindow. rewrite bool_decide_eq_true_2 by lia.
    replace (Z.of_nat n - 1)%Z with (Z.of_nat (n - 1)) by lia.
    change 0%Z with (Z.of_nat 0).
    rewrite !get_of_nat, Ha, Hb.
    rewrite !bool_decide_eq_true_2; [done|subst target b; nia|subst target; nia]. }
  destruct (decide (0 = Z.of_nat n - 1)%Z) as [Hone|Hmore].
  { assert (k = 0) as -> by lia. rewrite bool_decide_eq_true_2 by (subst target; lia).
    f_equal. subst target. f_equal. lia. }
  assert (probe target 0 (Z.of_nat n - 1) a b = Number.ofZ (Z.of_nat k)) as ->.
  { rewrite probe_exact; [|lia| |subst target b; nia|subst b; nia|subst b; nia|
                           subst target b; nia].
    - f_equal. subst target b.
      replace ((Z.of_nat n - 1 - 0) * (a + Z.of_nat k * d - a))%Z
        with (Z.of_nat k * (Z.of_nat (n - 1) * d))%Z by nia.
      replace (a + Z.of_nat (n - 1) * d - a)%Z with (Z.of_nat (n - 1) * d)%Z by lia.
      rewrite Z.div_mul by nia. lia.
    - subst b. nia. }
  unfold Number.ofZ. rewrite Qfloor_Z, decide_True by lia.
  rewrite get_of_nat, lookup_evenlySpaced by done. fold target.
  destruct (Z_dec' target target) as [[?|?]|_]; [lia..|done].
Qed.
End Searching.

(** ** The binary search tree: [class BinarySearchTree] *)

Module BinarySearchTree.

(** A node object [{ value, left, right }]; [null] is [Null].  A node is
    never written after it is made ([insertNode] and [removeNode] build
    new objects with the spread [{ ...node, left: ... }]), so nodes are
    values.  The values are numbers, compared with [<], [>] and [===]. *)
Inductive node :=
  | Null
  | Node (value : Z) (left right : node).

(** A tree object: [this.root] and [this._size]. *)
Record tree := { root : node; _size : nat }.

(** [new BinarySearchTree()]. *)
Definition new : tree := {| root := Null; _size := 0 |}.

(** [insertNode(node, value)]. *)
Fixpoint insertNode (n : node) (value : Z) : node :=
  match n with
  | Null => Node value Null Null
  | Node v l r =>
      if bool_decide (value < v)%Z
      then Node v (insertNode l value) r
      else Node v l (insertNode r value)
  end.

(** [findMin(node)]: [while (current.left) current = current.left].  It is
    called on a node that is not [null]. *)
Fixpoint findMin (n : node) : node :=
  match n with
  | Node _ (Node _ _ _ as l) _ => findMin l
  | _ => n
  end.

(** [removeNode(node, value)]. *)
Fixpoint removeNode (n : node) (value : Z) : node :=
  match n with
  | Null => Null
  | Node v l r =>
      if bool_decide (value < v)%Z then Node v (removeNode l value) r
      else if bool_decide (v < value)%Z then Node v l (removeNode r value)
      else
        match l, r with
        | Null, _ => r
        | _, Null => l
        | _, _ =>
            match findMin r with
            | Node m _ _ => Node m l (removeNode r m)
            | Null => n
            end
        end
  end.

(** [findNode(node, value)]. *)
Fixpoint findNode (n : node) (value : Z) : node :=
  match n with
  | Null => Null
  | Node v l r =>
      if bool_decide (value = v) then n
      else if bool_decide (value < v)%Z then findNode l value else findNode r value
  end.

(** [calculateSize(node)]. *)
Fixpoint calculateSize (n : node) : nat :=
  match n with
  | Null => 0
  | Node _ l r => 1 + calculateSize l + calculateSize r
  end.

(** [inorderTraversal(node)], the values it yields. *)
Fixpoint inorderTraversal (n : node) : list Z :=
  match n with
  | Null => []
  | Node v l r => inorderTraversal l ++ v :: inorderTraversal r
  end.

(** [insert(value)]. *)
Definition insert (t : tree) (value : Z) : tree :=
  {| root := insertNode (root t) value; _size := _size t + 1 |}.

(** [remove(value)]. *)
Definition remove (t : tree) (value : Z) : tree :=
  let root := removeNode (root t) value in
  {| root := root; _size := calculateSize root |}.

(** [contains(value)]: [findNode(this.root, value) !== null]. *)
Definition contains (t : tree) (value : Z) : bool :=
  match findNode (root t) value with Null => false | Node _ _ _ => true end.

(** [size()]. *)
Definition size (t : tree) : nat := _size t.

(** [[...tree]]. *)
Definition iterate (t : tree) : list Z := inorderTraversal (root t).

(** The trees a client can build: from the empty tree, by [insert] and
    [remove]. *)
Inductive update :=
  | Insert (value : Z)
  | Remove (value : Z).

Definition apply (t : tree) (u : update) : tree :=
  match u with
  | Insert value => insert t value
  | Remove value => remove t value
  end.

Definition build (updates : list update) : tree := foldl apply new updates.

(** *** The search order *)

(** Smaller values are on the left, the others on the right. *)
Fixpoint ordered (n : node) : Prop :=
  match n with
  | Null => True
  | Node v l r =>
      ordered l ∧ ordered r ∧
      Forall (λ x, x < v)%Z (inorderTraversal l) ∧
      Forall (λ x, v ≤ x)%Z (inorderTraversal r)
  end.

Lemma insertNode_perm n value :
  inorderTraversal (insertNode n value) ≡ₚ value :: inorderTraversal n.
Proof.
  induction n as [|v l IHl r IHr]; [done|]. simpl. case_bool_decide; simpl.
  - by rewrite IHl.
  - rewrite IHr. by rewrite Permutation_middle, (Permutation_swap value v), <-Permutation_middle.
Qed.

Lemma insertNode_ordered n value : ordered n → ordered (insertNode n value).
Proof.
  induction n as [|v l IHl r IHr]; [by repeat split|].
  intros (Hl & Hr & Hlv & Hrv). simpl. case_bool_decide; simpl.
  - split; [auto|]. split; [done|]. split; [|done].
    rewrite insertNode_perm. by constructor.
  - split; [done|]. split; [auto|]. split; [done|].
    rewrite insertNode_perm. constructor; [lia|done].
Qed.

Lemma ordered_sorted n : ordered n → StronglySorted Z.le (inorderTraversal n).
Proof.
  induction n as [|v l IHl r IHr]; [constructor|].
  intros (Hl & Hr & Hlv & Hrv). simpl. apply StronglySorted_app. split; [|split].
  - intros x y Hx [->|Hy]%elem_of_cons.
    + rewrite Forall_forall in Hlv. specialize (Hlv x Hx). lia.
    + rewrite Forall_forall in Hlv, Hrv. specialize (Hlv x Hx). specialize (Hrv y Hy). lia.
  - auto.
  - constructor; [auto|done].
Qed.

(** [findMin] returns a node of the subtree whose value is the least of
    the subtree. *)
Lemma findMin_node v l r :
  ∃ m ml mr, findMin (Node v l r) = Node m ml mr ∧
             m ∈ inorderTraversal (Node v l r) ∧
             (ordered (Node v l r) → Forall (λ x, m ≤ x)%Z (inorderTraversal (Node v l r))).
Proof.
  revert v r. induction l as [|lv ll IHl lr _]; intros v r.
  { exists v, Null, r. split; [done|]. split; [simpl; by left|].
    intros (_ & _ & _ & Hr). simpl. constructor; [lia|done]. }
  destruct (IHl lv lr) as (m & ml & mr & Hmin & Hin & Hle).
  exists m, ml, mr. split; [exact Hmin|].
  split; [cbn [inorderTraversal] in *; apply elem_of_app; by left|].
  intros (Hl & Hr & Hlv & Hrv). specialize (Hle Hl).
  cbn [inorderTraversal] in *. apply Forall_app. split; [done|].
  rewrite Forall_forall in Hlv. specialize (Hlv m Hin).
  constructor; [lia|]. eapply Forall_impl; [done|]. simpl. intros; lia.
Qed.

(** Removing a value that is not in the tree returns the tree. *)
Lemma removeNode_absent n value : value ∉ inorderTraversal n → removeNode n value = n.
Proof.
  induction n as [|v l IHl r IHr]; [done|]. simpl.
  rewrite elem_of_app, elem_of_cons. intros Hnot.
  case_bool_decide; [rewrite IHl; [done|tauto]|].
  case_bool_decide; [rewrite IHr; [done|tauto]|].
  exfalso. apply Hnot. right. left. lia.
Qed.

(** Removing a value that is in the tree takes one occurrence away. *)
Lemma removeNode_perm n value :
  ordered n → value ∈ inorderTraversal n →
  inorderTraversal n ≡ₚ value :: inorderTraversal (removeNode n value).
Proof.
  revert value. induction n as [|v l IHl r IHr]; intros value Hord Hin.
  { by apply elem_of_nil in Hin. }
  destruct Hord as (Hl & Hr & Hlv & Hrv). simpl in *.
  rewrite Forall_forall in Hlv, Hrv.
  apply elem_of_app in Hin. rewrite elem_of_cons in Hin.
  case_bool_decide as Hlt; [|case_bool_decide as Hgt].
  - simpl. rewrite (IHl value) at 1; [done|done|].
    destruct Hin as [?|[->|Hin]]; [done|lia|]. specialize (Hrv _ Hin). lia.
  - simpl. rewrite (IHr value) at 1; [|done|].
    + by rewrite <-!Permutation_middle, (Permutation_swap v value).
    + destruct Hin as [Hin|[->|?]]; [|lia|done]. specialize (Hlv _ Hin). lia.
  - assert (value = v) as -> by lia.
    destruct l as [|lv ll lr].
    { done. }
    destruct r as [|rv rl rr].
    { symmetry. apply Permutation_cons_append. }
    destruct (findMin_node rv rl rr) as (m & ml & mr & -> & Hm & _).
    cbn [inorderTraversal].
    rewrite (IHr m Hr Hm) at 1.
    by rewrite <-(Permutation_middle _ (m :: _) v).
Qed.

Lemma removeNode_ordered n value : ordered n → ordered (removeNode n value).
Proof.
  revert value. induction n as [|v l IHl r IHr]; intros value Hord; [done|].
  pose proof Hord as (Hl & Hr & Hlv & Hrv). simpl.
  assert (∀ n' w, ordered n' → inorderTraversal (removeNode n' w) ⊆ inorderTraversal n')
    as Hsub.
  { intros n' w Hn' x Hx. destruct (decide (w ∈ inorderTraversal n')) as [Hw|Hw].
    - rewrite (removeNode_perm n' w Hn' Hw). by right.
    - by rewrite removeNode_absent in Hx. }
  case_bool_decide; [|case_bool_decide].
  - simpl. split; [auto|]. split; [done|]. split; [|done].
    rewrite Forall_forall in Hlv |- *. intros x Hx. by apply Hlv, (Hsub l value).
  - simpl. split; [done|]. split; [auto|]. split; [done|].
    rewrite Forall_forall in Hrv |- *. intros x Hx. by apply Hrv, (Hsub r value).
  - destruct l as [|lv ll lr]; [done|]. destruct r as [|rv rl rr]; [done|].
    destruct (findMin_node rv rl rr) as (m & ml & mr & -> & Hm & Hmin).
    specialize (Hmin Hr). rewrite Forall_forall in Hlv, Hrv, Hmin.
    pose proof (Hrv m Hm).
    cbn [ordered]. split; [done|]. split; [auto|]. split.
    + rewrite Forall_forall. intros x Hx. specialize (Hlv x Hx). lia.
    + rewrite Forall_forall. intros x Hx. by apply Hmin, (Hsub _ m).
Qed.

(** On an ordered tree, [findNode] finds exactly the values of the
    tree. *)
Lemma findNode_elem_of n value :
  ordered n → findNode n value ≠ Null ↔ value ∈ inorderTraversal n.
Proof.
  induction n as [|v l IHl r IHr]; intros Hord.
  { simpl. split; [done|by intros ?%elem_of_nil]. }
  destruct Hord as (Hl & Hr & Hlv & Hrv). simpl.
  rewrite Forall_forall in Hlv, Hrv. rewrite elem_of_app, elem_of_cons.
  case_bool_decide as Heq; [split; [auto|done]|].
  case_bool_decide as Hlt.
  - rewrite (IHl Hl). split; [auto|]. intros [?|[?|Hin]]; [done..|].
    specialize (Hrv _ Hin). lia.
  - rewrite (IHr Hr). split; [auto|]. intros [Hin|[?|?]]; [|done..].
    specialize (Hlv _ Hin). lia.
Qed.

Lemma calculateSize_length n : calculateSize n = length (inorderTraversal n).
Proof.
  induction n as [|v l IHl r IHr]; [done|]. simpl.
  rewrite length_app. simpl. lia.
Qed.

(** Every tree a client builds is ordered, and its [_size] is the number
    of its nodes. *)
Lemma build_ok updates :
  ordered (root (build updates)) ∧
  _size (build updates) = calculateSize (root (build updates)).
Proof.
  unfold build. induction updates as [|u updates IH] using rev_ind; [done|].
  rewrite foldl_app. simpl. destruct IH as [Hord Hsize].
  destruct u as [value|value]; simpl.
  - split; [by apply insertNode_ordered|].
    rewrite Hsize, !calculateSize_length, insertNode_perm. simpl. lia.
  - split; [by apply removeNode_ordered|done].
Qed.
End BinarySearchTree.

(** ** The n-ary tree: [class GeneralTree] *)

Module GeneralTree.
Section Tree.
(** The values are compared with [===]. *)
Context {T : Type} `{EqDecision T}.

(** A node object [{ value, children }].  Nodes are never written after
    they are made, so they are values. *)
#[local] Unset Elimination Schemes.
Inductive node := Node (value : T) (children : list node).
#[local] Set Elimination Schemes.

(** A tree object: [this.root] ([None] for [null]) and [this._size]. *)
Record tree := { root : option node; _size : nat }.

(** [new GeneralTree()]. *)
Definition new : tree := {| root := None; _size := 0 |}.

(** [insert(value)]: a tree that has a root is returned as it is. *)
Definition insert (t : tree) (value : T) : tree :=
  match root t with
  | Some _ => t
  | None => {| root := Some (Node value []); _size := 1 |}
  end.

(** [insertChildNode(node, parentValue, childValue)] on a node that is not
    [null]; the children of a node never are. *)
Fixpoint insertChildNode (n : node) (parentValue childValue : T) : node :=
  match n with
  | Node v children =>
      if decide (v = parentValue)
      then Node v (children ++ [Node childValue []])
      else Node v (List.map (λ child, insertChildNode child parentValue childValue) children)
  end.

(** [calculateSize(node)]. *)
Fixpoint calculateSize (n : node) : nat :=
  match n with
  | Node _ children =>
      1 + fold_left (λ sum child, sum + calculateSize child) children 0
  end.

(** [insertChild(parentValue, childValue)]. *)
Definition insertChild (t : tree) (parentValue childValue : T) : tree :=
  let root := (λ n, insertChildNode n parentValue childValue) <$> root t in
  {| root := root;
     _size := match root with Some n => calculateSize n | None => 0 end |}.

(** [size()]. *)
Definition size (t : tree) : nat := _size t.

(** The number of nodes of a node and of a queue of nodes. *)
Fixpoint nodes (n : node) : nat :=
  match n with
  | Node _ children => S (list_sum (List.map nodes children))
  end.

Definition weight (queue : list node) : nat := list_sum (List.map nodes queue).

Lemma weight_app queue1 queue2 : weight (queue1 ++ queue2) = weight queue1 + weight queue2.
Proof. unfold weight. by rewrite List.map_app, list_sum_app. Qed.

(** The loop of [levelOrder]: [node = queue.shift(); yield node.value;
    queue.push(...node.children)] while the queue is not empty. *)
Equations? levelLoop (queue : list node) : list T by wf (weight queue) lt :=
  levelLoop [] := [];
  levelLoop (Node value children :: rest) := value :: levelLoop (rest ++ children).
Proof. rewrite weight_app. unfold weight. simpl. lia. Qed.

(** [levelOrder()], and [[...tree]], which is the same. *)
Definition levelOrder (t : tree) : list T :=
  match root t with
  | None => []
  | Some r => levelLoop [r]
  end.

Definition iterate (t : tree) : list T := levelOrder t.

(** The trees a client can build: from the empty tree, by [insert] and
    [insertChild]. *)
Inductive update :=
  | Insert (value : T)
  | InsertChild (parentValue childValue : T).

Definition apply (t : tree) (u : update) : tree :=
  match u with
  | Insert value => insert t value
  | InsertChild parentValue childValue => insertChild t parentValue childValue
  end.

Definition build (updates : list update) : tree := foldl apply new updates.

(** *** Induction on nodes *)

Definition node_rect' (P : node → Type) (Q : list node → Type)
    (Hnode : ∀ v children, Q children → P (Node v children))
    (Hnil : Q []) (Hcons : ∀ n children, P n → Q children → Q (n :: children)) :
    ∀ n, P n :=
  fix go n :=
    match n with
    | Node v children =>
        Hnode v children
          ((fix go_list children :=
              match children return Q children with
              | [] => Hnil
              | n :: children => Hcons n children (go n) (go_list children)
              end) children)
    end.

Lemma node_induction (P : node → Prop) :
  (∀ v children, Forall P children → P (Node v children)) → ∀ n, P n.
Proof.
  intros Hnode. apply (node_rect' P (Forall P)); [done|constructor|by constructor].
Qed.

(** *** The values of a tree *)

(** The values of a node and of its descendants, the node first. *)
Fixpoint values (n : node) : list T :=
  match n with
  | Node v children => v :: concat (List.map values children)
  end.

Lemma length_values n : length (values n) = nodes n.
Proof.
  induction n as [v children IH] using node_induction. simpl. f_equal.
  induction IH as [|n children Hn _ IHc]; [done|].
  simpl. rewrite length_app. by rewrite Hn, IHc.
Qed.

Lemma fold_left_sizes (children : list node) (k : nat) :
  fold_left (λ sum child, sum + calculateSize child) children k =
    k + list_sum (List.map calculateSize children).
Proof.
  revert k. induction children as [|n children IH]; intros k; simpl; [lia|].
  rewrite IH. lia.
Qed.

Lemma calculateSize_nodes n : calculateSize n = nodes n.
Proof.
  induction n as [v children IH] using node_induction. simpl. f_equal.
  rewrite fold_left_sizes. simpl. f_equal.
  induction IH as [|n children Hn _ IHc]; [done|]. simpl. by rewrite Hn, IHc.
Qed.

(** The traversal yields the values of the nodes of the queue and of
    their descendants, each node once. *)
Lemma levelLoop_values queue : levelLoop queue ≡ₚ concat (List.map values queue).
Proof.
  remember (weight queue) as m eqn:Hm. revert queue Hm.
  induction m as [m IH] using lt_wf_ind. intros queue ->.
  destruct queue as [|[v children] rest]; simp levelLoop; [done|].
  rewrite (IH (weight (rest ++ children))); [|rewrite weight_app; unfold weight; simpl; lia|done].
  rewrite List.map_app, concat_app. simpl. constructor.
  apply Permutation_app_comm.
Qed.

Lemma levelLoop_root n : levelLoop [n] ≡ₚ values n.
Proof. rewrite levelLoop_values. simpl. by rewrite app_nil_r. Qed.

(** *** Breadth first *)

(** The values at depth [d] below a node, from left to right. *)
Fixpoint level (d : nat) (n : node) : list T :=
  match d, n with
  | 0, Node v _ => [v]
  | S d, Node _ children => concat (List.map (level d) children)
  end.

Definition levels (d : nat) (queue : list node) : list T :=
  concat (List.map (level d) queue).

Lemma levels_app d queue1 queue2 :
  levels d (queue1 ++ queue2) = levels d queue1 ++ levels d queue2.
Proof. unfold levels. by rewrite List.map_app, concat_app. Qed.

(** Deeper than the number of its nodes, a node has no value. *)
Lemma level_deep n : ∀ d, nodes n ≤ d → level d n = [].
Proof.
  induction n as [v children IH] using node_induction. intros [|d] Hd; simpl in *; [lia|].
  assert (list_sum (List.map nodes children) ≤ d) as Hsum by lia. clear Hd.
  induction IH as [|n children Hn _ IHc]; [done|]. simpl in *.
  rewrite Hn by lia. rewrite IHc by lia. done.
Qed.

Lemma levels_deep queue d : weight queue ≤ d → levels d queue = [].
Proof.
  unfold levels, weight. induction queue as [|n queue IH]; [done|]. simpl. intros Hd.
  rewrite level_deep by lia. rewrite IH by lia. done.
Qed.

(** Two families of lists taken alternately. *)
Lemma concat_alternate (R C : nat → list T) (k : nat) :
  concat (List.map (λ d, R d ++ C d) (seq 0 (S k))) =
    R 0 ++ concat (List.map (λ d, C d ++ R (S d)) (seq 0 k)) ++ C k.
Proof.
  induction k as [|k IH]; [simpl; by rewrite !app_nil_r|].
  rewrite (seq_S (S k) 0), List.map_app, concat_app, IH.
  rewrite (seq_S k 0), List.map_app, concat_app. simpl.
  rewrite !app_nil_r. by rewrite <-!app_assoc.
Qed.

(** The traversal yields the values of the queue depth by depth. *)
Lemma levelLoop_levels queue : ∀ h,
  (∀ d, h ≤ d → levels d queue = []) →
  levelLoop queue = concat (List.map (λ d, levels d queue) (seq 0 h)).
Proof.
  remember (weight queue) as m eqn:Hm. revert queue Hm.
  induction m as [m IH] using lt_wf_ind. intros queue -> h Hdeep.
  destruct queue as [|[v children] rest]; simp levelLoop.
  { clear. induction (seq 0 h) as [|d l IHl]; [done|]. simpl. by rewrite <-IHl. }
  destruct h as [|k]; [by specialize (Hdeep 0 ltac:(lia))|].
  assert (∀ d, k ≤ d → levels d children = []) as Hchildren.
  { intros d Hd. specialize (Hdeep (S d) ltac:(lia)). unfold levels in Hdeep.
    simpl in Hdeep. by apply app_eq_nil in Hdeep as [? _]. }
  assert (∀ d, S k ≤ d → levels d rest = []) as Hrest.
  { intros d Hd. specialize (Hdeep d Hd). unfold levels in Hdeep.
    simpl in Hdeep. by apply app_eq_nil in Hdeep as [_ ?]. }
  rewrite (IH (weight (rest ++ children))) with (h := S k);
    [|rewrite weight_app; unfold weight; simpl; lia|done|].
  2:{ intros d Hd. rewrite levels_app, Hrest by done. by rewrite Hchildren by lia. }
  assert (List.map (λ d, levels d (rest ++ children)) (seq 0 (S k)) =
          List.map (λ d, levels d rest ++ levels d children) (seq 0 (S k))) as ->
    by (apply List.map_ext; intros; apply levels_app).
  rewrite (concat_alternate (λ d, levels d rest) (λ d, levels d children) k).
  rewrite (Hchildren k) by done. rewrite app_nil_r.
  cbn [seq List.map concat]. unfold levels at 3. cbn [List.map concat level app].
  f_equal. fold (levels 0 rest). f_equal.
  rewrite <-seq_shift, List.map_map. f_equal.
Qed.

(** *** [insertChild] *)

(** Without a node that holds [parentValue], nothing changes. *)
Lemma insertChildNode_absent n parentValue childValue :
  parentValue ∉ values n → insertChildNode n parentValue childValue = n.
Proof.
  induction n as [v children IH] using node_induction. simpl.
  rewrite not_elem_of_cons. intros [Hv Hrest].
  rewrite decide_False by done. f_equal.
  induction IH as [|n children Hn _ IHc]; [done|]. simpl in *.
  rewrite not_elem_of_app in Hrest. destruct Hrest as [H1 H2].
  by rewrite Hn, IHc.
Qed.

(** With one, the new tree holds the old values and one or more copies of
    [childValue]. *)
Lemma insertChildNode_present n parentValue childValue :
  parentValue ∈ values n →
  ∃ k, 0 < k ∧
       values (insertChildNode n parentValue childValue) ≡ₚ
         replicate k childValue ++ values n.
Proof.
  induction n as [v children IH] using node_induction. cbn [insertChildNode].
  destruct (decide (v = parentValue)) as [->|Hne].
  { intros _. exists 1. split; [lia|]. cbn [values].
    rewrite List.map_app, concat_app. simpl.
    etrans; [|apply Permutation_swap]. apply perm_skip.
    symmetry. apply Permutation_cons_append. }
  cbn [values]. rewrite elem_of_cons. intros [?|Hin]; [done|].
  assert (∃ k, 0 < k ∧
            concat (List.map values
              (List.map (λ child, insertChildNode child parentValue childValue) children)) ≡ₚ
            replicate k childValue ++ concat (List.map values children)) as (k & Hk & Hperm).
  { induction IH as [|n children Hn _ IHc]; [by apply elem_of_nil in Hin|].
    simpl in Hin. apply elem_of_app in Hin.
    destruct (decide (parentValue ∈ values n)) as [Hn'|Hn'].
    - destruct (Hn Hn') as (k1 & Hk1 & Hp1).
      destruct (decide (parentValue ∈ concat (List.map values children))) as [Hr|Hr].
      + destruct (IHc Hr) as (k2 & Hk2 & Hp2). exists (k1 + k2). split; [lia|].
        simpl. rewrite Hp1, Hp2, replicate_add.
        rewrite <-!app_assoc. f_equiv.
        rewrite !app_assoc. f_equiv. apply Permutation_app_comm.
      + exists k1. split; [done|]. simpl. rewrite Hp1, <-app_assoc. do 2 f_equiv.
        clear -Hr. induction children as [|c children IHl]; [done|].
        simpl in *. rewrite not_elem_of_app in Hr. destruct Hr as [H1 H2].
        by rewrite insertChildNode_absent, IHl.
    - destruct Hin as [?|Hr]; [done|].
      destruct (IHc Hr) as (k2 & Hk2 & Hp2). exists k2. split; [done|].
      simpl. rewrite insertChildNode_absent by done. rewrite Hp2.
      rewrite !app_assoc. f_equiv. apply Permutation_app_comm. }
  exists k. split; [done|]. rewrite Hperm.
  by rewrite <-Permutation_middle.
Qed.

(** With distinct values, exactly one copy. *)
Lemma insertChildNode_distinct n parentValue childValue :
  NoDup (values n) → parentValue ∈ values n →
  values (insertChildNode n parentValue childValue) ≡ₚ childValue :: values n.
Proof.
  induction n as [v children IH] using node_induction. cbn [insertChildNode].
  destruct (decide (v = parentValue)) as [->|Hne].
  { intros _ _. cbn [values].
    rewrite List.map_app, concat_app. simpl.
    etrans; [|apply Permutation_swap]. apply perm_skip.
    symmetry. apply Permutation_cons_append. }
  cbn [values]. rewrite NoDup_cons, elem_of_cons. intros [_ Hnd] [?|Hin]; [done|].
  etrans; [|apply Permutation_swap]. apply perm_skip.
  induction IH as [|n children Hn _ IHc]; [by apply elem_of_nil in Hin|].
  simpl in *. apply NoDup_app in Hnd as (Hnd1 & Hdisj & Hnd2).
  apply elem_of_app in Hin as [Hin|Hin].
  - rewrite (Hn Hnd1 Hin). simpl. do 2 f_equiv.
    specialize (Hdisj _ Hin). clear -Hdisj.
    induction children as [|c children IHl]; [done|].
    simpl in *. rewrite not_elem_of_app in Hdisj. destruct Hdisj as [H1 H2].
    by rewrite insertChildNode_absent, IHl.
  - rewrite insertChildNode_absent by (intros Hn'; by apply (Hdisj _ Hn')).
    rewrite (IHc Hnd2 Hin). by rewrite Permutation_middle.
Qed.

(** Every tree a client builds has the size of its root. *)
Lemma build_size updates :
  _size (build updates) =
    match root (build updates) with Some n => nodes n | None => 0 end.
Proof.
  unfold build. induction updates as [|u updates IH] using rev_ind; [done|].
  rewrite foldl_app. simpl. destruct u as [value|parentValue childValue]; simpl.
  - unfold insert. destruct (root (foldl apply new updates)) eqn:Hr.
    + by rewrite IH, Hr.
    + done.
  - destruct (root (foldl apply new updates)); simpl; [|done].
    apply calculateSize_nodes.
Qed.
End Tree.
End GeneralTree.

(** ** The prefix tree: [class Trie] *)

Module Trie.
Section Trie.
(** [C] is the type of the characters [for (const char of word)] yields,
    and [toLowerCase] is [String.prototype.toLowerCase]. *)
Context {C : Type} `{EqDecision C} (toLowerCase : list C → list C).

(** A node object [{ isEndOfWord, children }].  [children] is a [Map] from
    characters to node objects; it belongs to one node, and keeps its
    entries in insertion order.  Node objects are shared between tries and
    written in place, so they live in a store. *)
Record node := { isEndOfWord : bool; children : list (C * loc) }.

(** A trie object: the reference in [this.root]. *)
Record trie := { root : loc }.

Local Abbreviation store := (gmap loc node).

(** [map.get(char)], [None] for [undefined]; [map.has(char)] is whether it
    is [Some]. *)
Fixpoint mapGet (map : list (C * loc)) (char : C) : option loc :=
  match map with
  | [] => None
  | (key, value) :: map => if decide (key = char) then Some value else mapGet map char
  end.

(** [map.set(char, value)]. *)
Fixpoint mapSet (map : list (C * loc)) (char : C) (value : loc) : list (C * loc) :=
  match map with
  | [] => [(char, value)]
  | (key, old) :: map =>
      if decide (key = char) then (key, value) :: map
      else (key, old) :: mapSet map char value
  end.

(** [{ isEndOfWord: false, children: new Map() }]. *)
Definition newNode : node := {| isEndOfWord := false; children := [] |}.

(** A new object gets a location that is not in use. *)
Definition alloc (σ : store) (n : node) : loc * store :=
  let l := fresh (dom σ) in (l, <[l := n]> σ).

(** The node a reference leads to; the library holds no dangling
    reference. *)
Definition read (σ : store) (l : loc) : node := default newNode (σ !! l).

(** [new Trie()]. *)
Definition new (σ : store) : trie * store :=
  let '(l, σ) := alloc σ newNode in ({| root := l |}, σ).

(** The loop of [insert]:
    [for (const char of ...) { if (!current.children.has(char))
    current.children.set(char, { ... }); current = current.children.get(char); }].
    It returns the last [current]. *)
Fixpoint insertLoop (σ : store) (current : loc) (chars : list C) : loc * store :=
  match chars with
  | [] => (current, σ)
  | char :: chars =>
      let σ :=
        if mapGet (children (read σ current)) char is Some _ then σ
        else
          let '(l, σ) := alloc σ newNode in
          <[current := {| isEndOfWord := isEndOfWord (read σ current);
                          children := mapSet (children (read σ current)) char l |}]> σ in
      match mapGet (children (read σ current)) char with
      | Some next => insertLoop σ next chars
      | None => (current, σ)
      end
  end.

(** [insert(word)]: the new trie gets a copy of the [Map] of the root of
    the receiver, whose entries lead to the same node objects. *)
Definition insert (t : trie) (word : list C) (σ : store) : trie * store :=
  let '(trie, σ) := new σ in
  let σ := <[root trie := {| isEndOfWord := isEndOfWord (read σ (root trie));
                              children := children (read σ (root t)) |}]> σ in
  let '(current, σ) := insertLoop σ (root trie) (toLowerCase word) in
  let σ := <[current := {| isEndOfWord := true;
                           children := children (read σ current) |}]> σ in
  (trie, σ).

(** [findNode(prefix)] from the node [current] on. *)
Fixpoint findNode (σ : store) (current : loc) (prefix : list C) : option loc :=
  match prefix with
  | [] => Some current
  | char :: prefix =>
      match mapGet (children (read σ current)) char with
      | None => None
      | Some next => findNode σ next prefix
      end
  end.

(** [contains(word)]. *)
Definition contains (t : trie) (word : list C) (σ : store) : bool :=
  match findNode σ (root t) (toLowerCase word) with
  | Some l => isEndOfWord (read σ l)
  | None => false
  end.

(** [containsPrefix(prefix)]. *)
Definition containsPrefix (t : trie) (prefix : list C) (σ : store) : bool :=
  match findNode σ (root t) (toLowerCase prefix) with
  | Some _ => true
  | None => false
  end.

(** *** Stores that grow *)

(** Every entry of every [Map] is kept, and every end-of-word mark. *)
Definition grows (σ σ' : store) : Prop :=
  ∀ l, (∀ char next, mapGet (children (read σ l)) char = Some next →
                     mapGet (children (read σ' l)) char = Some next) ∧
       (isEndOfWord (read σ l) = true → isEndOfWord (read σ' l) = true).

Lemma grows_refl σ : grows σ σ.
Proof. by intros l. Qed.

Lemma grows_trans σ1 σ2 σ3 : grows σ1 σ2 → grows σ2 σ3 → grows σ1 σ3.
Proof.
  intros H12 H23 l. destruct (H12 l) as [Ha Hb], (H23 l) as [Hc Hd]. split; auto.
Qed.

Lemma read_insert (σ : store) l n l' :
  read (<[l := n]> σ) l' = if decide (l' = l) then n else read σ l'.
Proof.
  unfold read. case_decide as Hl; [subst; by rewrite lookup_insert_eq|].
  by rewrite lookup_insert_ne.
Qed.

Lemma read_fresh (σ : store) : read σ (fresh (dom σ)) = newNode.
Proof.
  unfold read. assert (σ !! fresh (dom σ) = None) as ->; [|done].
  apply not_elem_of_dom, is_fresh.
Qed.

(** A new empty node changes no read. *)
Lemma read_alloc (σ : store) l : read (alloc σ newNode).2 l = read σ l.
Proof.
  unfold alloc. simpl. rewrite read_insert. case_decide as Hl; [|done].
  by rewrite Hl, read_fresh.
Qed.

Lemma mapGet_mapSet map char value : mapGet (mapSet map char value) char = Some value.
Proof.
  induction map as [|[key old] map IH]; simpl; [by rewrite decide_True|].
  case_decide; simpl; [by rewrite decide_True|by rewrite decide_False].
Qed.

Lemma mapGet_mapSet_ne map char value char' :
  char ≠ char' → mapGet (mapSet map char value) char' = mapGet map char'.
Proof.
  intros Hne. induction map as [|[key old] map IH]; simpl; [by rewrite decide_False|].
  case_decide as Hk; simpl; [subst; by rewrite !decide_False|].
  by rewrite IH.
Qed.

(** Adding an entry under a character that has none, and marking a node,
    make the store grow. *)
Lemma grows_set (σ : store) current char value :
  mapGet (children (read σ current)) char = None →
  grows σ (<[current := {| isEndOfWord := isEndOfWord (read σ current);
                           children := mapSet (children (read σ current)) char value |}]> σ).
Proof.
  intros Hnone l. rewrite read_insert. case_decide as Hl; [subst l|done]. simpl.
  split; [|done]. intros char' next Hget.
  rewrite mapGet_mapSet_ne; [done|]. intros ->. congruence.
Qed.

Lemma grows_mark (σ : store) current :
  grows σ (<[current := {| isEndOfWord := true;
                           children := children (read σ current) |}]> σ).
Proof.
  intros l. rewrite read_insert. case_decide as Hl; [subst l|done]. by simpl.
Qed.

Lemma grows_alloc (σ : store) : grows σ (alloc σ newNode).2.
Proof. intros l. by rewrite read_alloc. Qed.

(** What was found is found again when the store has grown. *)
Lemma findNode_grows σ σ' current prefix l :
  grows σ σ' → findNode σ current prefix = Some l → findNode σ' current prefix = Some l.
Proof.
  intros Hg. revert current. induction prefix as [|char prefix IH]; intros current; [done|].
  simpl. destruct (mapGet (children (read σ current)) char) as [next|] eqn:Hget; [|done].
  destruct (Hg current) as [Hkeep _]. rewrite (Hkeep char next Hget). apply IH.
Qed.

(** The state after the test and the [set] of one iteration. *)
Definition stepped (σ : store) (current : loc) (char : C) : store :=
  if mapGet (children (read σ current)) char is Some _ then σ
  else
    let '(l, σ) := alloc σ newNode in
    <[current := {| isEndOfWord := isEndOfWord (read σ current);
                    children := mapSet (children (read σ current)) char l |}]> σ.

Lemma stepped_None σ current char :
  mapGet (children (read σ current)) char = None →
  stepped σ current char =
    <[current := {| isEndOfWord := isEndOfWord (read (alloc σ newNode).2 current);
                    children := mapSet (children (read (alloc σ newNode).2 current))
                                  char (fresh (dom σ)) |}]> (alloc σ newNode).2.
Proof. intros Hget. unfold stepped. by rewrite Hget. Qed.

Lemma stepped_grows σ current char : grows σ (stepped σ current char).
Proof.
  destruct (mapGet (children (read σ current)) char) eqn:Hget.
  { unfold stepped. rewrite Hget. apply grows_refl. }
  rewrite stepped_None by done.
  eapply grows_trans; [apply (grows_alloc σ)|].
  apply grows_set. by rewrite read_alloc.
Qed.

Lemma stepped_get σ current char :
  ∃ next, mapGet (children (read (stepped σ current char) current)) char = Some next.
Proof.
  destruct (mapGet (children (read σ current)) char) as [next|] eqn:Hget.
  { unfold stepped. rewrite Hget. eauto. }
  rewrite stepped_None by done. rewrite read_insert, decide_True by done. simpl.
  rewrite mapGet_mapSet. eauto.
Qed.

Lemma insertLoop_step σ current char chars :
  insertLoop σ current (char :: chars) =
    match mapGet (children (read (stepped σ current char) current)) char with
    | Some next => insertLoop (stepped σ current char) next chars
    | None => (current, stepped σ current char)
    end.
Proof. reflexivity. Qed.

(** The loop makes the store grow, and lays the path of the characters
    from [current] to the node it returns. *)
Lemma insertLoop_spec chars : ∀ σ current,
  grows σ (insertLoop σ current chars).2 ∧
  findNode (insertLoop σ current chars).2 current chars =
    Some (insertLoop σ current chars).1.
Proof.
  induction chars as [|char chars IH]; intros σ current; [split; [apply grows_refl|done]|].
  rewrite insertLoop_step.
  destruct (stepped_get σ current char) as [next Hnext]. rewrite Hnext.
  destruct (IH (stepped σ current char) next) as [Hg Hfind].
  split; [eapply grows_trans; [apply stepped_grows|done]|].
  cbn [findNode]. destruct (Hg current) as [Hkeep _].
  by rewrite (Hkeep char next Hnext).
Qed.

(** The states [insert] goes through. *)
Definition rooted (t : trie) (σ : store) : store :=
  let '(trie, σ) := new σ in
  <[root trie := {| isEndOfWord := isEndOfWord (read σ (root trie));
                    children := children (read σ (root t)) |}]> σ.

Lemma insert_eq t word σ :
  insert t word σ =
    let r := fresh (dom σ) in
    let '(current, σ') := insertLoop (rooted t σ) r (toLowerCase word) in
    ({| root := r |},
     <[current := {| isEndOfWord := true; children := children (read σ' current) |}]> σ').
Proof. reflexivity. Qed.

Lemma insert_root t word σ : root (insert t word σ).1 = fresh (dom σ).
Proof. rewrite insert_eq. cbv zeta. by destruct (insertLoop _ _ _). Qed.

Lemma rooted_children t σ :
  children (read (rooted t σ) (fresh (dom σ))) = children (read σ (root t)).
Proof.
  unfold rooted, new, alloc. rewrite read_insert, decide_True by done. simpl.
  rewrite read_insert. case_decide as Hl; [|done]. by rewrite Hl, read_fresh.
Qed.

Lemma rooted_grows t σ : grows σ (rooted t σ).
Proof.
  intros l. unfold rooted, new, alloc. rewrite read_insert. simpl.
  case_decide as Hl; [|by rewrite read_insert, decide_False].
  subst l. rewrite read_fresh. by split.
Qed.

Lemma insert_grows t word σ : grows σ (insert t word σ).2.
Proof.
  rewrite insert_eq. cbv zeta.
  pose proof (insertLoop_spec (toLowerCase word) (rooted t σ) (fresh (dom σ))) as [Hg _].
  destruct (insertLoop _ _ _) as [current σ']. simpl in *.
  eapply grows_trans; [apply rooted_grows|]. eapply grows_trans; [done|apply grows_mark].
Qed.

(** After [insert(word)], the path of [word] leads from the new root to a
    node marked as the end of a word. *)
Lemma insert_path t word σ :
  ∃ l, findNode (insert t word σ).2 (root (insert t word σ).1) (toLowerCase word) = Some l ∧
       isEndOfWord (read (insert t word σ).2 l) = true ∧
       findNode (insertLoop (rooted t σ) (fresh (dom σ)) (toLowerCase word)).2
         (fresh (dom σ)) (toLowerCase word) = Some l ∧
       grows (insertLoop (rooted t σ) (fresh (dom σ)) (toLowerCase word)).2
         (insert t word σ).2.
Proof.
  rewrite insert_eq. cbv zeta.
  pose proof (insertLoop_spec (toLowerCase word) (rooted t σ) (fresh (dom σ))) as [Hg Hfind].
  destruct (insertLoop _ _ _) as [current σ']. simpl in *.
  exists current. split; [|split; [|split]].
  - eapply findNode_grows; [apply grows_mark|done].
  - by rewrite read_insert, decide_True.
  - done.
  - apply grows_mark.
Qed.

Lemma findNode_app σ current prefix rest l :
  findNode σ current (prefix ++ rest) = Some l →
  ∃ l', findNode σ current prefix = Some l'.
Proof.
  revert current. induction prefix as [|char prefix IH]; intros current; [eauto|].
  simpl. destruct (mapGet _ char); [apply IH|done].
Qed.

(** Writing a location that an old store does not hold keeps the old
    store inside the new one. *)
Lemma insertLoop_fresh (σ0 : store) chars : ∀ σ current,
  σ0 ⊆ σ → σ0 !! current = None → is_Some (σ !! current) →
  match chars with
  | [] => True
  | char :: _ => mapGet (children (read σ current)) char = None
  end →
  σ0 ⊆ (insertLoop σ current chars).2 ∧ σ0 !! (insertLoop σ current chars).1 = None.
Proof.
  induction chars as [|char chars IH]; intros σ current Hsub Hcur Halloc Hhead; [done|].
  rewrite insertLoop_step.
  pose proof (stepped_None σ current char Hhead) as Hstep.
  assert (σ !! fresh (dom σ) = None) as Hfresh by apply not_elem_of_dom, is_fresh.
  assert (σ0 !! fresh (dom σ) = None) as Hfresh0
    by (by eapply lookup_weaken_None).
  assert (fresh (dom σ) ≠ current) as Hne.
  { intros Heq. rewrite <-Heq, Hfresh in Halloc. by destruct Halloc. }
  rewrite Hstep. rewrite read_insert, decide_True by done. cbn [children].
  rewrite mapGet_mapSet.
  apply IH.
  - apply insert_subseteq_r; [done|]. cbn [alloc snd].
    by apply insert_subseteq_r.
  - done.
  - cbn [alloc snd]. rewrite lookup_insert_ne by done. rewrite lookup_insert_eq. eauto.
  - destruct chars as [|char' chars']; [done|].
    rewrite read_insert, decide_False by done.
    cbn [alloc snd]. by rewrite read_insert, decide_True.
Qed.

(** *** What [insert] does to the tries *)

Lemma insert_contains t word σ :
  contains (insert t word σ).1 word (insert t word σ).2 = true.
Proof.
  destruct (insert_path t word σ) as (l & Hfind & Hmark & _).
  unfold contains. by rewrite Hfind.
Qed.

Lemma insert_containsPrefix t word prefix rest σ :
  toLowerCase word = toLowerCase prefix ++ rest →
  containsPrefix (insert t word σ).1 prefix (insert t word σ).2 = true.
Proof.
  intros Hword. destruct (insert_path t word σ) as (l & Hfind & _).
  rewrite Hword in Hfind. apply findNode_app in Hfind as [l' Hl'].
  unfold containsPrefix. by rewrite Hl'.
Qed.

(** When the root of the receiver has an entry for the first character,
    the new trie follows it into the nodes of the receiver and writes
    there: the receiver holds the word too. *)
Lemma insert_shared t word σ char rest next :
  toLowerCase word = char :: rest →
  mapGet (children (read σ (root t))) char = Some next →
  contains t word (insert t word σ).2 = true.
Proof.
  intros Hword Hentry.
  destruct (insert_path t word σ) as (l & _ & Hmark & Hloop & Hg).
  pose proof (insertLoop_spec (toLowerCase word) (rooted t σ) (fresh (dom σ))) as [Hg' _].
  pose proof (insert_grows t word σ) as Hall.
  rewrite Hword in Hloop, Hg, Hg'. cbn [findNode] in Hloop.
  destruct (Hg' (fresh (dom σ))) as [Hkeep _].
  rewrite (Hkeep char next) in Hloop by (by rewrite rooted_children).
  unfold contains. rewrite Hword. cbn [findNode].
  destruct (Hall (root t)) as [Hkeep' _]. rewrite (Hkeep' char next Hentry).
  by rewrite (findNode_grows _ _ _ _ _ Hg Hloop).
Qed.

(** When it has none, or the word is empty, [insert] writes new nodes
    only. *)
Lemma insert_apart t word σ :
  match toLowerCase word with
  | [] => True
  | char :: _ => mapGet (children (read σ (root t))) char = None
  end →
  σ ⊆ (insert t word σ).2.
Proof.
  intros Hhead. rewrite insert_eq. cbv zeta.
  assert (σ !! fresh (dom σ) = None) as Hfresh by apply not_elem_of_dom, is_fresh.
  destruct (insertLoop_fresh σ (toLowerCase word) (rooted t σ) (fresh (dom σ)))
    as [Hsub Hlast].
  - unfold rooted, new, alloc. cbn [root].
    apply insert_subseteq_r; [done|]. by apply insert_subseteq_r.
  - done.
  - unfold rooted, new, alloc. rewrite lookup_insert_eq. eauto.
  - destruct (toLowerCase word); [done|]. by rewrite rooted_children.
  - destruct (insertLoop _ _ _) as [current σ']. simpl in *.
    by apply insert_subseteq_r.
Qed.

(** No trie loses a word. *)
Lemma insert_keeps t word σ t' other :
  contains t' other σ = true → contains t' other (insert t word σ).2 = true.
Proof.
  unfold contains. destruct (findNode σ (root t') _) as [l|] eqn:Hfind; [|done].
  intros Hmark. pose proof (insert_grows t word σ) as Hg.
  rewrite (findNode_grows _ _ _ _ _ Hg Hfind). by apply Hg.
Qed.

(** The new trie holds the words of the receiver, the empty word
    apart. *)
Lemma insert_inherits t word σ other :
  toLowerCase other ≠ [] →
  contains t other σ = true →
  contains (insert t word σ).1 other (insert t word σ).2 = true.
Proof.
  unfold contains. destruct (toLowerCase other) as [|char rest]; [done|]. intros _.
  cbn [findNode].
  destruct (mapGet (children (read σ (root t))) char) as [next|] eqn:Hentry; [|done].
  destruct (findNode σ next rest) as [l|] eqn:Hfind; [|done]. intros Hmark.
  pose proof (insert_grows t word σ) as Hall.
  destruct (insert_path t word σ) as (_ & _ & _ & _ & Hg).
  pose proof (insertLoop_spec (toLowerCase word) (rooted t σ) (fresh (dom σ))) as [Hg' _].
  rewrite insert_root.
  destruct (grows_trans _ _ _ Hg' Hg (fresh (dom σ))) as [Hkeep _].
  rewrite (Hkeep char next) by (by rewrite rooted_children).
  rewrite (findNode_grows _ _ _ _ _ Hall Hfind). by apply Hall.
Qed.

(** *** [findWordsWithPrefix] *)

(** [collectWords(node, prefix, words)]; [words] is the array the calls
    share, returned as it is at the end, and [fuel] bounds the depth of the
    recursion ([None] when it is exceeded). *)
Fixpoint collectWords (fuel : nat) (σ : store) (l : loc) (prefix : list C)
    (words : list (list C)) : option (list (list C)) :=
  match fuel with
  | 0 => None
  | S fuel =>
      let words := if isEndOfWord (read σ l) then words ++ [prefix] else words in
      foldl (λ acc entry,
               words ← acc; collectWords fuel σ entry.2 (prefix ++ [entry.1]) words)
        (Some words) (children (read σ l))
  end.

(** [findWordsWithPrefix(prefix)]. *)
Definition findWordsWithPrefix (fuel : nat) (t : trie) (prefix : list C) (σ : store) :
    option (list (list C)) :=
  match findNode σ (root t) (toLowerCase prefix) with
  | Some l => collectWords fuel σ l (toLowerCase prefix) []
  | None => Some []
  end.

(** The tries a client can build: by [new Trie()] and by [insert] on a
    trie built before, named by its rank. *)
Inductive call :=
  | CallNew
  | CallInsert (k : nat) (word : list C).

Record world := { st : store; handles : list trie }.

Definition step (w : world) (c : call) : world :=
  match c with
  | CallNew =>
      {| st := (new (st w)).2; handles := handles w ++ [(new (st w)).1] |}
  | CallInsert k word =>
      match handles w !! k with
      | Some t =>
          {| st := (insert t word (st w)).2;
             handles := handles w ++ [(insert t word (st w)).1] |}
      | None => w
      end
  end.

Definition run (calls : list call) : world := foldl step {| st := ∅; handles := [] |} calls.

(** [word] is a word of the trie: its path leads from the root to a node
    marked as the end of a word. *)
Definition holds (σ : store) (t : trie) (word : list C) : Prop :=
  ∃ l, findNode σ (root t) word = Some l ∧ isEndOfWord (read σ l) = true.

Lemma contains_holds t word σ :
  contains t word σ = true ↔ holds σ t (toLowerCase word).
Proof.
  unfold contains, holds. destruct (findNode σ (root t) (toLowerCase word)) as [l|].
  - split; [eauto|]. by intros (l' & [= <-] & ?).
  - split; [done|]. by intros (l' & ? & ?).
Qed.

(** *** The shape of the store *)

(** The nodes lie at a depth: an entry leads one level down, to a node of
    the store; no [Map] has two entries for a character; and no node is
    deeper than [D]. *)
Definition ranked (σ : store) (depth : loc → nat) (D : nat) : Prop :=
  ∀ l n, σ !! l = Some n →
    depth l ≤ D ∧ NoDup (children n).*1 ∧
    ∀ char l', (char, l') ∈ children n → is_Some (σ !! l') ∧ depth l' = S (depth l).

Lemma mapGet_None map char : mapGet map char = None ↔ char ∉ map.*1.
Proof.
  induction map as [|[key value] map IH]; simpl; [split; [by intros _ ?%elem_of_nil|done]|].
  rewrite not_elem_of_cons. case_decide as Hk; [split; [done|by intros [? _]]|].
  rewrite IH. split; [by split|by intros [_ ?]].
Qed.

Lemma mapGet_elem_of map char l :
  NoDup map.*1 → mapGet map char = Some l ↔ (char, l) ∈ map.
Proof.
  induction map as [|[key value] map IH]; simpl; intros Hnd.
  { split; [done|by intros ?%elem_of_nil]. }
  apply NoDup_cons in Hnd as [Hkey Hnd]. rewrite elem_of_cons.
  case_decide as Hk.
  - subst key. split; [intros [= ->]; by left|].
    intros [[= ->]|Hin]; [done|]. exfalso. apply Hkey.
    apply list_elem_of_fmap. by exists (char, l).
  - rewrite (IH Hnd). split; [by right|]. by intros [[= ? ?]|?].
Qed.

Lemma mapSet_new map char l : mapGet map char = None → mapSet map char l = map ++ [(char, l)].
Proof.
  induction map as [|[key value] map IH]; simpl; [done|].
  case_decide; [done|]. intros Hget. by rewrite IH.
Qed.

Lemma read_Some (σ : store) l n : σ !! l = Some n → read σ l = n.
Proof. unfold read. by intros ->. Qed.

(** What is found from a node of the store is a node of the store. *)
Lemma findNode_allocated σ depth D prefix : ∀ current l,
  ranked σ depth D → is_Some (σ !! current) → findNode σ current prefix = Some l →
  is_Some (σ !! l).
Proof.
  induction prefix as [|char prefix IH]; intros current l Hr [n Hn]; [intros [= <-]; eauto|].
  simpl. rewrite (read_Some _ _ _ Hn).
  destruct (mapGet (children n) char) as [next|] eqn:Hget; [|done].
  destruct (Hr current n Hn) as (_ & Hnd & Hentries).
  apply (mapGet_elem_of _ _ _ Hnd) in Hget. destruct (Hentries char next Hget) as [Hnext _].
  by apply IH.
Qed.

Lemma findNode_app_eq σ current prefix rest l :
  findNode σ current prefix = Some l →
  findNode σ current (prefix ++ rest) = findNode σ l rest.
Proof.
  revert current. induction prefix as [|char prefix IH]; intros current; [by intros [= ->]|].
  simpl. destruct (mapGet _ char); [apply IH|done].
Qed.

(** A new node one level below [current], entered in its [Map]. *)
Lemma ranked_set σ depth D current n char :
  ranked σ depth D → σ !! current = Some n → mapGet (children n) char = None →
  let l := fresh (dom σ) in
  ranked
    (<[current := {| isEndOfWord := isEndOfWord n; children := mapSet (children n) char l |}]>
       (<[l := newNode]> σ))
    (λ x, if decide (x = l) then S (depth current) else depth x)
    (D `max` S (depth current)).
Proof.
  intros Hr Hn Hget l.
  assert (σ !! l = None) as Hfresh by apply not_elem_of_dom, is_fresh.
  assert (current ≠ l) as Hne by (intros ->; congruence).
  assert (∀ x, is_Some (σ !! x) → x ≠ l) as Hold by (intros x [? ?] ->; congruence).
  assert (∀ x, is_Some (σ !! x) →
               is_Some (<[current := {| isEndOfWord := isEndOfWord n;
                                        children := mapSet (children n) char l |}]>
                          (<[l := newNode]> σ) !! x)) as Hkeep.
  { intros x Hx. destruct (decide (x = current)) as [->|]; [rewrite lookup_insert_eq; eauto|].
    rewrite lookup_insert_ne by done. rewrite lookup_insert_ne; [done|]. intros <-. by apply (Hold l). }
  intros l0 n0 Hl0.
  destruct (decide (l0 = current)) as [->|Hc].
  - rewrite lookup_insert_eq in Hl0. injection Hl0 as <-. simpl.
    destruct (Hr current n Hn) as (Hd & Hnd & Hentries).
    rewrite decide_False by done. split; [lia|].
    pose proof (mapSet_new _ _ l Hget) as Hset. split.
    + rewrite Hset, fmap_app. apply NoDup_app. split; [done|]. split; [|apply NoDup_singleton].
      intros key Hkey ->%list_elem_of_singleton. by apply mapGet_None in Hget.
    + intros char' l' Hin. rewrite Hset in Hin.
      apply elem_of_app in Hin as [Hin|Hin%list_elem_of_singleton].
      * destruct (Hentries char' l' Hin) as [Hl' Hdl']. split; [by apply Hkeep|].
        by rewrite decide_False by (by apply Hold).
      * injection Hin as -> ->. rewrite decide_True by done. split; [|done].
        rewrite lookup_insert_ne by done. rewrite lookup_insert_eq. eauto.
  - rewrite lookup_insert_ne in Hl0 by done.
    destruct (decide (l0 = l)) as [->|Hl].
    + rewrite lookup_insert_eq in Hl0. injection Hl0 as <-. cbn [children newNode].
      split; [lia|]. split; [constructor|].
      by intros ? ? ?%elem_of_nil.
    + rewrite lookup_insert_ne in Hl0 by done.
      destruct (Hr l0 n0 Hl0) as (Hd & Hnd & Hentries).
      split; [lia|]. split; [done|].
      intros char' l' Hin. destruct (Hentries char' l' Hin) as [Hl' Hdl'].
      split; [by apply Hkeep|]. by rewrite decide_False by (by apply Hold).
Qed.

(** Marking a node changes no entry. *)
Lemma ranked_mark σ depth D current n :
  ranked σ depth D → σ !! current = Some n →
  ranked (<[current := {| isEndOfWord := true; children := children n |}]> σ) depth D.
Proof.
  intros Hr Hn l0 n0 Hl0.
  assert (∀ x, is_Some (σ !! x) →
               is_Some (<[current := {| isEndOfWord := true; children := children n |}]> σ !! x))
    as Hkeep.
  { intros x Hx. destruct (decide (x = current)) as [->|]; [rewrite lookup_insert_eq; eauto|].
    by rewrite lookup_insert_ne. }
  destruct (decide (l0 = current)) as [->|Hc].
  - rewrite lookup_insert_eq in Hl0. injection Hl0 as <-. simpl.
    destruct (Hr current n Hn) as (Hd & Hnd & Hentries). split; [done|]. split; [done|].
    intros char' l' Hin. destruct (Hentries char' l' Hin). split; [by apply Hkeep|done].
  - rewrite lookup_insert_ne in Hl0 by done.
    destruct (Hr l0 n0 Hl0) as (Hd & Hnd & Hentries). split; [done|]. split; [done|].
    intros char' l' Hin. destruct (Hentries char' l' Hin). split; [by apply Hkeep|done].
Qed.

(** A deeper bound will do. *)
Lemma ranked_weaken σ depth D D' : ranked σ depth D → D ≤ D' → ranked σ depth D'.
Proof.
  intros Hr HD l n Hl. destruct (Hr l n Hl) as (Hd & Hnd & Hentries).
  split; [lia|by split].
Qed.

(** The loop keeps the shape, the nodes there were, and their depths. *)
Lemma insertLoop_ranked chars : ∀ σ current depth D,
  ranked σ depth D → is_Some (σ !! current) →
  ∃ depth' D',
    ranked (insertLoop σ current chars).2 depth' D' ∧
    (∀ l, is_Some (σ !! l) →
          is_Some ((insertLoop σ current chars).2 !! l) ∧ depth' l = depth l) ∧
    is_Some ((insertLoop σ current chars).2 !! (insertLoop σ current chars).1).
Proof.
  induction chars as [|char chars IH]; intros σ current depth D Hr Hcur.
  { exists depth, D. simpl. split; [done|]. split; [by intros|done]. }
  destruct Hcur as [n Hn]. rewrite insertLoop_step.
  destruct (mapGet (children (read σ current)) char) as [next|] eqn:Hget.
  - assert (stepped σ current char = σ) as -> by (unfold stepped; by rewrite Hget).
    rewrite Hget. rewrite (read_Some _ _ _ Hn) in Hget.
    destruct (Hr current n Hn) as (_ & Hnd & Hentries).
    apply (mapGet_elem_of _ _ _ Hnd) in Hget. destruct (Hentries char next Hget) as [Hnext _].
    by apply (IH σ next depth D).
  - rewrite (stepped_None σ current char Hget), !read_alloc.
    assert (σ !! fresh (dom σ) = None) as Hfresh by apply not_elem_of_dom, is_fresh.
    assert (current ≠ fresh (dom σ)) as Hne by (intros Heq; congruence).
    rewrite read_insert, decide_True by done. cbn [children alloc snd].
    rewrite mapGet_mapSet. rewrite (read_Some _ _ _ Hn) in Hget |- *.
    pose proof (ranked_set σ depth D current n char Hr Hn Hget) as Hr'. cbv zeta in Hr'.
    edestruct (IH _ (fresh (dom σ)) _ _ Hr') as (depth' & D' & Hr'' & Hsame & Hlast).
    { rewrite lookup_insert_ne by done. rewrite lookup_insert_eq. eauto. }
    exists depth', D'. split; [done|]. split; [|done].
    intros l Hl. assert (l ≠ fresh (dom σ)) as Hlf by (intros ->; destruct Hl; congruence).
    destruct (Hsame l) as [Hl' Hd'].
    { destruct (decide (l = current)) as [->|]; [rewrite lookup_insert_eq; eauto|].
      rewrite lookup_insert_ne by done. by rewrite lookup_insert_ne. }
    split; [done|]. by rewrite Hd', decide_False.
Qed.

(** [insert] keeps the shape; the new root is at depth 0. *)
Lemma insert_ranked t word σ depth D :
  ranked σ depth D → is_Some (σ !! root t) → depth (root t) = 0 →
  ∃ depth' D',
    ranked (insert t word σ).2 depth' D' ∧
    (∀ l, is_Some (σ !! l) → is_Some ((insert t word σ).2 !! l) ∧ depth' l = depth l) ∧
    is_Some ((insert t word σ).2 !! root (insert t word σ).1) ∧
    depth' (root (insert t word σ).1) = 0.
Proof.
  intros Hr [n Hn] Hd0. rewrite insert_root, insert_eq. cbv zeta.
  assert (σ !! fresh (dom σ) = None) as Hfresh by apply not_elem_of_dom, is_fresh.
  assert (∀ x, is_Some (σ !! x) → x ≠ fresh (dom σ)) as Hold
    by (intros x [? ?] ->; congruence).
  assert (rooted t σ =
          <[fresh (dom σ) := {| isEndOfWord := false; children := children n |}]> σ) as Hrooted.
  { unfold rooted, new, alloc. cbn [root]. rewrite insert_insert_eq.
    rewrite !read_insert, decide_True by done.
    rewrite decide_False by (by apply Hold; eauto). by rewrite (read_Some _ _ _ Hn). }
  assert (ranked (rooted t σ) (λ x, if decide (x = fresh (dom σ)) then 0 else depth x) D)
    as Hr0.
  { rewrite Hrooted. intros l0 n0 Hl0.
    destruct (Hr (root t) n Hn) as (_ & Hnd & Hentries).
    destruct (decide (l0 = fresh (dom σ))) as [->|Hl].
    - rewrite lookup_insert_eq in Hl0. injection Hl0 as <-. simpl. split; [lia|].
      split; [done|]. intros char' l' Hin. destruct (Hentries char' l' Hin) as [Hl' Hdl'].
      rewrite decide_False by (by apply Hold).
      split; [by rewrite lookup_insert_ne by (by apply not_eq_sym, Hold)|]. by rewrite Hdl', Hd0.
    - rewrite lookup_insert_ne in Hl0 by done.
      destruct (Hr l0 n0 Hl0) as (Hd & Hnd0 & Hentries0). split; [done|]. split; [done|].
      intros char' l' Hin. destruct (Hentries0 char' l' Hin) as [Hl' Hdl'].
      rewrite decide_False by (by apply Hold).
      split; [by rewrite lookup_insert_ne by (by apply not_eq_sym, Hold)|done]. }
  destruct (insertLoop_ranked (toLowerCase word) (rooted t σ) (fresh (dom σ)) _ _ Hr0)
    as (depth' & D' & Hr' & Hsame & [nlast Hlast]).
  { rewrite Hrooted, lookup_insert_eq. eauto. }
  destruct (insertLoop _ _ _) as [current σ']. simpl in *.
  rewrite (read_Some _ _ _ Hlast).
  assert (∀ l, is_Some (σ' !! l) →
               is_Some (<[current := {| isEndOfWord := true; children := children nlast |}]> σ'
                          !! l)) as Hkeep.
  { intros x Hx. destruct (decide (x = current)) as [->|]; [rewrite lookup_insert_eq; eauto|].
    by rewrite lookup_insert_ne. }
  exists depth', D'. split; [by apply ranked_mark|].
  assert (is_Some (rooted t σ !! fresh (dom σ))) as Hroot
    by (rewrite Hrooted, lookup_insert_eq; eauto).
  split; [|split].
  - intros l Hl. destruct (Hsame l) as [Hl' Hd'].
    { rewrite Hrooted. by rewrite lookup_insert_ne by (by apply not_eq_sym, Hold). }
    split; [by apply Hkeep|]. by rewrite Hd', decide_False by (by apply Hold).
  - apply Hkeep. by apply Hsame.
  - destruct (Hsame _ Hroot) as [_ ->]. by rewrite decide_True.
Qed.

(** Every store a client builds has the shape, with the roots of the
    tries at depth 0. *)
Definition worldOk (w : world) : Prop :=
  ∃ depth D, ranked (st w) depth D ∧
             ∀ t, t ∈ handles w → is_Some (st w !! root t) ∧ depth (root t) = 0.

Lemma step_ranked w c : worldOk w → worldOk (step w c).
Proof.
  intros (depth & D & Hr & Hroots). destruct c as [|k word]; simpl.
  - unfold new, alloc. simpl.
    assert (st w !! fresh (dom (st w)) = None) as Hfresh by apply not_elem_of_dom, is_fresh.
    assert (∀ x, is_Some (st w !! x) → x ≠ fresh (dom (st w))) as Hold
      by (intros x [? ?] ->; congruence).
    exists (λ x, if decide (x = fresh (dom (st w))) then 0 else depth x), D.
    cbn [st handles]. split.
    + intros l0 n0 Hl0. destruct (decide (l0 = fresh (dom (st w)))) as [->|Hl].
      * rewrite lookup_insert_eq in Hl0. injection Hl0 as <-. simpl. split; [lia|].
        split; [constructor|]. by intros ? ? ?%elem_of_nil.
      * rewrite lookup_insert_ne in Hl0 by done.
        destruct (Hr l0 n0 Hl0) as (Hd & Hnd & Hentries). split; [done|]. split; [done|].
        intros char' l' Hin. destruct (Hentries char' l' Hin) as [Hl' Hdl'].
        rewrite decide_False by (by apply Hold).
        split; [by rewrite lookup_insert_ne by (by apply not_eq_sym, Hold)|done].
    + intros t [Ht|Ht%list_elem_of_singleton]%elem_of_app; [|subst t]; simpl.
      * destruct (Hroots t Ht) as [Ha Hd]. rewrite decide_False by (by apply Hold).
        split; [by rewrite lookup_insert_ne by (by apply not_eq_sym, Hold)|done].
      * rewrite lookup_insert_eq, decide_True by done. eauto.
  - destruct (handles w !! k) as [t|] eqn:Hk; [|by exists depth, D].
    destruct (Hroots t) as [Ha Hd]; [by eapply list_elem_of_lookup_2|].
    destruct (insert_ranked t word (st w) depth D Hr Ha Hd)
      as (depth' & D' & Hr' & Hsame & Hnew & Hnew0).
    exists depth', D'. split; [done|]. simpl.
    intros t' [Ht'|Ht'%list_elem_of_singleton]%elem_of_app; [|by subst t'].
    destruct (Hroots t' Ht') as [Ha' Hd']. destruct (Hsame _ Ha') as [? ->]. done.
Qed.

Lemma run_ranked calls : worldOk (run calls).
Proof.
  unfold run. induction calls as [|c calls IH] using rev_ind.
  - exists (λ _, 0), 0. split; [by intros l n ?|by intros t ?%elem_of_nil].
  - rewrite foldl_app. by apply step_ranked.
Qed.

(** *** What [collectWords] collects *)

(** With fuel for the levels below the node, [collectWords] appends to
    [words] the words that lead from the node to a node marked as the end
    of a word, each once, and those only. *)
Lemma collectWords_spec σ depth D : ranked σ depth D →
  ∀ fuel l n prefix words,
    σ !! l = Some n → D - depth l < fuel →
    ∃ news, collectWords fuel σ l prefix words = Some (words ++ news) ∧
            NoDup news ∧
            ∀ w, w ∈ news ↔
                 ∃ rest l', w = prefix ++ rest ∧ findNode σ l rest = Some l' ∧
                            isEndOfWord (read σ l') = true.
Proof.
  intros Hr. induction fuel as [|fuel IH]; intros l n prefix words Hl Hfuel; [lia|].
  cbn [collectWords]. rewrite (read_Some _ _ _ Hl).
  destruct (Hr l n Hl) as (Hd & Hnd & Hentries).
  set (first := if isEndOfWord n then [prefix] else []).
  assert ((if isEndOfWord n then words ++ [prefix] else words) = words ++ first) as ->
    by (unfold first; destruct (isEndOfWord n); by rewrite ?app_nil_r).
  assert (∀ entries acc,
            (∀ char l', (char, l') ∈ entries → (char, l') ∈ children n) →
            NoDup entries.*1 →
            ∃ news,
              foldl (λ acc entry,
                       words ← acc;
                       collectWords fuel σ entry.2 (prefix ++ [entry.1]) words)
                (Some acc) entries = Some (acc ++ news) ∧
              NoDup news ∧
              ∀ w, w ∈ news ↔
                   ∃ char child rest l',
                     (char, child) ∈ entries ∧ w = prefix ++ char :: rest ∧
                     findNode σ child rest = Some l' ∧ isEndOfWord (read σ l') = true)
    as Hfold.
  { induction entries as [|[char child] entries IHe]; intros acc Hsub Hkeys.
    { exists []. split; [by rewrite app_nil_r|]. split; [constructor|].
      intros w. split; [by intros ?%elem_of_nil|].
      by intros (? & ? & ? & ? & ?%elem_of_nil & _). }
    destruct (Hentries char child) as [[nc Hc] Hdc]; [apply Hsub; by left|].
    pose proof (Hr child nc Hc) as (Hdchild & _).
    apply NoDup_cons in Hkeys as [Hkey Hkeys].
    destruct (IH child nc (prefix ++ [char]) acc Hc ltac:(lia))
      as (news1 & Hrun1 & Hnd1 & Hspec1).
    destruct (IHe (acc ++ news1)) as (news2 & Hrun2 & Hnd2 & Hspec2);
      [intros ? ? ?; apply Hsub; by right|done|].
    exists (news1 ++ news2). cbn [foldl]. simpl. rewrite Hrun1, Hrun2.
    split; [by rewrite app_assoc|]. split.
    { apply NoDup_app. split; [done|]. split; [|done].
      intros w (rest & l' & -> & _)%Hspec1 (c2 & ch2 & rest2 & l2 & Hin & Heq & _)%Hspec2.
      rewrite <-app_assoc in Heq. apply app_inv_head in Heq. injection Heq as -> _.
      apply Hkey, list_elem_of_fmap. by exists (c2, ch2). }
    intros w. rewrite elem_of_app, Hspec1, Hspec2. split.
    - intros [(rest & l' & -> & Hf & Hm)|(c2 & ch2 & rest & l' & Hin & -> & Hf & Hm)].
      + exists char, child, rest, l'. rewrite <-app_assoc. split; [by left|done].
      + exists c2, ch2, rest, l'. split; [by right|done].
    - intros (c2 & ch2 & rest & l' & [[= -> ->]|Hin]%elem_of_cons & -> & Hf & Hm).
      + left. exists rest, l'. by rewrite <-app_assoc.
      + right. by exists c2, ch2, rest, l'. }
  destruct (Hfold (children n) (words ++ first)) as (news & Hrun & Hndn & Hspec); [done..|].
  exists (first ++ news). rewrite Hrun. split; [by rewrite app_assoc|]. split.
  { apply NoDup_app. split; [unfold first; destruct (isEndOfWord n); repeat constructor;
                              by intros ?%elem_of_nil|].
    split; [|done]. intros w Hw (char & child & rest & l' & _ & Heq & _)%Hspec.
    unfold first in Hw. destruct (isEndOfWord n); [|by apply elem_of_nil in Hw].
    apply list_elem_of_singleton in Hw as ->.
    apply (f_equal length) in Heq. rewrite length_app in Heq. simpl in Heq. lia. }
  intros w. rewrite elem_of_app, Hspec. split.
  - intros [Hw|(char & child & rest & l' & Hin & -> & Hf & Hm)].
    + unfold first in Hw. destruct (isEndOfWord n) eqn:Hflag; [|by apply elem_of_nil in Hw].
      apply list_elem_of_singleton in Hw as ->. exists [], l. rewrite app_nil_r.
      split; [done|]. split; [done|]. by rewrite (read_Some _ _ _ Hl).
    + exists (char :: rest), l'. split; [done|]. split; [|done]. cbn [findNode].
      rewrite (read_Some _ _ _ Hl). by rewrite (proj2 (mapGet_elem_of _ _ _ Hnd) Hin).
  - intros (rest & l' & -> & Hf & Hm). destruct rest as [|char rest].
    + left. injection Hf as <-. rewrite (read_Some _ _ _ Hl) in Hm.
      unfold first. rewrite Hm, app_nil_r. by apply list_elem_of_singleton.
    + right. cbn [findNode] in Hf. rewrite (read_Some _ _ _ Hl) in Hf.
      destruct (mapGet (children n) char) as [child|] eqn:Hget; [|done].
      exists char, child, rest, l'. split; [by apply (mapGet_elem_of _ _ _ Hnd)|done].
Qed.

(** On a trie a client has built, [findWordsWithPrefix(prefix)] returns,
    with fuel enough, the words of the trie that start with the prefix in
    lower case, each once, and those only. *)
Lemma findWordsWithPrefix_spec calls t prefix :
  t ∈ handles (run calls) →
  ∃ fuel0, ∀ fuel, fuel0 ≤ fuel →
    ∃ words,
      findWordsWithPrefix fuel t prefix (st (run calls)) = Some words ∧
      NoDup words ∧
      ∀ w, w ∈ words ↔
           holds (st (run calls)) t w ∧ ∃ rest, w = toLowerCase prefix ++ rest.
Proof.
  intros Ht. destruct (run_ranked calls) as (depth & D & Hr & Hroots).
  destruct (Hroots t Ht) as [Hroot Hd0].
  exists (S D). intros fuel Hfuel. unfold findWordsWithPrefix, holds.
  destruct (findNode (st (run calls)) (root t) (toLowerCase prefix)) as [l|] eqn:Hfind.
  - destruct (findNode_allocated _ _ _ _ _ _ Hr Hroot Hfind) as [n Hn].
    destruct (collectWords_spec _ _ _ Hr fuel l n (toLowerCase prefix) [] Hn ltac:(lia))
      as (news & Hrun & Hnd & Hspec).
    exists news. split; [done|]. split; [done|]. intros w. rewrite Hspec. split.
    + intros (rest & l' & -> & Hf & Hm). split; [|by exists rest].
      exists l'. by rewrite (findNode_app_eq _ _ _ _ _ Hfind).
    + intros [(l' & Hf & Hm) (rest & ->)]. exists rest, l'. split; [done|].
      by rewrite (findNode_app_eq _ _ _ _ _ Hfind) in Hf.
  - exists []. split; [done|]. split; [constructor|].
    intros w. split; [by intros ?%elem_of_nil|].
    intros [(l' & Hf & _) (rest & ->)]. apply findNode_app in Hf as [l'' Hl''].
    congruence.
Qed.

End Trie.
End Trie.


(** * The claims of the specification *)

Section HeapClaims.
Context {T : Type} (toNumber : T → Z).
Import Heap.

(** C1. Heap invariant.  In every state a client can reach by calling the
    constructors, [from], [add], [remove], [clear] and the iterator of any
    of the four classes (a [CustomHeap] being given a comparator that meets
    the comparator contract), each of [from], [add] and [remove] returns a
    heap whose backing array is ordered: whenever index [i] and its child
    [2i+1] or [2i+2] are in range, [compare(arr[i], arr[child]) <= 0] under
    the comparator of the heap's class.  Hence every heap the client holds
    is ordered. *)
Theorem heap_ordering_invariant (calls : list call) :
  Forall callOk calls →
  let w := run toNumber calls in
  (∀ c elts, classOk c →
     ∃ h σ, from toNumber c elts (st w) = (inr h, σ) ∧
            heapOrdered (compare toNumber (cls h)) (contents σ h)) ∧
  (∀ h x, h ∈ handles w →
     ∃ h' σ, add toNumber h (Some x) (st w) = (inr h', σ) ∧
             heapOrdered (compare toNumber (cls h')) (contents σ h')) ∧
  (∀ h, h ∈ handles w →
     ∃ e h' σ, remove toNumber h (st w) = (inr (e, h'), σ) ∧
               heapOrdered (compare toNumber (cls h')) (contents σ h')) ∧
  Forall (λ h, heapOrdered (compare toNumber (cls h)) (contents (st w) h)) (handles w).
Proof.
  intros Hcalls w. pose proof (run_ok toNumber calls Hcalls) as Hw.
  fold w in Hw. unfold worldOk in Hw. rewrite Forall_forall in Hw.
  split; [|split; [|split]].
  - intros c elts Hc. do 2 eexists. split; [apply from_run|].
    rewrite contents_alloc. by apply fromArray_ordered, compare_valid.
  - intros h x Hh. destruct (Hw h Hh) as [Hc Harr].
    do 2 eexists. split; [apply add_run|]. rewrite contents_alloc. cbn [cls].
    apply push_bubbleUp_ordered; [by apply compare_valid|].
    by apply heapOk_contents.
  - intros h Hh. destruct (Hw h Hh) as [Hc Harr].
    do 3 eexists. split; [apply remove_run|]. rewrite contents_alloc. cbn [cls].
    apply removeArray_ordered; [by apply compare_valid|].
    by apply heapOk_contents.
  - apply Forall_forall. intros h Hh. by apply heapOk_contents, Hw.
Qed.

(** C8. Immutability of the receiver.  After [h2 = h1.add(x)] with [x]
    neither [null] nor [undefined], [h1.size()] and [[...h1]] are what they
    were before the call; indeed the backing array of [h1] is untouched. *)
Theorem add_leaves_receiver_unchanged (σ : gmap loc (list T)) (h1 : heap) (x : T) :
  is_Some (σ !! elements h1) →
  ∃ h2 σ',
    add toNumber h1 (Some x) σ = (inr h2, σ') ∧
    (size h1 σ').1 = (size h1 σ).1 ∧
    (iterate toNumber h1 σ').1 = (iterate toNumber h1 σ).1 ∧
    σ' !! elements h1 = σ !! elements h1.
Proof.
  intros [arr Hl]. do 2 eexists. split; [apply add_run|].
  rewrite !size_run, !iterate_run. cbn [fst].
  rewrite (contents_frame σ h1 arr) by done.
  repeat split. by rewrite lookup_insert_ne by (by eapply fresh_ne).
Qed.

(** C9. Size conservation.  [add] returns a heap with one element more;
    [remove] on a non-empty heap returns its root and a heap with one
    element less; [remove] on an empty heap does not throw: it returns
    [undefined] and an empty heap of the same class. *)
Theorem size_conservation (σ : gmap loc (list T)) (h : heap) (n : nat) :
  size h σ = (inr n, σ) →
  (∀ x, ∃ h' σ', add toNumber h (Some x) σ = (inr h', σ') ∧
                 size h' σ' = (inr (n + 1), σ')) ∧
  (0 < n → ∃ x h' σ', remove toNumber h σ = (inr (Some x, h'), σ') ∧
                      size h' σ' = (inr (n - 1), σ')) ∧
  (n = 0 → ∃ h' σ', remove toNumber h σ = (inr (None, h'), σ') ∧
                    cls h' = cls h ∧
                    size h' σ' = (inr 0, σ') ∧
                    isEmpty h' σ' = (inr true, σ')).
Proof.
  rewrite size_run. intros [= <-]. split; [|split].
  - intros x. do 2 eexists. split; [apply add_run|].
    rewrite size_run, contents_alloc, length_bubbleUp, length_app. done.
  - intros Hn. destruct (contents σ h) as [|x rest] eqn:Hc; [simpl in Hn; lia|].
    exists x. do 2 eexists. rewrite remove_run, Hc. split; [done|].
    by rewrite size_run, contents_alloc, length_removeArray.
  - intros Hn. apply length_zero_iff_nil in Hn.
    do 2 eexists. rewrite remove_run, Hn. split; [done|]. split; [done|].
    by rewrite size_run, isEmpty_run, contents_alloc.
Qed.

End HeapClaims.

(** C4. [clear()] is [return this.clone()]: it returns a new heap of the
    same class that holds a copy of all the elements of the receiver, so
    its size is the receiver's, not 0.  [MinHeap.from([1]).clear()] has
    size 1. *)
Theorem clear_returns_a_copy :
  (∀ (T : Type) (σ : gmap nat (list T)) (h : @Heap.heap T),
     ∃ h' σ',
       Heap.clear h σ = (inr h', σ') ∧
       Heap.cls h' = Heap.cls h ∧
       Heap.contents σ' h' = Heap.contents σ h ∧
       Heap.size h' σ' = (inr (length (Heap.contents σ h)), σ')) ∧
  ((h ← Heap.from id Heap.MinHeap [1%Z]; c ← Heap.clear h; Heap.size c) ∅).1 = inr 1.
Proof.
  split; [|by vm_compute].
  intros T σ h. do 2 eexists. split; [apply Heap.clear_run|]. split; [done|].
  by rewrite Heap.size_run, Heap.contents_alloc.
Qed.

(** C6. Iteration.  Iterating a heap the client holds yields, without
    error, its elements (same multiset) in ascending order of its
    comparator; the sequence is the one repeated [remove()] yields until
    the heap is empty; and no heap the client holds changes.  In
    particular [MinHeap.from([5,3,7,1,4])] iterates to [[1,3,4,5,7]]. *)
Theorem iteration_drains_a_snapshot :
  (∀ (T : Type) (toNumber : T → Z) (calls : list Heap.call) (h : Heap.heap),
     Forall Heap.callOk calls →
     h ∈ Heap.handles (Heap.run toNumber calls) →
     let w := Heap.run toNumber calls in
     ∃ ys σ',
       Heap.iterate toNumber h (Heap.st w) = (inr ys, σ') ∧
       StronglySorted (λ a b, (Heap.compare toNumber (Heap.cls h) a b ≤ 0)%Z) ys ∧
       ys ≡ₚ Heap.contents (Heap.st w) h ∧
       (∀ fuel, length (Heap.contents (Heap.st w) h) ≤ fuel →
          (Heap.drain toNumber fuel h (Heap.st w)).1 = inr ys) ∧
       Forall (λ h0, Heap.contents σ' h0 = Heap.contents (Heap.st w) h0)
         (Heap.handles w)) ∧
  ((h ← Heap.from id Heap.MinHeap [5; 3; 7; 1; 4]%Z; Heap.iterate id h) ∅).1 =
    inr [1; 3; 4; 5; 7]%Z.
Proof.
  split; [|by vm_compute].
  intros T toNumber calls h Hcalls Hh w.
  pose proof (Heap.run_ok toNumber calls Hcalls) as Hw.
  fold w in Hw. unfold Heap.worldOk in Hw. rewrite Forall_forall in Hw.
  destruct (Hw h Hh) as [Hc Harr].
  do 2 eexists. split; [apply Heap.iterate_run|].
  rewrite Heap.iterArray_drainArray. split; [|split; [|split]].
  - apply Heap.drainArray_sorted;
      [by apply Heap.compare_valid|by apply Heap.heapOk_contents].
  - apply Heap.drainArray_perm.
  - intros fuel Hfuel. by apply Heap.drain_run.
  - apply Forall_forall. intros h0 Hh0.
    destruct (Hw h0 Hh0) as [_ (arr & Hl & _)]. by eapply Heap.contents_frame.
Qed.

(** C7. Comparison counts.  On an array without descent, [binarySearch]
    returns a count of at most [ceil(log2(n + 1))]; the comparator is called
    [n - 1] times more than that count, by the validation scan.
    [linearSearch] whose first match is at index [k] returns that element,
    the index [k] and a count of exactly [k + 1]. *)
Theorem comparison_counts {T : Type} (compare : T → T → Z) (arr : list T) (target : T) :
  (Arr.ascending compare arr →
     ∃ r, Searching.binarySearch compare arr target = inr r ∧
          Searching.comparisons r ≤ Nat.log2_up (length arr + 1) ∧
          (Searching.binarySearchCounted compare arr target).2 =
            (length arr - 1) + Searching.comparisons r) ∧
  (∀ k x, arr !! k = Some x → compare x target = 0%Z →
     (∀ j y, j < k → arr !! j = Some y → compare y target ≠ 0%Z) →
     Searching.linearSearch compare arr target =
       {| Searching.element := Some x; Searching.index := Z.of_nat k;
          Searching.comparisons := k + 1 |}).
Proof.
  split.
  - intros Hasc.
    destruct (Searching.binarySearchCounted_sorted compare arr target Hasc)
      as (r & Hr & Hbound).
    exists r. unfold Searching.binarySearch. rewrite Hr. done.
  - intros k x Hx Hz Hfirst. unfold Searching.linearSearch.
    rewrite (Searching.linear_loop_first compare arr target 0 (length arr) 0 k x);
      [do 2 f_equal; lia| |done|done|].
    + apply lookup_lt_Some in Hx. lia.
    + intros j y ? ?. eapply (Hfirst j); [lia|done].
Qed.

(** C10. The dispatcher never raises: whatever the array, the target and
    the comparator, [search] returns a result; an array longer than 10 in
    which the routing scan finds a descent goes to [linearSearch]. *)
Theorem search_never_raises {T : Type} (compare : T → T → Z) (asNumber : T → option Z)
    (arr : list T) (target : T) :
  (∃ r, Searching.search compare asNumber arr target = inr r) ∧
  (∀ calls, 10 < length arr → Searching.sortedScan compare arr = inr calls →
     Searching.search compare asNumber arr target =
       inr (Searching.linearSearch compare arr target)).
Proof.
  split; [apply Searching.search_total|].
  intros calls. apply Searching.search_unsorted.
Qed.

(** C3. [interpolationSearch] misses a target that is present: on the
    sorted array [[1, 1]] the search for [1] returns index [-1] and no
    element, after one counted iteration; so on every array of two or more
    slots whose first and last slot hold the target.  On an array of
    numbers without descent it reports nothing for a target that is not
    there, and it finds a target that is there when the arithmetic of the
    probe is exact ([Searching.exact]) and the two ends do not both hold
    the target.  Where the product of the probe passes the greatest
    double it misses again: on [[0, 2^1023, 2^1023 + 2^1022]] the target
    [2^1023] is there and is not found.  [binarySearch], [jumpSearch] and
    [exponentialSearch], on an array without descent and under a
    comparator that meets the contract, return a slot that matches the
    target, or index [-1] and no element when no slot matches
    ([jumpSearch] on the empty array, where it compares [undefined], under
    the default comparator). *)
Theorem interpolationSearch_misses_present_target :
  (Arr.ascending Cmp.numeric [1; 1]%Z ∧
   [1; 1]%Z !! 0 = Some 1%Z ∧
   Searching.interpolationSearch [1; 1]%Z 1%Z =
     {| Searching.element := None; Searching.index := (-1)%Z;
        Searching.comparisons := 1 |}) ∧
  (∀ (arr : list Z) (target : Z),
     2 ≤ length arr → arr !! 0 = Some target → arr !! (length arr - 1) = Some target →
     Searching.interpolationSearch arr target = Searching.notFound 1) ∧
  (∀ (arr : list Z) (target : Z),
     Arr.ascending Cmp.numeric arr →
     (target ∉ arr → Searching.missed (Searching.interpolationSearch arr target)) ∧
     (Searching.exact arr → target ∈ arr →
      ¬ (2 ≤ length arr ∧ arr !! 0 = Some target ∧
         arr !! (length arr - 1) = Some target) →
      Searching.found Cmp.numeric arr target (Searching.interpolationSearch arr target))) ∧
  (∀ (T : Type) (compare : T → T → Z) (arr : list T) (target : T),
     Cmp.valid compare → Arr.ascending compare arr →
     (∃ r, Searching.binarySearch compare arr target = inr r ∧
           Searching.correct compare arr target r) ∧
     (arr ≠ [] →
      ∃ r, Searching.jumpSearch compare arr target = inr r ∧
           Searching.correct compare arr target r) ∧
     (∃ r, Searching.exponentialSearch compare arr target = inr r ∧
           Searching.correct compare arr target r)) ∧
  (∀ target : Z, Searching.jumpSearch Cmp.numeric [] target = inr (Searching.notFound 1)) ∧
  (Arr.ascending Cmp.numeric [0; 2 ^ 1023; 2 ^ 1023 + 2 ^ 1022]%Z ∧
   Searching.interpolationSearch [0; 2 ^ 1023; 2 ^ 1023 + 2 ^ 1022]%Z (2 ^ 1023)%Z =
     Searching.notFound 1).
Proof.
  split; [|split; [|split; [|split; [|split]]]].
  - split; [|split; [done|by vm_compute]].
    intros [|[|i]] a b Ha Hb; simplify_eq/=. unfold Cmp.numeric. lia.
  - apply Searching.interpolationSearch_ends.
  - apply Searching.interpolationSearch_correct.
  - intros T compare arr target Hvalid Hasc. split; [|split].
    + by apply Searching.binarySearch_correct.
    + intros Hpos. by apply Searching.jumpSearch_correct.
    + by apply Searching.exponentialSearch_correct.
  - apply Searching.jumpSearch_nil.
  - split; [|by vm_compute].
    apply (Searching.sortedScan_inl _ _ 2). by vm_compute.
Qed.

(** C2. Sort correctness.  Under a comparator that meets the comparator
    contract, each of [quickSort], [mergeSort], [heapSort], [insertionSort]
    and [sort], called on any array, returns a new array on which [isSorted]
    is [true] and which is a permutation of the argument; the argument is
    not changed. *)
Theorem sorting_functions_correct {T : Type} (compare : T → T → Z) :
  Cmp.valid compare →
  Sorting.sortsCorrectly compare (Sorting.quickSortM compare) ∧
  Sorting.sortsCorrectly compare (Sorting.mergeSortM compare) ∧
  Sorting.sortsCorrectly compare (Sorting.heapSortM compare) ∧
  Sorting.sortsCorrectly compare (Sorting.insertionSortM compare) ∧
  Sorting.sortsCorrectly compare (Sorting.sortM compare).
Proof.
  intros Hvalid. repeat split; apply Sorting.call_correct; intros a.
  - by apply Sorting.quickSort_correct.
  - eexists. split; [done|]. split;
      [apply Sorting.mergeSort_perm|by apply Sorting.mergeSort_sorted].
  - eexists. split; [done|]. by apply Sorting.heapSort_correct.
  - eexists. split; [done|]. by apply Sorting.insertionSort_correct.
  - by apply Sorting.sort_correct.
Qed.

(** C5. [countingSort] tests the length before it scans for negative
    numbers: on [[-1]] it returns [[-1]] and throws nothing.  With two
    elements or more, an array that holds a negative number is refused, as
    [[5, 2, -1, 8, 1]] is.  An array of non-negative integers below
    [2 ^ 32 - 1], of any length, comes back sorted: the result is a
    permutation of it in which no element is greater than a later one.
    With two elements or more and none negative, an element of
    [2 ^ 32 - 1] or more makes [new Array(max + 1)] throw a [RangeError]. *)
Theorem countingSort_single_negative :
  Sorting.countingSort [-1]%Z = inr [Some (-1)%Z] ∧
  (∀ arr : list Z, 2 ≤ length arr → Exists (λ n, (n < 0)%Z) arr →
     Sorting.countingSort arr =
       inl (Error "Counting sort only works with non-negative integers")) ∧
  Sorting.countingSort [5; 2; -1; 8; 1]%Z =
    inl (Error "Counting sort only works with non-negative integers") ∧
  (∀ arr : list Z, Forall (λ n, 0 ≤ n < 2 ^ 32 - 1)%Z arr →
     ∃ out, Sorting.countingSort arr = inr (Some <$> out) ∧
            out ≡ₚ arr ∧ Arr.sorted Cmp.numeric out) ∧
  (∀ arr : list Z, 2 ≤ length arr → Forall (λ n, 0 ≤ n)%Z arr →
     Exists (λ n, 2 ^ 32 - 1 ≤ n)%Z arr →
     Sorting.countingSort arr = inl (RangeError "Invalid array length")).
Proof.
  split; [reflexivity|]. split; [apply Sorting.countingSort_negative|].
  split; [reflexivity|]. split; [apply Sorting.countingSort_sorts|].
  apply Sorting.countingSort_range.
Qed.

(** *** Instances *)

(** The client of the scenarios: [h = MinHeap.from([5,3,7,1,4])]. *)
Definition calls0 : list (@Heap.call Z) := [Heap.CallFrom Heap.MinHeap [5; 3; 7; 1; 4]%Z].
Definition h0 : @Heap.heap Z := {| Heap.cls := Heap.MinHeap; Heap.elements := 1 |}.

Lemma heap_ordering_invariant_witness :
  Forall Heap.callOk calls0 ∧
  Forall (λ h, Heap.heapOrdered (Heap.compare id (Heap.cls h))
                 (Heap.contents (Heap.st (Heap.run id calls0)) h))
    (Heap.handles (Heap.run id calls0)).
Proof.
  assert (Forall Heap.callOk calls0) as H1 by (repeat constructor).
  split; [exact H1|].
  exact (proj2 (proj2 (proj2 (heap_ordering_invariant id calls0 H1)))).
Defined.

Lemma iteration_drains_a_snapshot_witness :
  Forall Heap.callOk calls0 ∧ h0 ∈ Heap.handles (Heap.run id calls0) ∧
  ∃ ys σ',
    Heap.iterate id h0 (Heap.st (Heap.run id calls0)) = (inr ys, σ') ∧
    StronglySorted (λ a b, (Heap.compare id (Heap.cls h0) a b ≤ 0)%Z) ys.
Proof.
  assert (Forall Heap.callOk calls0) as H1 by (repeat constructor).
  assert (h0 ∈ Heap.handles (Heap.run id calls0)) as H2 by (vm_compute; left).
  split; [exact H1|]. split; [exact H2|].
  destruct (proj1 iteration_drains_a_snapshot Z id calls0 h0 H1 H2)
    as (ys & σ' & Hit & Hs & _).
  exists ys, σ'. exact (conj Hit Hs).
Defined.

Lemma add_leaves_receiver_unchanged_witness :
  is_Some (Heap.st (Heap.run id calls0) !! Heap.elements h0) ∧
  ∃ h2 σ',
    Heap.add id h0 (Some 0%Z) (Heap.st (Heap.run id calls0)) = (inr h2, σ') ∧
    (Heap.size h0 σ').1 = (Heap.size h0 (Heap.st (Heap.run id calls0))).1.
Proof.
  assert (is_Some (Heap.st (Heap.run id calls0) !! Heap.elements h0)) as H1
    by (vm_compute; eauto).
  split; [exact H1|].
  destruct (add_leaves_receiver_unchanged id _ h0 0%Z H1) as (h2 & σ' & Ha & Hs & _).
  exists h2, σ'. exact (conj Ha Hs).
Defined.

Lemma size_conservation_witness :
  Heap.size h0 (Heap.st (Heap.run id calls0)) = (inr 5, Heap.st (Heap.run id calls0)) ∧
  ∃ x h' σ',
    Heap.remove id h0 (Heap.st (Heap.run id calls0)) = (inr (Some x, h'), σ') ∧
    Heap.size h' σ' = (inr 4, σ').
Proof.
  assert (Heap.size h0 (Heap.st (Heap.run id calls0)) =
            (inr 5, Heap.st (Heap.run id calls0))) as H1 by (vm_compute; reflexivity).
  split; [exact H1|].
  destruct (size_conservation id _ h0 5 H1) as (_ & Hr & _).
  exact (Hr ltac:(lia)).
Defined.

Lemma comparison_counts_witness :
  Arr.ascending Cmp.numeric [1; 2; 3; 4; 5]%Z ∧
  (∃ r, Searching.binarySearch Cmp.numeric [1; 2; 3; 4; 5]%Z 5%Z = inr r ∧
        Searching.comparisons r ≤ Nat.log2_up (5 + 1)) ∧
  Searching.linearSearch Cmp.numeric [1; 2; 3; 4; 5]%Z 5%Z =
    {| Searching.element := Some 5%Z; Searching.index := 4%Z;
       Searching.comparisons := 4 + 1 |}.
Proof.
  assert (Arr.ascending Cmp.numeric [1; 2; 3; 4; 5]%Z) as H1.
  { apply (Searching.sortedScan_inl _ _ 4). vm_compute. reflexivity. }
  assert ([1; 2; 3; 4; 5]%Z !! 4 = Some 5%Z) as H2 by reflexivity.
  assert (Cmp.numeric 5 5 = 0%Z) as H3 by reflexivity.
  assert (∀ j y, j < 4 → [1; 2; 3; 4; 5]%Z !! j = Some y → Cmp.numeric y 5 ≠ 0%Z) as H4.
  { intros [|[|[|[|j]]]] y Hj Hy; [injection Hy as <-; discriminate..|lia]. }
  split; [exact H1|]. split.
  - destruct (proj1 (comparison_counts Cmp.numeric [1; 2; 3; 4; 5]%Z 5%Z) H1)
      as (r & Hr & Hb & _).
    exists r. exact (conj Hr Hb).
  - exact (proj2 (comparison_counts Cmp.numeric [1; 2; 3; 4; 5]%Z 5%Z) 4 5%Z H2 H3 H4).
Defined.

Lemma interpolationSearch_misses_present_target_witness :
  Cmp.valid Cmp.numeric ∧ Arr.ascending Cmp.numeric [1; 2; 2; 3]%Z ∧
  [1; 2; 2; 3]%Z ≠ [] ∧ Searching.exact [1; 2; 2; 3]%Z ∧
  (∃ r, Searching.jumpSearch Cmp.numeric [1; 2; 2; 3]%Z 2%Z = inr r ∧
        Searching.correct Cmp.numeric [1; 2; 2; 3]%Z 2%Z r) ∧
  (2%Z ∈ [1; 2; 2; 3]%Z →
   ¬ (2 ≤ length [1; 2; 2; 3]%Z ∧ [1; 2; 2; 3]%Z !! 0 = Some 2%Z ∧
      [1; 2; 2; 3]%Z !! (length [1; 2; 2; 3]%Z - 1) = Some 2%Z) →
   Searching.found Cmp.numeric [1; 2; 2; 3]%Z 2%Z
     (Searching.interpolationSearch [1; 2; 2; 3]%Z 2%Z)).
Proof.
  assert (Arr.ascending Cmp.numeric [1; 2; 2; 3]%Z) as H1.
  { apply (Searching.sortedScan_inl _ _ 3). vm_compute. reflexivity. }
  assert (Searching.exact [1; 2; 2; 3]%Z) as H2.
  { apply (bool_decide_unpack (Searching.exact [1; 2; 2; 3]%Z)). vm_compute. exact I. }
  split; [exact Cmp.numeric_valid|]. split; [exact H1|]. split; [discriminate|].
  split; [exact H2|]. split.
  - exact (proj1 (proj2 (proj1 (proj2 (proj2 (proj2 interpolationSearch_misses_present_target)))
                           Z Cmp.numeric [1; 2; 2; 3]%Z 2%Z Cmp.numeric_valid H1))
             ltac:(discriminate)).
  - exact (proj2 (proj1 (proj2 (proj2 interpolationSearch_misses_present_target))
                    [1; 2; 2; 3]%Z 2%Z H1) H2).
Defined.

Lemma countingSort_single_negative_witness :
  Forall (λ n, 0 ≤ n < 2 ^ 32 - 1)%Z [3; 1; 2]%Z ∧
  ∃ out, Sorting.countingSort [3; 1; 2]%Z = inr (Some <$> out) ∧
         out ≡ₚ [3; 1; 2]%Z ∧ Arr.sorted Cmp.numeric out.
Proof.
  assert (Forall (λ n, 0 ≤ n < 2 ^ 32 - 1)%Z [3; 1; 2]%Z) as H1
    by (repeat constructor; lia).
  split; [exact H1|].
  exact (proj1 (proj2 (proj2 (proj2 countingSort_single_negative))) [3; 1; 2]%Z H1).
Defined.

Lemma search_never_raises_witness :
  10 < length [2; 1; 3; 4; 5; 6; 7; 8; 9; 10; 11]%Z ∧
  Searching.sortedScan Cmp.numeric [2; 1; 3; 4; 5; 6; 7; 8; 9; 10; 11]%Z = inr 1 ∧
  Searching.search Cmp.numeric Some [2; 1; 3; 4; 5; 6; 7; 8; 9; 10; 11]%Z 9%Z =
    inr (Searching.linearSearch Cmp.numeric [2; 1; 3; 4; 5; 6; 7; 8; 9; 10; 11]%Z 9%Z).
Proof.
  assert (10 < length [2; 1; 3; 4; 5; 6; 7; 8; 9; 10; 11]%Z) as H1 by (simpl; lia).
  assert (Searching.sortedScan Cmp.numeric [2; 1; 3; 4; 5; 6; 7; 8; 9; 10; 11]%Z = inr 1)
    as H2 by (vm_compute; reflexivity).
  split; [exact H1|]. split; [exact H2|].
  exact (proj2 (search_never_raises Cmp.numeric Some _ 9%Z) 1 H1 H2).
Defined.

Lemma sorting_functions_correct_witness :
  Cmp.valid Cmp.numeric ∧
  ({[0 := [5; 3; 7; 1; 4]%Z]} : gmap nat (list Z)) !! 0 = Some [5; 3; 7; 1; 4]%Z ∧
  ∃ l out σ',
    Sorting.heapSortM Cmp.numeric 0 {[0 := [5; 3; 7; 1; 4]%Z]} = (inr (Some l), σ') ∧
    σ' !! l = Some out ∧
    Sorting.isSorted Cmp.numeric out = true ∧
    σ' !! 0 = Some [5; 3; 7; 1; 4]%Z.
Proof.
  split; [exact Cmp.numeric_valid|].
  assert (({[0 := [5; 3; 7; 1; 4]%Z]} : gmap nat (list Z)) !! 0 = Some [5; 3; 7; 1; 4]%Z)
    as H1 by (vm_compute; reflexivity).
  split; [exact H1|].
  destruct (proj1 (proj2 (proj2 (sorting_functions_correct Cmp.numeric Cmp.numeric_valid)))
              _ 0 _ H1) as (l & out & σ' & Hcall & Hl & Hs & _ & Harr).
  exists l, out, σ'. exact (conj Hcall (conj Hl (conj Hs Harr))).
Defined.

(** * Further properties of the code *)

(** ** Heaps *)

(** X1. [peek()] on a heap a client holds changes nothing; it returns
    [undefined] exactly when the heap is empty, and otherwise an element
    that precedes or ties with every element of the heap under the
    comparator of its class. *)
Theorem peek_returns_a_minimum {T : Type} (toNumber : T → Z)
    (calls : list Heap.call) (h : Heap.heap) :
  Forall Heap.callOk calls →
  h ∈ Heap.handles (Heap.run toNumber calls) →
  let σ := Heap.st (Heap.run toNumber calls) in
  ∃ top,
    Heap.peek h σ = (inr top, σ) ∧
    (top = None ↔ Heap.isEmpty h σ = (inr true, σ)) ∧
    (∀ r, top = Some r →
       Forall (λ x, (Heap.compare toNumber (Heap.cls h) r x ≤ 0)%Z) (Heap.contents σ h)).
Proof.
  intros Hcalls Hh σ. pose proof (Heap.run_ok toNumber calls Hcalls) as Hw.
  unfold Heap.worldOk in Hw. rewrite Forall_forall in Hw.
  destruct (Hw h Hh) as [Hc _]. pose proof (Heap.heapOk_contents _ _ _ (Hw h Hh)) as Hord.
  fold σ in Hord. exists (Heap.contents σ h !! 0). rewrite Heap.peek_run, Heap.isEmpty_run.
  split; [done|]. split.
  - destruct (Heap.contents σ h) as [|x rest]; simpl; [done|]. by split.
  - intros r Hr. destruct (Heap.contents σ h) as [|x rest]; [done|].
    injection Hr as ->. apply Heap.root_minimal_all; [by apply Heap.compare_valid|done].
Qed.

(** X2. [remove()] returns the element [peek()] shows, and the new heap
    holds the other elements: the old contents are the removed element
    and the new contents.  On an empty heap it returns [undefined] and an
    empty heap. *)
Theorem remove_takes_the_root {T : Type} (toNumber : T → Z)
    (σ : gmap nat (list T)) (h : Heap.heap) :
  ∃ e h' σ',
    Heap.remove toNumber h σ = (inr (e, h'), σ') ∧
    (Heap.peek h σ).1 = inr e ∧
    match e with
    | Some x => Heap.contents σ h ≡ₚ x :: Heap.contents σ' h'
    | None => Heap.contents σ h = [] ∧ Heap.contents σ' h' = []
    end.
Proof.
  do 3 eexists. split; [apply Heap.remove_run|]. rewrite Heap.peek_run. split; [done|].
  rewrite Heap.contents_alloc.
  destruct (Heap.contents σ h) as [|x rest]; [done|]. simpl.
  symmetry. apply Heap.removeArray_perm.
Qed.

(** X3. [add(x)] returns a heap that holds [x] and the elements of the
    receiver; [add(null)] and [add(undefined)] throw a [TypeError] and
    leave the store as it was. *)
Theorem add_holds_the_elements {T : Type} (toNumber : T → Z)
    (σ : gmap nat (list T)) (h : Heap.heap) :
  (∀ x, ∃ h' σ',
     Heap.add toNumber h (Some x) σ = (inr h', σ') ∧
     Heap.contents σ' h' ≡ₚ x :: Heap.contents σ h) ∧
  Heap.add toNumber h None σ = (inl (TypeError "Element cannot be null or undefined"), σ).
Proof.
  split; [|done]. intros x. do 2 eexists. split; [apply Heap.add_run|].
  rewrite Heap.contents_alloc, Heap.bubbleUp_perm. symmetry. apply Permutation_cons_append.
Qed.

(** X4. [C.from(elements)], for each of the four classes, returns a heap
    of class [C] that holds exactly the elements given, and changes no
    array of the store. *)
Theorem from_holds_the_elements {T : Type} (toNumber : T → Z)
    (c : Heap.heapClass) (elts : list T) (σ : gmap nat (list T)) :
  ∃ h σ',
    Heap.from toNumber c elts σ = (inr h, σ') ∧
    Heap.cls h = c ∧
    Heap.contents σ' h ≡ₚ elts ∧
    Heap.size h σ' = (inr (length elts), σ') ∧
    σ ⊆ σ'.
Proof.
  do 2 eexists. split; [apply Heap.from_run|]. split; [done|].
  rewrite Heap.size_run, Heap.contents_alloc.
  split; [apply Heap.fromArray_perm|].
  split; [by rewrite (Permutation_length (Heap.fromArray_perm _ elts))|].
  etrans; [|apply insert_subseteq, fresh_None]. apply insert_subseteq, fresh_None.
Qed.

(** ** Sorting *)

(** X5. [mergeSort] is stable: under a comparator that meets the
    contract, the elements that tie with any given element come out in
    the order they came in. *)
Theorem mergeSort_is_stable {T : Type} (compare : T → T → Z) (arr : list T) (x : T) :
  Cmp.valid compare →
  Sorting.ties compare x (Sorting.mergeSort compare arr) = Sorting.ties compare x arr.
Proof. intros Hvalid. by apply Sorting.mergeSort_ties. Qed.

(** X6. [insertionSort] is stable, in the same sense. *)
Theorem insertionSort_is_stable {T : Type} (compare : T → T → Z) (arr : list T) (x : T) :
  Cmp.valid compare →
  Sorting.ties compare x (Sorting.insertionSort compare arr) = Sorting.ties compare x arr.
Proof. intros Hvalid. by apply Sorting.insertionSort_ties. Qed.

(** X7. [isSorted] returns [true] exactly on the arrays in which no
    element is followed by one that comes strictly before it, whatever
    the comparator; so on every array of length 0 or 1. *)
Theorem isSorted_decides_ascending {T : Type} (compare : T → T → Z) (arr : list T) :
  (Sorting.isSorted compare arr = true ↔
     ∀ i a b, arr !! i = Some a → arr !! (i + 1) = Some b → (compare a b ≤ 0)%Z) ∧
  (length arr ≤ 1 → Sorting.isSorted compare arr = true).
Proof.
  split; [apply Sorting.isSorted_ascending|].
  intros Hlen. apply Sorting.isSorted_ascending. intros i a b Ha Hb.
  apply lookup_lt_Some in Hb. lia.
Qed.

(** X8. On an array of integers, under the default comparator,
    [quickSort], [heapSort], [insertionSort], [sort], [mergeSort] and the
    iteration of [MinHeap.from(arr)] all return the same array; so does
    [countingSort] when every element is at least 0 and below
    [2 ^ 32 - 1]. *)
Theorem sorts_agree_on_integers (arr : list Z) :
  let sorted := Sorting.mergeSort Cmp.numeric arr in
  Sorting.quickSort Cmp.numeric arr = Some sorted ∧
  Sorting.heapSort Cmp.numeric arr = sorted ∧
  Sorting.insertionSort Cmp.numeric arr = sorted ∧
  Sorting.sort Cmp.numeric arr = Some sorted ∧
  ((h ← Heap.from id Heap.MinHeap arr; Heap.iterate id h) ∅).1 = inr sorted ∧
  (Forall (λ n, 0 ≤ n < 2 ^ 32 - 1)%Z arr →
   Sorting.countingSort arr = inr (Some <$> sorted)).
Proof.
  intros sorted.
  pose proof (Sorting.mergeSort_perm Cmp.numeric arr) as Hperm.
  pose proof (Sorting.mergeSort_sorted Cmp.numeric Cmp.numeric_valid arr) as Hsorted.
  fold sorted in Hperm, Hsorted.
  assert (∀ out, out ≡ₚ arr → Arr.sorted Cmp.numeric out → out = sorted) as Hunique.
  { intros out Hp Hs. apply Sorting.numeric_sorted_unique; [done..|]. by rewrite Hp, Hperm. }
  split; [|split; [|split; [|split; [|split]]]].
  - destruct (Sorting.quickSort_correct Cmp.numeric Cmp.numeric_valid arr)
      as (out & -> & Hp & Hs). f_equal. by apply Hunique.
  - apply Hunique; by apply Sorting.heapSort_correct, Cmp.numeric_valid.
  - apply Hunique; by apply Sorting.insertionSort_correct, Cmp.numeric_valid.
  - destruct (Sorting.sort_correct Cmp.numeric Cmp.numeric_valid arr)
      as (out & -> & Hp & Hs). f_equal. by apply Hunique.
  - unfold mbind, M_bind. rewrite Heap.from_run. cbv zeta. rewrite Heap.iterate_run.
    cbn [fst]. f_equal. rewrite Heap.contents_alloc, Heap.iterArray_drainArray.
    apply Hunique.
    + by rewrite Heap.drainArray_perm, Heap.fromArray_perm.
    + apply (Heap.drainArray_sorted Cmp.numeric Cmp.numeric_valid).
      apply (Heap.fromArray_ordered Cmp.numeric Cmp.numeric_valid).
  - intros Hnn. destruct (Sorting.countingSort_sorts arr Hnn) as (out & -> & Hp & Hs).
    do 2 f_equal. by apply Hunique.
Qed.

(** ** Searching *)

(** X9. [linearSearch] needs no order: on any array, under any
    comparator, it returns a slot that matches the target, or index [-1]
    and no element when no slot matches; in that case it has made one
    comparison per element. *)
Theorem linearSearch_on_any_array {T : Type} (compare : T → T → Z)
    (arr : list T) (target : T) :
  Searching.correct compare arr target (Searching.linearSearch compare arr target) ∧
  (¬ Searching.present compare arr target →
   Searching.linearSearch compare arr target = Searching.notFound (length arr)).
Proof.
  split; [apply Searching.linearSearch_correct|apply Searching.linearSearch_absent].
Qed.

(** X10. [binarySearch] and [jumpSearch] throw their sortedness error
    exactly when some element of the array is followed by one that comes
    strictly before it; the target plays no part. *)
Theorem sorted_searches_throw_on_descent {T : Type} (compare : T → T → Z)
    (arr : list T) (target : T) :
  (Searching.binarySearch compare arr target =
     inl (Error "Array must be sorted for binary search") ↔
   ¬ Arr.ascending compare arr) ∧
  (Searching.jumpSearch compare arr target =
     inl (Error "Array must be sorted for jump search") ↔
   ¬ Arr.ascending compare arr).
Proof. split; [apply Searching.binarySearch_throws|apply Searching.jumpSearch_throws]. Qed.

(** X11. No search returns a wrong slot: on any array, sorted or not, and
    under any comparator, a result of [binarySearch], [jumpSearch],
    [exponentialSearch], [linearSearch] or [interpolationSearch] either
    names an index whose element matches the target and is the element
    returned, or it is index [-1] with no element.  For [jumpSearch] the
    array is not empty, or the comparator is the default one: on the empty
    array it compares [undefined]. *)
Theorem searches_name_no_wrong_slot :
  (∀ (T : Type) (compare : T → T → Z) (arr : list T) (target : T),
     (∀ r, Searching.binarySearch compare arr target = inr r →
           Searching.found compare arr target r ∨ Searching.missed r) ∧
     (arr ≠ [] →
      ∀ r, Searching.jumpSearch compare arr target = inr r →
           Searching.found compare arr target r ∨ Searching.missed r) ∧
     (∀ r, Searching.exponentialSearch compare arr target = inr r →
           Searching.found compare arr target r ∨ Searching.missed r) ∧
     (Searching.found compare arr target (Searching.linearSearch compare arr target) ∨
      Searching.missed (Searching.linearSearch compare arr target))) ∧
  (∀ (target : Z) r,
     Searching.jumpSearch Cmp.numeric [] target = inr r → Searching.missed r) ∧
  (∀ (arr : list Z) (target : Z),
     Searching.found Cmp.numeric arr target (Searching.interpolationSearch arr target) ∨
     Searching.missed (Searching.interpolationSearch arr target)).
Proof.
  split; [|split].
  - intros T compare arr target. split; [|split; [|split]].
    + apply Searching.binarySearch_sound.
    + intros _. apply Searching.jumpSearch_sound.
    + apply Searching.exponentialSearch_sound.
    + apply Searching.linearSearch_sound.
  - intros target r. rewrite Searching.jumpSearch_nil. by intros [= <-].
  - intros arr target. apply Searching.interpolationLoop_sound.
Qed.

(** X12. [search] with the default comparator answers correctly on an
    array of integers on which the arithmetic of the probe is exact
    ([Searching.exact]), sorted or not: it returns a slot that holds the
    target, or index [-1] and no element when the target is not in the
    array.  A constant array never goes to [interpolationSearch]: it does
    not pass the uniformity test. *)
Theorem search_is_correct_on_integers (arr : list Z) (target : Z) :
  Searching.exact arr →
  (∃ r, Searching.search Cmp.numeric Some arr target = inr r ∧
        Searching.correct Cmp.numeric arr target r) ∧
  (∀ v, arr = replicate (length arr) v → Searching.isUniformlyDistributed arr = false).
Proof.
  intros Hexact. split; [by apply Searching.search_numeric_correct|].
  intros v Hv. rewrite Hv. apply Searching.isUniformlyDistributed_flat.
Qed.

(** ** The binary search tree *)

(** X13. Iterating a tree built from the empty tree by [insert] and
    [remove] yields its values in ascending order. *)
Theorem bst_iterates_in_order (updates : list BinarySearchTree.update) :
  StronglySorted Z.le (BinarySearchTree.iterate (BinarySearchTree.build updates)).
Proof. apply BinarySearchTree.ordered_sorted, BinarySearchTree.build_ok. Qed.

(** X14. [insert(value)] returns a tree that holds [value] and the values
    of the receiver, one more than the receiver by [size()]; a value the
    tree holds already is inserted again. *)
Theorem bst_insert_adds_the_value (t : BinarySearchTree.tree) (value : Z) :
  BinarySearchTree.iterate (BinarySearchTree.insert t value) ≡ₚ
    value :: BinarySearchTree.iterate t ∧
  BinarySearchTree.size (BinarySearchTree.insert t value) = BinarySearchTree.size t + 1.
Proof. split; [apply BinarySearchTree.insertNode_perm|done]. Qed.

(** X15. On a tree built by [insert] and [remove], [contains(value)] is
    [true] exactly when iterating the tree yields [value]. *)
Theorem bst_contains_what_it_yields (updates : list BinarySearchTree.update) (value : Z) :
  BinarySearchTree.contains (BinarySearchTree.build updates) value = true ↔
  value ∈ BinarySearchTree.iterate (BinarySearchTree.build updates).
Proof.
  destruct (BinarySearchTree.build_ok updates) as [Hord _].
  rewrite <-(BinarySearchTree.findNode_elem_of _ value Hord).
  unfold BinarySearchTree.contains. by destruct (BinarySearchTree.findNode _ _).
Qed.

(** X16. On a tree built by [insert] and [remove], [remove(value)] takes
    away one occurrence of [value], and the size goes down by one; when
    the tree does not hold [value] the new tree has the same nodes and the
    same size. *)
Theorem bst_remove_takes_one (updates : list BinarySearchTree.update) (value : Z) :
  let t := BinarySearchTree.build updates in
  (value ∈ BinarySearchTree.iterate t →
     BinarySearchTree.iterate t ≡ₚ
       value :: BinarySearchTree.iterate (BinarySearchTree.remove t value) ∧
     BinarySearchTree.size t = BinarySearchTree.size (BinarySearchTree.remove t value) + 1) ∧
  (value ∉ BinarySearchTree.iterate t →
     BinarySearchTree.root (BinarySearchTree.remove t value) = BinarySearchTree.root t ∧
     BinarySearchTree.size (BinarySearchTree.remove t value) = BinarySearchTree.size t).
Proof.
  intros t. destruct (BinarySearchTree.build_ok updates) as [Hord Hsize]. fold t in Hord, Hsize.
  split.
  - intros Hin. pose proof (BinarySearchTree.removeNode_perm _ value Hord Hin) as Hperm.
    split; [done|]. unfold BinarySearchTree.size, BinarySearchTree.remove. simpl.
    rewrite Hsize, !BinarySearchTree.calculateSize_length.
    rewrite (Permutation_length Hperm). simpl. lia.
  - intros Hnin. unfold BinarySearchTree.size, BinarySearchTree.remove. simpl.
    by rewrite BinarySearchTree.removeNode_absent.
Qed.

(** X17. [size()] of a tree built by [insert] and [remove] is the number
    of values iterating it yields. *)
Theorem bst_size_counts_the_values (updates : list BinarySearchTree.update) :
  BinarySearchTree.size (BinarySearchTree.build updates) =
    length (BinarySearchTree.iterate (BinarySearchTree.build updates)).
Proof.
  destruct (BinarySearchTree.build_ok updates) as [_ Hsize].
  unfold BinarySearchTree.size. rewrite Hsize. apply BinarySearchTree.calculateSize_length.
Qed.

(** ** The n-ary tree *)

(** X18. [insertChild(parentValue, childValue)]: when no node holds
    [parentValue] (or the tree is empty) the new tree has the root of the
    receiver; when some node does, the new tree yields the values of the
    receiver and one or more copies of [childValue]; exactly one when the
    values of the receiver are distinct. *)
Theorem gtree_insertChild_adds_children {T : Type} `{EqDecision T}
    (t : GeneralTree.tree) (parentValue childValue : T) :
  let t' := GeneralTree.insertChild t parentValue childValue in
  (parentValue ∉ GeneralTree.iterate t → GeneralTree.root t' = GeneralTree.root t) ∧
  (parentValue ∈ GeneralTree.iterate t →
     ∃ k, 0 < k ∧
          GeneralTree.iterate t' ≡ₚ replicate k childValue ++ GeneralTree.iterate t) ∧
  (parentValue ∈ GeneralTree.iterate t → NoDup (GeneralTree.iterate t) →
     GeneralTree.iterate t' ≡ₚ childValue :: GeneralTree.iterate t).
Proof.
  intros t'. subst t'.
  unfold GeneralTree.iterate, GeneralTree.levelOrder, GeneralTree.insertChild.
  destruct (GeneralTree.root t) as [r|]; simpl;
    [|split; [done|split; by intros ?%elem_of_nil]].
  split; [|split].
  - rewrite GeneralTree.levelLoop_root. intros Hnin.
    by rewrite GeneralTree.insertChildNode_absent.
  - rewrite GeneralTree.levelLoop_root. intros Hin.
    destruct (GeneralTree.insertChildNode_present r parentValue childValue Hin)
      as (k & Hk & Hperm).
    exists k. split; [done|]. by rewrite !GeneralTree.levelLoop_root.
  - rewrite !GeneralTree.levelLoop_root. intros Hin Hnd.
    by apply GeneralTree.insertChildNode_distinct.
Qed.

(** X19. The iteration is breadth first: it yields the value of the
    root, then the values at depth 1 from left to right, then those at
    depth 2, and so on. *)
Theorem gtree_iterates_breadth_first {T : Type} `{EqDecision T}
    (t : @GeneralTree.tree T) (r : @GeneralTree.node T) :
  GeneralTree.root t = Some r →
  GeneralTree.iterate t =
    concat (List.map (λ d, GeneralTree.level d r) (seq 0 (GeneralTree.nodes r))).
Proof.
  intros Hr. unfold GeneralTree.iterate, GeneralTree.levelOrder. rewrite Hr.
  rewrite (GeneralTree.levelLoop_levels [r] (GeneralTree.nodes r)).
  - f_equal. apply List.map_ext. intros d. unfold GeneralTree.levels. simpl.
    by rewrite app_nil_r.
  - intros d Hd. apply GeneralTree.levels_deep. unfold GeneralTree.weight. simpl. lia.
Qed.

(** X20. [size()] of a tree built by [insert] and [insertChild] is the
    number of values iterating it yields. *)
Theorem gtree_size_counts_the_values {T : Type} `{EqDecision T}
    (updates : list (@GeneralTree.update T)) :
  GeneralTree.size (GeneralTree.build updates) =
    length (GeneralTree.iterate (GeneralTree.build updates)).
Proof.
  unfold GeneralTree.size. rewrite GeneralTree.build_size.
  unfold GeneralTree.iterate, GeneralTree.levelOrder.
  destruct (GeneralTree.root (GeneralTree.build updates)) as [r|]; [|done].
  by rewrite (Permutation_length (GeneralTree.levelLoop_root r)), GeneralTree.length_values.
Qed.

(** ** The prefix tree *)

(** X21. After [t2 = t.insert(word)], [t2.contains(word)] is [true], and
    [t2.containsPrefix(prefix)] is [true] for every prefix of the word
    (both in lower case). *)
Theorem trie_insert_then_contains {C : Type} `{EqDecision C}
    (toLowerCase : list C → list C) (t : Trie.trie) (word : list C)
    (σ : gmap nat Trie.node) :
  let t2 := (Trie.insert toLowerCase t word σ).1 in
  let σ' := (Trie.insert toLowerCase t word σ).2 in
  Trie.contains toLowerCase t2 word σ' = true ∧
  (∀ prefix rest, toLowerCase word = toLowerCase prefix ++ rest →
                  Trie.containsPrefix toLowerCase t2 prefix σ' = true).
Proof.
  split; [apply Trie.insert_contains|].
  intros prefix rest. apply Trie.insert_containsPrefix.
Qed.

(** X22. [insert] is not persistent.  When the root of the receiver has
    an entry for the first character of the word, the new trie shares the
    nodes below it with the receiver and writes into them: after
    [t.insert(word)], [t.contains(word)] is [true] for the receiver [t]
    as well. *)
Theorem trie_insert_changes_the_receiver {C : Type} `{EqDecision C}
    (toLowerCase : list C → list C) (t : Trie.trie) (word : list C)
    (σ : gmap nat Trie.node) (char : C) (rest : list C) (next : nat) :
  toLowerCase word = char :: rest →
  Trie.findNode σ (Trie.root t) [char] = Some next →
  Trie.contains toLowerCase t word (Trie.insert toLowerCase t word σ).2 = true.
Proof.
  intros Hword Hentry. apply (Trie.insert_shared toLowerCase t word σ char rest next Hword).
  simpl in Hentry. by destruct (Trie.mapGet _ char) as [l|]; [injection Hentry as ->|].
Qed.

(** X23. When the root of the receiver has no entry for the first
    character of the word, or the word is empty, [insert] writes new
    nodes only: every node of the store is as it was. *)
Theorem trie_insert_on_a_new_branch {C : Type} `{EqDecision C}
    (toLowerCase : list C → list C) (t : Trie.trie) (word : list C)
    (σ : gmap nat Trie.node) :
  Trie.findNode σ (Trie.root t) (take 1 (toLowerCase word)) =
    (if toLowerCase word is [] then Some (Trie.root t) else None) →
  σ ⊆ (Trie.insert toLowerCase t word σ).2.
Proof.
  intros Hhead. apply Trie.insert_apart.
  destruct (toLowerCase word) as [|char rest]; [done|]. simpl in Hhead.
  by destruct (Trie.mapGet _ char).
Qed.

(** X24. [insert] takes no word away: a word that a trie contains, it
    contains after any [insert]; and the new trie contains the words of
    the receiver, the empty word apart. *)
Theorem trie_insert_keeps_the_words {C : Type} `{EqDecision C}
    (toLowerCase : list C → list C) (t : Trie.trie) (word : list C)
    (σ : gmap nat Trie.node) :
  let t2 := (Trie.insert toLowerCase t word σ).1 in
  let σ' := (Trie.insert toLowerCase t word σ).2 in
  (∀ t' other, Trie.contains toLowerCase t' other σ = true →
               Trie.contains toLowerCase t' other σ' = true) ∧
  (∀ other, toLowerCase other ≠ [] →
            Trie.contains toLowerCase t other σ = true →
            Trie.contains toLowerCase t2 other σ' = true).
Proof.
  split.
  - intros t' other. apply Trie.insert_keeps.
  - intros other. apply Trie.insert_inherits.
Qed.

(** *** Instances *)

Lemma peek_returns_a_minimum_witness :
  Forall Heap.callOk calls0 ∧ h0 ∈ Heap.handles (Heap.run id calls0) ∧
  ∃ top, Heap.peek h0 (Heap.st (Heap.run id calls0)) =
           (inr top, Heap.st (Heap.run id calls0)) ∧
         ∀ r, top = Some r →
              Forall (λ x, (Heap.compare id (Heap.cls h0) r x ≤ 0)%Z)
                (Heap.contents (Heap.st (Heap.run id calls0)) h0).
Proof.
  assert (Forall Heap.callOk calls0) as H1 by (repeat constructor).
  assert (h0 ∈ Heap.handles (Heap.run id calls0)) as H2 by (vm_compute; left).
  split; [exact H1|]. split; [exact H2|].
  destruct (peek_returns_a_minimum id calls0 h0 H1 H2) as (top & Hpeek & _ & Hmin).
  exists top. exact (conj Hpeek Hmin).
Defined.

(** Pairs ordered by their first component: the second tells ties
    apart. *)
Definition byFirst : Z * Z → Z * Z → Z := λ a b, (a.1 - b.1)%Z.

Lemma mergeSort_is_stable_witness :
  Cmp.valid byFirst ∧
  Sorting.ties byFirst (1, 0)%Z (Sorting.mergeSort byFirst [(1, 1); (0, 2); (1, 3)]%Z) =
    Sorting.ties byFirst (1, 0)%Z [(1, 1); (0, 2); (1, 3)]%Z.
Proof.
  assert (Cmp.valid byFirst) as H1 by (apply (Cmp.by_number_valid fst)).
  exact (conj H1 (mergeSort_is_stable byFirst _ _ H1)).
Defined.

Lemma insertionSort_is_stable_witness :
  Cmp.valid byFirst ∧
  Sorting.ties byFirst (1, 0)%Z (Sorting.insertionSort byFirst [(1, 1); (0, 2); (1, 3)]%Z) =
    Sorting.ties byFirst (1, 0)%Z [(1, 1); (0, 2); (1, 3)]%Z.
Proof.
  assert (Cmp.valid byFirst) as H1 by (apply (Cmp.by_number_valid fst)).
  exact (conj H1 (insertionSort_is_stable byFirst _ _ H1)).
Defined.

(** [new BinarySearchTree().insert(2).insert(1).insert(3)]. *)
Definition updates0 : list BinarySearchTree.update :=
  [BinarySearchTree.Insert 2; BinarySearchTree.Insert 1; BinarySearchTree.Insert 3].

Lemma bst_remove_takes_one_witness :
  2%Z ∈ BinarySearchTree.iterate (BinarySearchTree.build updates0) ∧
  BinarySearchTree.size (BinarySearchTree.build updates0) =
    BinarySearchTree.size
      (BinarySearchTree.remove (BinarySearchTree.build updates0) 2) + 1.
Proof.
  assert (2%Z ∈ BinarySearchTree.iterate (BinarySearchTree.build updates0)) as H1
    by (vm_compute; right; left).
  exact (conj H1 (proj2 (proj1 (bst_remove_takes_one updates0 2) H1))).
Defined.

(** A root [1] with the children [2] and [3]. *)
Definition gtree0 : @GeneralTree.tree Z :=
  {| GeneralTree.root :=
       Some (GeneralTree.Node 1 [GeneralTree.Node 2 []; GeneralTree.Node 3 []])%Z;
     GeneralTree._size := 3 |}.

Lemma gtree_insertChild_adds_children_witness :
  2%Z ∈ GeneralTree.iterate gtree0 ∧ NoDup (GeneralTree.iterate gtree0) ∧
  GeneralTree.iterate (GeneralTree.insertChild gtree0 2 4)%Z ≡ₚ
    4%Z :: GeneralTree.iterate gtree0.
Proof.
  assert (GeneralTree.iterate gtree0 = [1; 2; 3]%Z) as E by (vm_compute; reflexivity).
  assert (2%Z ∈ GeneralTree.iterate gtree0) as H1 by (rewrite E; right; left).
  assert (NoDup (GeneralTree.iterate gtree0)) as H2
    by (rewrite E; apply (bool_decide_unpack (NoDup [1; 2; 3]%Z)); vm_compute; exact I).
  exact (conj H1 (conj H2 (proj2 (proj2 (gtree_insertChild_adds_children gtree0 2 4)%Z) H1 H2))).
Defined.

Lemma gtree_iterates_breadth_first_witness :
  GeneralTree.root gtree0 =
    Some (GeneralTree.Node 1 [GeneralTree.Node 2 []; GeneralTree.Node 3 []])%Z ∧
  GeneralTree.iterate gtree0 =
    concat (List.map
              (λ d, GeneralTree.level d
                      (GeneralTree.Node 1 [GeneralTree.Node 2 []; GeneralTree.Node 3 []])%Z)
              (seq 0 (GeneralTree.nodes
                        (GeneralTree.Node 1 [GeneralTree.Node 2 []; GeneralTree.Node 3 []])%Z))).
Proof.
  assert (GeneralTree.root gtree0 =
            Some (GeneralTree.Node 1 [GeneralTree.Node 2 []; GeneralTree.Node 3 []])%Z) as H1
    by reflexivity.
  exact (conj H1 (gtree_iterates_breadth_first gtree0 _ H1)).
Defined.

(** [t = new Trie().insert([1, 2])], on characters that are numbers and
    are their own lower case. *)
Definition trie0 : Trie.trie * gmap nat (@Trie.node nat) :=
  Trie.insert id (Trie.new (C := nat) ∅).1 [1; 2] (Trie.new (C := nat) ∅).2.

Lemma trie_insert_changes_the_receiver_witness :
  id [1; 3] = 1 :: [3] ∧
  Trie.findNode trie0.2 (Trie.root trie0.1) [1] = Some 2 ∧
  Trie.contains id trie0.1 [1; 3] trie0.2 = false ∧
  Trie.contains id trie0.1 [1; 3] (Trie.insert id trie0.1 [1; 3] trie0.2).2 = true.
Proof.
  assert (id [1; 3] = 1 :: [3]) as H1 by reflexivity.
  assert (Trie.findNode trie0.2 (Trie.root trie0.1) [1] = Some 2) as H2
    by (vm_compute; reflexivity).
  assert (Trie.contains id trie0.1 [1; 3] trie0.2 = false) as H3
    by (vm_compute; reflexivity).
  exact (conj H1 (conj H2 (conj H3
           (trie_insert_changes_the_receiver id trie0.1 [1; 3] trie0.2 1 [3] 2 H1 H2)))).
Defined.

Lemma trie_insert_on_a_new_branch_witness :
  Trie.findNode trie0.2 (Trie.root trie0.1) (take 1 (id [5])) = None ∧
  trie0.2 ⊆ (Trie.insert id trie0.1 [5] trie0.2).2.
Proof.
  assert (Trie.findNode trie0.2 (Trie.root trie0.1) (take 1 (id [5])) = None) as H1
    by (vm_compute; reflexivity).
  exact (conj H1 (trie_insert_on_a_new_branch id trie0.1 [5] trie0.2 H1)).
Defined.

Lemma trie_insert_keeps_the_words_witness :
  Trie.contains id trie0.1 [1; 2] trie0.2 = true ∧
  Trie.contains id trie0.1 [1; 2] (Trie.insert id trie0.1 [1; 3] trie0.2).2 = true.
Proof.
  assert (Trie.contains id trie0.1 [1; 2] trie0.2 = true) as H1 by (vm_compute; reflexivity).
  exact (conj H1 (proj1 (trie_insert_keeps_the_words id trie0.1 [1; 3] trie0.2) _ _ H1)).
Defined.

(** X25. On an evenly spaced array of integers [[a, a + d, a + 2d, ...]]
    with [d > 0], on which the arithmetic of the probe is exact
    ([Searching.exact]), [interpolationSearch] finds every element at the
    first probe: it returns its index with [comparisons] equal to 1. *)
Theorem interpolationSearch_one_probe (a d : Z) (n k : nat) :
  (0 < d)%Z → k < n → Searching.exact (Searching.evenlySpaced a d n) →
  Searching.interpolationSearch (Searching.evenlySpaced a d n) (a + Z.of_nat k * d) =
    {| Searching.element := Some (a + Z.of_nat k * d)%Z;
       Searching.index := Z.of_nat k;
       Searching.comparisons := 1 |}.
Proof. apply Searching.interpolationSearch_evenlySpaced. Qed.

Lemma interpolationSearch_one_probe_witness :
  (0 < 3)%Z ∧ 2 < 5 ∧ Searching.exact (Searching.evenlySpaced 10 3 5) ∧
  Searching.interpolationSearch (Searching.evenlySpaced 10 3 5) (10 + Z.of_nat 2 * 3) =
    {| Searching.element := Some (10 + Z.of_nat 2 * 3)%Z;
       Searching.index := Z.of_nat 2;
       Searching.comparisons := 1 |}.
Proof.
  assert (0 < 3)%Z as H1 by lia. assert (2 < 5) as H2 by lia.
  assert (Searching.exact (Searching.evenlySpaced 10 3 5)) as H3.
  { apply (bool_decide_unpack (Searching.exact (Searching.evenlySpaced 10 3 5))).
    vm_compute. exact I. }
  exact (conj H1 (conj H2 (conj H3 (interpolationSearch_one_probe 10 3 5 2 H1 H2 H3)))).
Defined.

(** The array [[0, 1, ..., 11]] passes the uniformity test and goes to
    [interpolationSearch]. *)
Lemma search_is_correct_on_integers_witness :
  Searching.exact (Searching.evenlySpaced 0 1 12) ∧
  Searching.isUniformlyDistributed (Searching.evenlySpaced 0 1 12) = true ∧
  ∃ r, Searching.search Cmp.numeric Some (Searching.evenlySpaced 0 1 12) 7%Z = inr r ∧
       Searching.correct Cmp.numeric (Searching.evenlySpaced 0 1 12) 7%Z r.
Proof.
  assert (Searching.exact (Searching.evenlySpaced 0 1 12)) as H1.
  { apply (bool_decide_unpack (Searching.exact (Searching.evenlySpaced 0 1 12))).
    vm_compute. exact I. }
  split; [exact H1|]. split; [vm_compute; reflexivity|].
  exact (proj1 (search_is_correct_on_integers (Searching.evenlySpaced 0 1 12) 7%Z H1)).
Defined.

(** X26. On a trie built by [new Trie()] and [insert],
    [findWordsWithPrefix(prefix)] returns (the recursion of [collectWords]
    ends) the words of the trie that start with the prefix in lower case:
    every such word, once, and nothing else.  The words of the trie are
    the paths from its root to a node marked as the end of a word, which
    are the words [contains] answers [true] for. *)
Theorem trie_findWordsWithPrefix_is_exact {C : Type} `{EqDecision C}
    (toLowerCase : list C → list C) (calls : list Trie.call) (t : Trie.trie)
    (prefix : list C) :
  t ∈ Trie.handles (Trie.run toLowerCase calls) →
  let σ := Trie.st (Trie.run toLowerCase calls) in
  (∀ word, Trie.contains toLowerCase t word σ = true ↔
           Trie.holds σ t (toLowerCase word)) ∧
  ∃ fuel0, ∀ fuel, fuel0 ≤ fuel →
    ∃ words,
      Trie.findWordsWithPrefix toLowerCase fuel t prefix σ = Some words ∧
      NoDup words ∧
      ∀ w, w ∈ words ↔ Trie.holds σ t w ∧ ∃ rest, w = toLowerCase prefix ++ rest.
Proof.
  intros Ht σ. split; [intros word; apply Trie.contains_holds|].
  by apply Trie.findWordsWithPrefix_spec.
Qed.

Definition trieCalls0 : list (Trie.call (C := nat)) :=
  [Trie.CallNew; Trie.CallInsert 0 [1; 2]; Trie.CallInsert 1 [1; 3]].

Lemma trie_findWordsWithPrefix_is_exact_witness :
  {| Trie.root := 1 |} ∈ Trie.handles (Trie.run id trieCalls0) ∧
  ∃ fuel0, ∀ fuel, fuel0 ≤ fuel →
    ∃ words,
      Trie.findWordsWithPrefix id fuel {| Trie.root := 1 |} [1]
        (Trie.st (Trie.run id trieCalls0)) = Some words ∧
      NoDup words ∧
      ∀ w, w ∈ words ↔
           Trie.holds (Trie.st (Trie.run id trieCalls0)) {| Trie.root := 1 |} w ∧
           ∃ rest, w = id [1] ++ rest.
Proof.
  assert ({| Trie.root := 1 |} ∈ Trie.handles (Trie.run id trieCalls0)) as H1
    by (apply (list_elem_of_lookup_2 _ 1); vm_compute; reflexivity).
  exact (conj H1 (proj2 (trie_findWordsWithPrefix_is_exact id trieCalls0 _ [1] H1))).
Defined.
